(** * A desk calculator engine: [calc/logic.py]

    A shallow embedding of the calculator core ([CalculatorEngine] and the
    helpers it calls) together with the parts of the Python runtime the core
    leans on: [decimal.Decimal] under the context [prec = 28], the
    conversion of a float literal to [str], and [ast.parse] on arithmetic
    expressions.

    Scope of the runtime models.  The engine only ever writes the characters
    [0-9], [.] and [-] into [current] and into number tokens (lemma
    [reachable_alphabet]); the models of [Decimal(text)] and of the Python
    tokenizer are written for that alphabet (plus exponent notation, which
    [str(float)] can produce).  Text that would denote [Infinity] or [NaN],
    whitespace and underscores inside numerals, names, parentheses and three
    points in a row (the [Ellipsis] literal) are outside it.  The limit of
    4300 digits on an integer literal is part of the parser model; the
    recursion depth of a concrete interpreter is not modelled, and what
    is proved of the value of an evaluation is stated for expressions of
    at most [chain_limit] operators. *)

From Stdlib Require Import ZArith List String Ascii Bool Lia.
Import ListNotations.

Local Open Scope string_scope.
Local Open Scope Z_scope.

(** ** Exceptions and results *)

(** The exception classes that can reach the engine.  None of them is a
    subclass of another one in this list. *)
Inductive exn : Set :=
| ValueError
| ZeroDivisionError
| InvalidOperation
| Overflow
| SyntaxError.

Inductive res (A : Type) : Type :=
| Ret (a : A)
| Raise (e : exn).
Arguments Ret {A} a.
Arguments Raise {A} e.

Definition bind {A B : Type} (m : res A) (k : A -> res B) : res B :=
  match m with
  | Ret a => k a
  | Raise e => Raise e
  end.

Notation "x <- m ;; k" := (bind m (fun x => k))
  (at level 61, m at next level, right associativity).
Notation "' p <- m ;; k" := (bind m (fun x => match x with p => k end))
  (at level 61, p pattern, m at next level, right associativity).

(** ** Python [str] operations used by the engine *)

Module PyStr.

Definition is_digit (c : ascii) : bool :=
  match c with
  | "0" | "1" | "2" | "3" | "4" | "5" | "6" | "7" | "8" | "9" => true
  | _ => false
  end%char.

Definition digit_val (c : ascii) : Z :=
  match c with
  | "1" => 1 | "2" => 2 | "3" => 3 | "4" => 4 | "5" => 5
  | "6" => 6 | "7" => 7 | "8" => 8 | "9" => 9
  | _ => 0
  end%char.

Definition digit_char (n : Z) : ascii :=
  match n with
  | 1 => "1" | 2 => "2" | 3 => "3" | 4 => "4" | 5 => "5"
  | 6 => "6" | 7 => "7" | 8 => "8" | 9 => "9"
  | _ => "0"
  end%char.

(** [sub in s] for strings: [sub] occurs in [s] as a contiguous block.
    The empty string occurs in every string. *)
Fixpoint is_substring (sub s : string) : bool :=
  String.prefix sub s ||
  match s with
  | EmptyString => false
  | String _ s' => is_substring sub s'
  end.

(** [ch in s] for a one-character [ch]. *)
Fixpoint contains_char (ch : ascii) (s : string) : bool :=
  match s with
  | EmptyString => false
  | String c s' => Ascii.eqb c ch || contains_char ch s'
  end.

(** [s[:-1]] *)
Fixpoint drop_last (s : string) : string :=
  match s with
  | EmptyString => EmptyString
  | String c EmptyString => EmptyString
  | String c s' => String c (drop_last s')
  end.

(** [s.rstrip(ch)] for a one-character [ch]. *)
Fixpoint rstrip (ch : ascii) (s : string) : string :=
  match s with
  | EmptyString => EmptyString
  | String c s' =>
      match rstrip ch s' with
      | EmptyString => if Ascii.eqb c ch then EmptyString else String c EmptyString
      | t => String c t
      end
  end.

(** [s.strip()] restricted to the blank character. *)
Fixpoint lstrip (ch : ascii) (s : string) : string :=
  match s with
  | String c s' => if Ascii.eqb c ch then lstrip ch s' else s
  | EmptyString => EmptyString
  end.

Definition strip (s : string) : string := rstrip " "%char (lstrip " "%char s).

(** [ch * n] *)
Fixpoint repeat (ch : ascii) (n : nat) : string :=
  match n with
  | O => EmptyString
  | S n' => String ch (repeat ch n')
  end.

Definition zeros (n : Z) : string := repeat "0"%char (Z.to_nat n).

Definition len (s : string) : Z := Z.of_nat (String.length s).

(** [s[:n]] and [s[n:]] for [0 <= n]. *)
Fixpoint take (n : nat) (s : string) : string :=
  match n, s with
  | S n', String c s' => String c (take n' s')
  | _, _ => EmptyString
  end.

Fixpoint drop (n : nat) (s : string) : string :=
  match n, s with
  | S n', String _ s' => drop n' s'
  | _, _ => s
  end.

(** the longest prefix of decimal digits, and what follows it *)
Fixpoint span_digits (s : string) : string * string :=
  match s with
  | String c s' =>
      if is_digit c
      then let (d, r) := span_digits s' in (String c d, r)
      else (EmptyString, s)
  | EmptyString => (EmptyString, EmptyString)
  end.

(** [int(s)] for a string of decimal digits ([0] for the empty string,
    where the callers below never ask). *)
Fixpoint int_acc (s : string) (acc : Z) : Z :=
  match s with
  | EmptyString => acc
  | String c s' => int_acc s' (10 * acc + digit_val c)
  end.

Definition int_of_digits (s : string) : Z := int_acc s 0.

(** [str(n)] for [0 <= n] *)
Fixpoint str_fuel (fuel : nat) (n : Z) (acc : string) : string :=
  match fuel with
  | O => acc
  | S f =>
      let acc' := String (digit_char (n mod 10)) acc in
      if n <? 10 then acc' else str_fuel f (n / 10) acc'
  end.

Definition str_of_nat (n : Z) : string :=
  str_fuel (S (Z.to_nat (Z.log2 n))) n EmptyString.

(** [len(str(n))] for [0 <= n] *)
Fixpoint ndigits_fuel (fuel : nat) (n : Z) : Z :=
  match fuel with
  | O => 1
  | S f => if n <? 10 then 1 else 1 + ndigits_fuel f (n / 10)
  end.

Definition ndigits (n : Z) : Z := ndigits_fuel (S (Z.to_nat (Z.log2 n))) n.

End PyStr.

(** ** [decimal.Decimal] under [getcontext().prec = 28] *)

Module Dec.
Import PyStr.

(** A finite decimal: [(-1)^sign * coeff * 10^exp], [0 <= coeff]. *)
Record Decimal : Set := mkDec { sign : bool; coeff : Z; exp : Z }.

(** The context: [prec] is set by [logic.py], the rest are the defaults
    (ROUND_HALF_EVEN; traps on InvalidOperation, DivisionByZero,
    Overflow; clamp = 0). *)
Definition prec : Z := 28.
Definition Emax : Z := 999999.
Definition Emin : Z := -999999.
Definition Etiny : Z := Emin - prec + 1.
Definition Etop : Z := Emax - prec + 1.

Definition is_zero (d : Decimal) : bool := coeff d =? 0.

(** ROUND_HALF_EVEN: when the [k] low digits of [c] are dropped
    ([1 <= k]), is the kept part to be incremented? *)
Definition round_up (c k : Z) : bool :=
  let p := 10 ^ k in
  let q := c / p in
  let r := c mod p in
  (2 * r >? p) || ((2 * r =? p) && Z.odd q).

(** [Decimal._fix(context)]: round to the context precision and keep the
    exponent in range. *)
Definition _fix (d : Decimal) : res Decimal :=
  if is_zero d then
    Ret (mkDec (sign d) 0 (Z.min (Z.max (exp d) Etiny) Emax))
  else
    let n := ndigits (coeff d) in
    let exp_min := n + exp d - prec in
    if exp_min >? Etop then Raise Overflow
    else
      let exp_min := if exp_min <? Etiny then Etiny else exp_min in
      if exp d <? exp_min then
        let digits := n + exp d - exp_min in
        let c := if digits <? 0 then 1 else coeff d in
        let k := if digits <? 0 then 1 else exp_min - exp d in
        let changed := round_up c k in
        let kept := c / 10 ^ k in
        let grew := changed && (ndigits (kept + 1) >? prec) in
        let c' := if grew then (kept + 1) / 10
                  else if changed then kept + 1 else kept in
        let exp' := if grew then exp_min + 1 else exp_min in
        if exp' >? Etop then Raise Overflow
        else Ret (mkDec (sign d) c' exp')
      else Ret d.

(** [Decimal(text)] *)

(** an optional sign: is it [-], and what follows it *)
Definition split_sign (s : string) : bool * string :=
  match s with
  | String "-"%char r => (true, r)
  | String "+"%char r => (false, r)
  | _ => (false, s)
  end.

Definition parse_exponent (s : string) : option Z :=
  match s with
  | EmptyString => Some 0
  | String e r =>
      if Ascii.eqb e "e"%char || Ascii.eqb e "E"%char then
        let '(neg, r') := split_sign r in
        let (ds, rest) := span_digits r' in
        match ds, rest with
        | String _ _, EmptyString =>
            Some (if neg then - int_of_digits ds else int_of_digits ds)
        | _, _ => None
        end
      else None
  end.

Definition of_string (text : string) : res Decimal :=
  let '(sg, body) := split_sign text in
  let (intpart, r1) := span_digits body in
  let (fracpart, r2) :=
    match r1 with
    | String "."%char r => span_digits r
    | _ => (EmptyString, r1)
    end in
  match intpart ++ fracpart with
  | EmptyString => Raise InvalidOperation
  | digits =>
      match parse_exponent r2 with
      | None => Raise InvalidOperation
      | Some e => Ret (mkDec sg (int_of_digits digits) (e - len fracpart))
      end
  end.

(** [-x] *)
Definition neg (d : Decimal) : res Decimal :=
  if is_zero d then _fix (mkDec false (coeff d) (exp d))
  else _fix (mkDec (negb (sign d)) (coeff d) (exp d)).

Definition signed (d : Decimal) : Z := if sign d then - coeff d else coeff d.

(** [x + y] *)
Definition add (x y : Decimal) : res Decimal :=
  let e := Z.min (exp x) (exp y) in
  let v := signed x * 10 ^ (exp x - e) + signed y * 10 ^ (exp y - e) in
  if v =? 0 then _fix (mkDec (sign x && sign y) 0 e)
  else _fix (mkDec (v <? 0) (Z.abs v) e).

(** [x - y] *)
Definition sub (x y : Decimal) : res Decimal :=
  add x (mkDec (negb (sign y)) (coeff y) (exp y)).

(** [x * y] *)
Definition mul (x y : Decimal) : res Decimal :=
  _fix (mkDec (xorb (sign x) (sign y)) (coeff x * coeff y) (exp x + exp y)).

(** the loop of [__truediv__] that brings an exact quotient as close to
    the ideal exponent as its trailing zeros allow *)
Fixpoint to_ideal (fuel : nat) (c e : Z) : Z * Z :=
  match fuel with
  | O => (c, e)
  | S f => if (c mod 10 =? 0) then to_ideal f (c / 10) (e + 1) else (c, e)
  end.

(** [x / y] for [y] not zero (the evaluator tests the divisor first) *)
Definition div (x y : Decimal) : res Decimal :=
  let sg := xorb (sign x) (sign y) in
  if is_zero y then
    Raise (if is_zero x then InvalidOperation else ZeroDivisionError)
  else if is_zero x then _fix (mkDec sg 0 (exp x - exp y))
  else
    let shift := ndigits (coeff y) - ndigits (coeff x) + prec + 1 in
    let e := exp x - exp y - shift in
    let num := if 0 <=? shift then coeff x * 10 ^ shift else coeff x in
    let den := if 0 <=? shift then coeff y else coeff y * 10 ^ (- shift) in
    let q := num / den in
    let r := num mod den in
    if r =? 0 then
      let ideal := exp x - exp y in
      let '(q', e') := to_ideal (Z.to_nat (ideal - e)) q e in
      _fix (mkDec sg q' e')
    else
      _fix (mkDec sg (if q mod 5 =? 0 then q + 1 else q) e).

(** [x.normalize()] *)
Fixpoint strip_zeros (fuel : nat) (c e : Z) : Z * Z :=
  match fuel with
  | O => (c, e)
  | S f =>
      if (c mod 10 =? 0) && (e <? Emax) then strip_zeros f (c / 10) (e + 1)
      else (c, e)
  end.

Definition normalize (d : Decimal) : res Decimal :=
  dup <- _fix d ;;
  if is_zero dup then Ret (mkDec (sign dup) 0 0)
  else
    let '(c, e) := strip_zeros (Z.to_nat (ndigits (coeff dup))) (coeff dup) (exp dup) in
    Ret (mkDec (sign dup) c e).

(** [format(x, "f")] *)
Definition format_f (d : Decimal) : string :=
  let d := if is_zero d && (0 <? exp d) then mkDec (sign d) 0 0 else d in
  let digits := str_of_nat (coeff d) in
  let dotplace := exp d + len digits in
  let intpart :=
    if dotplace <? 0 then "0"
    else if len digits <? dotplace then digits ++ zeros (dotplace - len digits)
    else match take (Z.to_nat dotplace) digits with
         | EmptyString => "0"
         | s => s
         end in
  let fracpart :=
    if dotplace <? 0 then zeros (- dotplace) ++ digits
    else if len digits <? dotplace then EmptyString
    else drop (Z.to_nat dotplace) digits in
  let body :=
    match fracpart with
    | EmptyString => intpart
    | _ => intpart ++ "." ++ fracpart
    end in
  if sign d then "-" ++ body else body.

End Dec.

(** ** Python [float]: the value of a literal and its [str] *)

Module Float.
Import PyStr.

(** A non-negative binary64 value: zero, [m * 2^e] with
    [0 < m < 2^53] and [-1074 <= e <= 971], or infinity. *)
Inductive float : Set :=
| FZero
| FFin (m e : Z)
| FInf.

Definition float_eqb (a b : float) : bool :=
  match a, b with
  | FZero, FZero | FInf, FInf => true
  | FFin m e, FFin m' e' => (m =? m') && (e =? e')
  | _, _ => false
  end.

(** The binary64 value nearest to [n * 10^e10] ([0 <= n]), ties to
    even: what the reader of float literals computes. *)
Definition to_double (n e10 : Z) : float :=
  if n =? 0 then FZero
  else
    let num := if 0 <=? e10 then n * 10 ^ e10 else n in
    let den := if 0 <=? e10 then 1 else 10 ^ (- e10) in
    let e1 := Z.log2 num - Z.log2 den - 52 in
    let scaled e := if 0 <=? e then num / (den * 2 ^ e)
                    else (num * 2 ^ (- e)) / den in
    let e := if 2 ^ 52 <=? scaled e1 then e1 else e1 - 1 in
    let e := Z.max e (-1074) in
    let N := if 0 <=? e then num else num * 2 ^ (- e) in
    let D := if 0 <=? e then den * 2 ^ e else den in
    let q := N / D in
    let r := N mod D in
    let m := if (2 * r >? D) || ((2 * r =? D) && Z.odd q) then q + 1 else q in
    let '(m, e) := if m =? 2 ^ 53 then (2 ^ 52, e + 1) else (m, e) in
    if 971 <? e then FInf
    else if m =? 0 then FZero
    else FFin m e.

(** [p] with [10^p <= xn / xd < 10^(p+1)], for [0 < xn], [0 < xd] *)
Definition decimal_exponent (xn xd : Z) : Z :=
  if xd <=? xn then ndigits (xn / xd) - 1
  else
    let t := ndigits xd - ndigits xn in
    if xd <=? xn * 10 ^ t then - t else - t - 1.

(** The candidate with [d] significant digits: of the two multiples of
    [10^s] around [xn / xd], one that reads back as [x]; the nearer one
    when both do, the even one when they are equally near. *)
Definition candidate (x : float) (xn xd p d : Z) : option (Z * Z) :=
  let s := p - d + 1 in
  let lo := if 0 <=? s then xn / (xd * 10 ^ s) else (xn * 10 ^ (- s)) / xd in
  let hi := lo + 1 in
  let ok c := float_eqb (to_double c s) x in
  (* [lo + hi] against [2 x / 10^s]: which of the two is nearer *)
  let side :=
    if 0 <=? s then (lo + hi) * 10 ^ s * xd ?= 2 * xn
    else (lo + hi) * xd ?= 2 * xn * 10 ^ (- s) in
  let nearest :=
    match side with
    | Lt => hi
    | Gt => lo
    | Eq => if Z.even lo then lo else hi
    end in
  match ok lo, ok hi with
  | true, true => Some (nearest, s)
  | true, false => Some (lo, s)
  | false, true => Some (hi, s)
  | false, false => None
  end.

Fixpoint shortest (x : float) (xn xd p : Z) (tries : nat) (d : Z) : Z * Z :=
  match tries with
  | O => (0, 0)
  | S t =>
      match candidate x xn xd p d with
      | Some cs => cs
      | None => shortest x xn xd p t (d + 1)
      end
  end.

Fixpoint strip_zeros (fuel : nat) (c s : Z) : Z * Z :=
  match fuel with
  | O => (c, s)
  | S f => if c mod 10 =? 0 then strip_zeros f (c / 10) (s + 1) else (c, s)
  end.

Definition two_digits (n : Z) : string :=
  if n <? 10 then "0" ++ str_of_nat n else str_of_nat n.

(** [str(x)] (the same text as [repr(x)]) *)
Definition repr (x : float) : string :=
  match x with
  | FZero => "0.0"
  | FInf => "inf"
  | FFin m e =>
      let xn := if 0 <=? e then m * 2 ^ e else m in
      let xd := if 0 <=? e then 1 else 2 ^ (- e) in
      let p := decimal_exponent xn xd in
      let '(c0, s0) := shortest x xn xd p 17 1 in
      let '(c, s) := strip_zeros 17 c0 s0 in
      let ds := str_of_nat c in
      let decpt := len ds + s in
      if (decpt <=? -4) || (16 <? decpt) then
        let mant :=
          match ds with
          | String c1 EmptyString => ds
          | String c1 tl => String c1 ("." ++ tl)
          | EmptyString => ds
          end in
        let ex := decpt - 1 in
        mant ++ "e" ++ (if ex <? 0 then "-" else "+") ++ two_digits (Z.abs ex)
      else if decpt <=? 0 then "0." ++ zeros (- decpt) ++ ds
      else if len ds <=? decpt then ds ++ zeros (decpt - len ds) ++ ".0"
      else take (Z.to_nat decpt) ds ++ "." ++ drop (Z.to_nat decpt) ds
  end.

End Float.

(** ** [ast.parse(expression, mode="eval")] on arithmetic expressions *)

Module Ast.
Import PyStr.

Inductive constant : Set :=
| CInt (n : Z)
| CFloat (x : Float.float).

Inductive operator : Set := Add | Sub | Mult | Div | FloorDiv | Pow.
Inductive unaryop : Set := UAdd | USub.

Inductive expr : Set :=
| BinOp (left : expr) (op : operator) (right : expr)
| UnaryOp (op : unaryop) (operand : expr)
| Constant (value : constant).

(** *** Tokenizer *)

Inductive token : Set :=
| NUMBER (value : constant)
| PLUS | MINUS | STAR | SLASH | DOUBLESTAR | DOUBLESLASH.

(** A numeral being read: the digits before the point and, once a point
    has been seen, the digits after it. *)
Definition numeral : Set := (string * option string)%type.

Definition snoc (s : string) (c : ascii) : string := s ++ String c EmptyString.

Definition all_zero (s : string) : bool := int_of_digits s =? 0.

(** The token of a finished numeral.  [007] is refused (leading zeros in
    a decimal integer), [00] and [012.5] are accepted, a lone point is
    not a number.  The token carries the value of the literal; the limit
    on the length of an integer literal is applied where the parser
    converts it, in [parse] below. *)
Definition number_token (n : numeral) : res token :=
  match n with
  | (ip, None) =>
      match ip with
      | String "0"%char (String _ _) =>
          if all_zero ip then Ret (NUMBER (CInt 0)) else Raise SyntaxError
      | _ => Ret (NUMBER (CInt (int_of_digits ip)))
      end
  | (ip, Some fp) =>
      match ip ++ fp with
      | EmptyString => Raise SyntaxError
      | ds => Ret (NUMBER (CFloat (Float.to_double (int_of_digits ds) (- len fp))))
      end
  end.

Definition flush (cur : option numeral) : res (list token) :=
  match cur with
  | None => Ret []
  | Some n => t <- number_token n ;; Ret [t]
  end.

Definition emit (cur : option numeral) (ts : list token) (rest : res (list token))
  : res (list token) :=
  pre <- flush cur ;; post <- rest ;; Ret (pre ++ ts ++ post)%list.

Fixpoint tokenize (cur : option numeral) (s : string) : res (list token) :=
  match s with
  | EmptyString => flush cur
  | String c r =>
      if is_digit c then
        match cur with
        | None => tokenize (Some (String c EmptyString, None)) r
        | Some (ip, None) => tokenize (Some (snoc ip c, None)) r
        | Some (ip, Some fp) => tokenize (Some (ip, Some (snoc fp c))) r
        end
      else if Ascii.eqb c "."%char then
        match cur with
        | None => tokenize (Some (EmptyString, Some EmptyString)) r
        | Some (ip, None) => tokenize (Some (ip, Some EmptyString)) r
        | Some (_, Some _) =>
            emit cur [] (tokenize (Some (EmptyString, Some EmptyString)) r)
        end
      else if Ascii.eqb c " "%char then emit cur [] (tokenize None r)
      else if Ascii.eqb c "+"%char then emit cur [PLUS] (tokenize None r)
      else if Ascii.eqb c "-"%char then emit cur [MINUS] (tokenize None r)
      else if Ascii.eqb c "*"%char then
        match r with
        | String c' r' =>
            if Ascii.eqb c' "*"%char
            then emit cur [DOUBLESTAR] (tokenize None r')
            else emit cur [STAR] (tokenize None r)
        | EmptyString => emit cur [STAR] (tokenize None r)
        end
      else if Ascii.eqb c "/"%char then
        match r with
        | String c' r' =>
            if Ascii.eqb c' "/"%char
            then emit cur [DOUBLESLASH] (tokenize None r')
            else emit cur [SLASH] (tokenize None r)
        | EmptyString => emit cur [SLASH] (tokenize None r)
        end
      else Raise SyntaxError
  end.

(** *** Parser: the expression grammar

    - [arith := term (('+' | '-') term)*]
    - [term := factor (('*' | '/' | '//') factor)*]
    - [factor := ('+' | '-') factor | power]
    - [power := NUMBER ['**' factor]] *)

Fixpoint factor (ts : list token) : res (expr * list token) :=
  match ts with
  | PLUS :: r => '(e, r') <- factor r ;; Ret (UnaryOp UAdd e, r')
  | MINUS :: r => '(e, r') <- factor r ;; Ret (UnaryOp USub e, r')
  | NUMBER v :: DOUBLESTAR :: r =>
      '(e, r') <- factor r ;; Ret (BinOp (Constant v) Pow e, r')
  | NUMBER v :: r => Ret (Constant v, r)
  | _ => Raise SyntaxError
  end.

Fixpoint term_rest (fuel : nat) (acc : expr) (ts : list token)
  : res (expr * list token) :=
  match fuel with
  | O => Raise SyntaxError
  | S f =>
      match ts with
      | STAR :: r => '(e, r') <- factor r ;; term_rest f (BinOp acc Mult e) r'
      | SLASH :: r => '(e, r') <- factor r ;; term_rest f (BinOp acc Div e) r'
      | DOUBLESLASH :: r =>
          '(e, r') <- factor r ;; term_rest f (BinOp acc FloorDiv e) r'
      | _ => Ret (acc, ts)
      end
  end.

Definition term (fuel : nat) (ts : list token) : res (expr * list token) :=
  '(e, r) <- factor ts ;; term_rest fuel e r.

Fixpoint arith_rest (fuel : nat) (acc : expr) (ts : list token)
  : res (expr * list token) :=
  match fuel with
  | O => Raise SyntaxError
  | S f =>
      match ts with
      | PLUS :: r => '(e, r') <- term f r ;; arith_rest f (BinOp acc Add e) r'
      | MINUS :: r => '(e, r') <- term f r ;; arith_rest f (BinOp acc Sub e) r'
      | _ => Ret (acc, ts)
      end
  end.

Definition parse_tokens (ts : list token) : res expr :=
  let fuel := S (List.length ts) in
  '(e, r) <- term fuel ts ;;
  '(e', r') <- arith_rest fuel e r ;;
  match r' with
  | [] => Ret e'
  | _ => Raise SyntaxError
  end.

(** [sys.int_info.default_max_str_digits]: the parser refuses an integer
    literal of more digits when it converts it ([SyntaxError]); a literal
    with a decimal point has no such limit. *)
Definition max_str_digits : Z := 4300.

Definition within_limit (t : token) : bool :=
  match t with
  | NUMBER (CInt n) => ndigits n <=? max_str_digits
  | _ => true
  end.

Definition parse (expression : string) : res expr :=
  ts <- tokenize None expression ;;
  if List.forallb within_limit ts then parse_tokens ts else Raise SyntaxError.

End Ast.

(** ** [calc/logic.py] *)

Import PyStr.
Import Dec (Decimal, mkDec).

(** [OPERATORS = {"+", "-", "*", "/"}]: the test [text in OPERATORS] *)
Definition in_OPERATORS (text : string) : bool :=
  (text =? "+")%string || (text =? "-")%string ||
  (text =? "*")%string || (text =? "/")%string.

Definition _format_decimal (value : Decimal) : res string :=
  n <- Dec.normalize value ;;
  let text := Dec.format_f n in
  let text :=
    if contains_char "."%char text
    then rstrip "."%char (rstrip "0"%char text)
    else text in
  if (text =? "")%string || (text =? "-")%string then Ret "0"
  else if (text =? "-0")%string then Ret "0"
  else Ret text.

(** [InvalidOperation] from [Decimal(text)] is re-raised as [ValueError]. *)
Definition _sanitize_number (text : string) : res string :=
  match Dec.of_string text with
  | Raise InvalidOperation => Raise ValueError
  | Raise e => Raise e
  | Ret value => _format_decimal value
  end.

(** [_SafeEvaluator.visit]; the [ast.Expression] wrapper of the tree is
    transparent. *)
Fixpoint visit (node : Ast.expr) : res Decimal :=
  match node with
  | Ast.BinOp l op r =>
      left <- visit l ;;
      right <- visit r ;;
      match op with
      | Ast.Add => Dec.add left right
      | Ast.Sub => Dec.sub left right
      | Ast.Mult => Dec.mul left right
      | Ast.Div =>
          if Dec.is_zero right then Raise ZeroDivisionError
          else Dec.div left right
      | _ => Raise ValueError
      end
  | Ast.UnaryOp op e =>
      operand <- visit e ;;
      match op with
      | Ast.UAdd => Ret operand
      | Ast.USub => Dec.neg operand
      end
  | Ast.Constant (Ast.CInt n) => Dec.of_string (str_of_nat n)
  | Ast.Constant (Ast.CFloat x) => Dec.of_string (Float.repr x)
  end.

Definition safe_calculate (expression : string) : res Decimal :=
  let expression := strip expression in
  match expression with
  | EmptyString => Dec.of_string "0"
  | _ =>
      tree <- Ast.parse expression ;;
      visit tree
  end.

Record CalculatorState : Set := mkState {
  tokens : list string;
  current : string;
  overwrite : bool;
  error : option string
}.

(** [CalculatorState()] *)
Definition fresh : CalculatorState := mkState [] "0" true None.

(** [" ".join(tokens)] *)
Definition expression_text (s : CalculatorState) : string :=
  String.concat " " (tokens s).

Definition display : Set := (string * string * option string)%type.

Definition get_display (s : CalculatorState) : display :=
  (expression_text s, current s, error s).

(** The truth value of an [Optional[str]]. *)
Definition truthy (e : option string) : bool :=
  match e with
  | None | Some EmptyString => false
  | Some _ => true
  end.

Definition _reset_on_error (s : CalculatorState) : CalculatorState :=
  if truthy (error s) then fresh else s.

Definition _input_digit (digit : string) (s0 : CalculatorState) : CalculatorState :=
  let s := _reset_on_error s0 in
  if overwrite s then mkState (tokens s) digit false (error s)
  else if (current s =? "0")%string then mkState (tokens s) digit (overwrite s) (error s)
  else mkState (tokens s) (current s ++ digit) (overwrite s) (error s).

Definition _input_decimal_point (s0 : CalculatorState) : CalculatorState :=
  let s := _reset_on_error s0 in
  if overwrite s then mkState (tokens s) "0." false (error s)
  else if negb (contains_char "."%char (current s))
  then mkState (tokens s) (current s ++ ".") (overwrite s) (error s)
  else s.

(** [tokens and tokens[-1] in OPERATORS] *)
Definition ends_with_operator (ts : list string) : bool :=
  match ts with
  | [] => false
  | _ => in_OPERATORS (List.last ts "")
  end.

(** [tokens[-1] = value] on a non-empty list *)
Definition set_last (ts : list string) (value : string) : list string :=
  (List.removelast ts ++ [value])%list.

(** A method leaves the engine in a state and either returns or raises. *)
Definition step : Set := (res unit * CalculatorState)%type.

Definition _commit_current (s : CalculatorState) : step :=
  match _sanitize_number (current s) with
  | Raise e => (Raise e, s)
  | Ret value =>
      let ts :=
        match tokens s with
        | [] => [value]
        | _ => if ends_with_operator (tokens s)
               then (tokens s ++ [value])%list
               else set_last (tokens s) value
        end in
      (Ret tt, mkState ts (current s) (overwrite s) (error s))
  end.

Definition _apply_operator (operator : string) (s0 : CalculatorState) : step :=
  let s := _reset_on_error s0 in
  match _commit_current s with
  | (Raise e, s') => (Raise e, s')
  | (Ret _, s') =>
      let ts :=
        if ends_with_operator (tokens s') then set_last (tokens s') operator
        else (tokens s' ++ [operator])%list in
      (Ret tt, mkState ts (current s') true (error s'))
  end.

Definition _set_error (message : string) (s : CalculatorState) : CalculatorState :=
  mkState [] "0" true (Some message).

Definition msg_number : string := "数値の解析に失敗しました".
Definition msg_zero_division : string := "ゼロ除算エラー".
Definition msg_expression : string := "式の解析に失敗しました".

(** The list [_calculate_result] hands to the evaluator, built on a copy
    of [tokens] (non-empty here). *)
Definition evaluation_list (s : CalculatorState) : res (list string) :=
  let ts := tokens s in
  if negb (overwrite s) || ends_with_operator ts then
    current_value <- _sanitize_number (current s) ;;
    if ends_with_operator ts then Ret (ts ++ [current_value])%list
    else Ret (set_last ts current_value)
  else if ends_with_operator ts then Ret (List.removelast ts)
  else Ret ts.

Definition _calculate_result (s0 : CalculatorState) : step :=
  let s := _reset_on_error s0 in
  match tokens s with
  | [] =>
      match _sanitize_number (current s) with
      | Raise ValueError => (Ret tt, _set_error msg_number s)
      | Raise e => (Raise e, s)
      | Ret result => (Ret tt, mkState (tokens s) result true (error s))
      end
  | _ =>
      match evaluation_list s with
      | Raise ValueError => (Ret tt, _set_error msg_number s)
      | Raise e => (Raise e, s)
      | Ret ts =>
          let expression := String.concat " " ts in
          match safe_calculate expression with
          | Raise ZeroDivisionError => (Ret tt, _set_error msg_zero_division s)
          | Raise InvalidOperation | Raise ValueError =>
              (Ret tt, _set_error msg_expression s)
          | Raise e => (Raise e, s)
          | Ret result_decimal =>
              match _format_decimal result_decimal with
              | Raise e => (Raise e, s)
              | Ret text => (Ret tt, mkState [] text true None)
              end
          end
      end
  end.

Definition _clear_all (s : CalculatorState) : CalculatorState := fresh.

Definition _clear_entry (s0 : CalculatorState) : CalculatorState :=
  let s := _reset_on_error s0 in
  mkState (tokens s) "0" true (error s).

Definition minus_one : Decimal := mkDec true 1 0.
Definition hundred : Decimal := mkDec false 100 0.
Definition zero : Decimal := mkDec false 0 0.

Definition _toggle_sign (s0 : CalculatorState) : step :=
  let s := _reset_on_error s0 in
  match (c <- Dec.of_string (current s) ;; Dec.mul c minus_one) with
  | Raise InvalidOperation => (Ret tt, _set_error msg_number s)
  | Raise e => (Raise e, s)
  | Ret value =>
      match _format_decimal value with
      | Raise e => (Raise e, s)
      | Ret text => (Ret tt, mkState (tokens s) text false (error s))
      end
  end.

(** [tokens[-2]] on a list of at least two elements *)
Definition second_to_last (ts : list string) : string :=
  List.nth 1 (List.rev ts) "".

Definition percent_base (ts : list string) : res Decimal :=
  match Dec.of_string (second_to_last ts) with
  | Raise InvalidOperation => Ret zero
  | r => r
  end.

Definition _percent (s0 : CalculatorState) : step :=
  let s := _reset_on_error s0 in
  match Dec.of_string (current s) with
  | Raise InvalidOperation => (Ret tt, _set_error msg_number s)
  | Raise e => (Raise e, s)
  | Ret current_value =>
      let computed :=
        if (2 <=? Z.of_nat (List.length (tokens s))) && ends_with_operator (tokens s)
        then
          base <- percent_base (tokens s) ;;
          p <- Dec.mul base current_value ;;
          Dec.div p hundred
        else Dec.div current_value hundred in
      match (v <- computed ;; _format_decimal v) with
      | Raise e => (Raise e, s)
      | Ret text => (Ret tt, mkState (tokens s) text false (error s))
      end
  end.

Definition _backspace (s0 : CalculatorState) : CalculatorState :=
  let s := _reset_on_error s0 in
  if overwrite s then mkState (tokens s) "0" (overwrite s) (error s)
  else if (1 <? len (current s)) then
    let cur := drop_last (current s) in
    if (cur =? "-")%string || (cur =? "-0")%string
    then mkState (tokens s) "0" true (error s)
    else mkState (tokens s) cur (overwrite s) (error s)
  else mkState (tokens s) "0" true (error s).

(** The keys of the [dispatcher] dictionary, by the method they select. *)
Inductive method : Set :=
| m_clear_all | m_clear_entry | m_calculate_result
| m_percent | m_toggle_sign | m_backspace.

Definition dispatcher (command : string) : option method :=
  if (command =? "C")%string then Some m_clear_all
  else if (command =? "CE")%string then Some m_clear_entry
  else if (command =? "=")%string then Some m_calculate_result
  else if (command =? "%")%string then Some m_percent
  else if (command =? "+/-")%string then Some m_toggle_sign
  else if (command =? "±")%string then Some m_toggle_sign
  else if (command =? "⌫")%string then Some m_backspace
  else if (command =? "Backspace")%string then Some m_backspace
  else None.

Definition call (m : method) (s : CalculatorState) : step :=
  match m with
  | m_clear_all => (Ret tt, _clear_all s)
  | m_clear_entry => (Ret tt, _clear_entry s)
  | m_calculate_result => _calculate_result s
  | m_percent => _percent s
  | m_toggle_sign => _toggle_sign s
  | m_backspace => (Ret tt, _backspace s)
  end.

(** What [process] runs before it returns the display. *)
Definition dispatch (command : string) (s : CalculatorState) : step :=
  if is_substring command "0123456789" then (Ret tt, _input_digit command s)
  else if (command =? ".")%string then (Ret tt, _input_decimal_point s)
  else if in_OPERATORS command then _apply_operator command s
  else match dispatcher command with
       | Some m => call m s
       | None => (Ret tt, s)
       end.

(** [CalculatorEngine.process]: the display it returns, or the exception
    that escapes it, and the state the engine is left in. *)
Definition process (command : string) (s : CalculatorState)
  : res display * CalculatorState :=
  match dispatch command s with
  | (Ret _, s') => (Ret (get_display s'), s')
  | (Raise e, s') => (Raise e, s')
  end.

(** The state of the engine after a call, returned or raised. *)
Definition after (command : string) (s : CalculatorState) : CalculatorState :=
  snd (process command s).

(** A session: the commands are sent one by one; an exception that escapes
    a call leaves the engine object in place for the next call. *)
Definition press (commands : list string) (s : CalculatorState) : CalculatorState :=
  List.fold_left (fun st c => after c st) commands s.

Inductive reachable : CalculatorState -> Prop :=
| reach_init : reachable fresh
| reach_step command s : reachable s -> reachable (after command s).

(** ** Vocabulary of the properties *)

Fixpoint all_digits (s : string) : bool :=
  match s with
  | EmptyString => true
  | String c r => is_digit c && all_digits r
  end.

(** the characters the engine writes into [current] and number tokens *)
Definition in_alphabet (c : ascii) : bool :=
  is_digit c || Ascii.eqb c "."%char || Ascii.eqb c "-"%char.

Fixpoint over_alphabet (s : string) : bool :=
  match s with
  | EmptyString => true
  | String c r => in_alphabet c && over_alphabet r
  end.

Definition strip_minus (s : string) : string :=
  match s with
  | String "-"%char r => r
  | _ => s
  end.

(** A plain decimal numeral, [-?digits+(.digits+)?]: the form of every
    text [_format_decimal] returns. *)
Definition is_plain_number (s : string) : bool :=
  let (ip, r1) := span_digits (strip_minus s) in
  match ip, r1 with
  | String _ _, EmptyString => true
  | String _ _, String "."%char r =>
      let (fp, r2) := span_digits r in
      match fp, r2 with
      | String _ _, EmptyString => true
      | _, _ => false
      end
  | _, _ => false
  end.

(** [tokens] made of (number, operator) pairs: empty, or
    [n1 op1 n2 op2 ... nk opk]. *)
Fixpoint pairs (ts : list string) : bool :=
  match ts with
  | [] => true
  | n :: o :: r => is_plain_number n && in_OPERATORS o && pairs r
  | _ => false
  end.

(** Numbers and operators in turn, a number first; the last entry may be a
    number or an operator. *)
Fixpoint alternating (ts : list string) : bool :=
  match ts with
  | [] => true
  | [n] => is_plain_number n
  | n :: o :: r => is_plain_number n && in_OPERATORS o && alternating r
  end.

(** The commands [process] dispatches to a method. *)
Definition recognized (command : string) : bool :=
  is_substring command "0123456789" || (command =? ".")%string ||
  in_OPERATORS command ||
  match dispatcher command with Some _ => true | None => false end.

(** what may follow a run of digits for [span_digits] to stop there *)
Definition stops (r : string) : Prop :=
  match r with
  | EmptyString => True
  | String c _ => is_digit c = false
  end.

(** the text of a sign in [format(x, "f")] *)
Definition sign_text (sg : bool) : string := if sg then "-" else "".


(** What every reachable state satisfies: [tokens] is made of (number,
    operator) pairs, an error state is the state [_set_error] leaves, and
    [current] is written over the alphabet of numerals. *)
Definition invariant (s : CalculatorState) : Prop :=
  pairs (tokens s) = true /\
  (truthy (error s) = true ->
   tokens s = [] /\ current s = "0" /\ overwrite s = true) /\
  over_alphabet (current s) = true.

(** A well-formed decimal has a non-negative coefficient. *)
Definition wf (d : Decimal) : Prop := 0 <= Dec.coeff d.

(** [c' * 10^k] is a multiple of [10^k] nearest to [c]. *)
Definition nearest (c k c' : Z) : Prop :=
  2 * Z.abs (c - c' * 10 ^ k) <= 10 ^ k.

(** [r] is the exact value [(-1)^sg * c * 10^e] brought into the context:
    at most [prec] digits, the value itself when it fits, and a nearest
    decimal of the result's exponent otherwise. *)
Definition rounds_to (sg : bool) (c e : Z) (r : Decimal) : Prop :=
  Dec.sign r = sg /\ 0 <= Dec.coeff r /\ ndigits (Dec.coeff r) <= Dec.prec /\
  (c = 0 -> Dec.coeff r = 0) /\
  (c <> 0 ->
   e <= Dec.exp r /\ nearest c (Dec.exp r - e) (Dec.coeff r) /\
   (ndigits c <= Dec.prec -> Dec.Etiny <= e -> r = mkDec sg c e)).

(** [r] is a multiple of [10^(exp r)] nearest to the quotient [x / y]:
    [|x / y - r| <= 10^(exp r) / 2], with the denominators cleared. *)
Definition quotient_nearest (x y r : Decimal) : Prop :=
  forall a b, 0 <= a -> 0 <= b ->
    a - b = Dec.exp x - Dec.exp y - Dec.exp r ->
    2 * Z.abs (Dec.coeff x * 10 ^ a - Dec.coeff r * Dec.coeff y * 10 ^ b)
    <= Dec.coeff y * 10 ^ b.

(** [a * 10^ea] is at least as near to [num / den * 10^e] as [b * 10^eb]
    is: the three are brought to the least of their exponents and the
    denominator is cleared. *)
Definition as_near (num den e a ea b eb : Z) : Prop :=
  let m := Z.min e (Z.min ea eb) in
  Z.abs (num * 10 ^ (e - m) - a * den * 10 ^ (ea - m)) <=
  Z.abs (num * 10 ^ (e - m) - b * den * 10 ^ (eb - m)).

(** No decimal the context can hold (at most [prec] digits, an exponent
    of at least [Etiny]) is nearer to [num / den * 10^e] than [r] is. *)
Definition none_nearer (num den e : Z) (r : Decimal) : Prop :=
  forall c' e', 0 <= c' -> ndigits c' <= Dec.prec -> Dec.Etiny <= e' ->
    as_near num den e (Dec.coeff r) (Dec.exp r) c' e'.

(** [r] is a decimal the context can hold, and a nearest one to
    [num / den * 10^e] among them. *)
Definition nearest_in_context (num den e : Z) (r : Decimal) : Prop :=
  0 <= Dec.coeff r /\ ndigits (Dec.coeff r) <= Dec.prec /\
  Dec.Etiny <= Dec.exp r /\ none_nearer num den e r.

(** the negation of [y], as [x - y] is computed as [x + (-y)] *)
Definition negated (y : Decimal) : Decimal :=
  mkDec (negb (Dec.sign y)) (Dec.coeff y) (Dec.exp y).

(** The exact sum of [x] and [y] in units of [10^min(exp x, exp y)]. *)
Definition exact_sum (x y : Decimal) : Z :=
  let e := Z.min (Dec.exp x) (Dec.exp y) in
  Dec.signed x * 10 ^ (Dec.exp x - e) + Dec.signed y * 10 ^ (Dec.exp y - e).

(** the sign of a sum: a zero sum is negative only if both terms are *)
Definition sum_sign (x y : Decimal) : bool :=
  if exact_sum x y =? 0 then Dec.sign x && Dec.sign y else exact_sum x y <? 0.

(** ** Sessions used as examples *)

Definition nines : list string := List.repeat "9" 20.

(** 99999999999999999999 * 99999999999999999999 = *)
Definition square_of_nines : CalculatorState :=
  press (nines ++ ["*"] ++ nines ++ ["="]) fresh.

(** 0.1234567890123456789 + 0 = *)
Definition long_fraction : CalculatorState :=
  press ["0"; "."; "1"; "2"; "3"; "4"; "5"; "6"; "7"; "8"; "9"; "0";
         "1"; "2"; "3"; "4"; "5"; "6"; "7"; "8"; "9"; "+"; "0"; "="] fresh.

Definition two : Decimal := mkDec false 2 0.
Definition three : Decimal := mkDec false 3 0.
Definition two_thirds : Decimal :=
  mkDec false 6666666666666666666666666667 (-28).

(** 5 + *)
Definition pending_operator : CalculatorState := press ["5"; "+"] fresh.

(** 8 / 0 = *)
Definition divided_by_zero : CalculatorState :=
  press ["8"; "/"; "0"; "="] fresh.

(** 12 + 3 * *)
Definition two_pending : CalculatorState :=
  press ["1"; "2"; "+"; "3"; "*"] fresh.

(** 12 + 3 = *)
Definition sum_shown : CalculatorState :=
  press ["1"; "2"; "+"; "3"; "="] fresh.

(** 200 + 10 *)
Definition percent_entry : CalculatorState :=
  press ["2"; "0"; "0"; "+"; "1"; "0"] fresh.

(** the empty string sent as a command *)
Definition after_empty_command : CalculatorState := after "" fresh.

(** ** Chains of operands and operators *)

(** The four operator symbols of [OPERATORS]. *)
Inductive symbol : Set := plus | minus | times | over.

Definition symbol_token (o : symbol) : Ast.token :=
  match o with
  | plus => Ast.PLUS
  | minus => Ast.MINUS
  | times => Ast.STAR
  | over => Ast.SLASH
  end.

Definition symbol_operator (o : symbol) : Ast.operator :=
  match o with
  | plus => Ast.Add
  | minus => Ast.Sub
  | times => Ast.Mult
  | over => Ast.Div
  end.

(** [*] and [/] bind tighter than [+] and [-]. *)
Definition binds_tighter (o : symbol) : bool :=
  match o with
  | times | over => true
  | plus | minus => false
  end.

(** An operand: a number, behind a minus sign or not. *)
Definition operand : Set := (bool * Ast.constant)%type.

Definition operand_tokens (x : operand) : list Ast.token :=
  if fst x then [Ast.MINUS; Ast.NUMBER (snd x)] else [Ast.NUMBER (snd x)].

Definition operand_expr (x : operand) : Ast.expr :=
  if fst x then Ast.UnaryOp Ast.USub (Ast.Constant (snd x))
  else Ast.Constant (snd x).

Definition rest_tokens (rest : list (symbol * operand)) : list Ast.token :=
  List.flat_map (fun ox => symbol_token (fst ox) :: operand_tokens (snd ox)) rest.

(** The tokens of [x0 o1 x1 o2 x2 ...]. *)
Definition chain_tokens (first : operand) (rest : list (symbol * operand))
  : list Ast.token :=
  (operand_tokens first ++ rest_tokens rest)%list.

Definition close (done : option (Ast.expr * symbol)) (term : Ast.expr) : Ast.expr :=
  match done with
  | None => term
  | Some (l, o) => Ast.BinOp l (symbol_operator o) term
  end.

(** The tree of a chain under the usual precedence, read in one pass:
    [done] is the sum so far with its pending [+] or [-], [term] the
    product being built. *)
Fixpoint climb (done : option (Ast.expr * symbol)) (term : Ast.expr)
         (rest : list (symbol * operand)) : Ast.expr :=
  match rest with
  | [] => close done term
  | (o, x) :: r =>
      if binds_tighter o
      then climb done (Ast.BinOp term (symbol_operator o) (operand_expr x)) r
      else climb (Some (close done term, o)) (operand_expr x) r
  end.



(** what may follow a number for [factor] to stop there *)
Definition not_power (ts : list Ast.token) : Prop :=
  match ts with
  | Ast.DOUBLESTAR :: _ => False
  | _ => True
  end.

(** the leading factors of a term, and what follows them *)
Fixpoint take_term (acc : Ast.expr) (rest : list (symbol * operand))
  : Ast.expr * list (symbol * operand) :=
  match rest with
  | (o, x) :: r =>
      if binds_tighter o
      then take_term (Ast.BinOp acc (symbol_operator o) (operand_expr x)) r
      else (acc, rest)
  | [] => (acc, [])
  end.

Definition int_operand (n : Z) : operand := (false, Ast.CInt n).


Definition symbol_text (o : symbol) : string :=
  match o with
  | plus => "+"
  | minus => "-"
  | times => "*"
  | over => "/"
  end.

(** The token list [w0 o1 w1 o2 w2 ...] of the engine, as strings. *)
Definition chain_words (first : string) (rest : list (symbol * string))
  : list string :=
  first :: List.flat_map (fun ow => [symbol_text (fst ow); snd ow]) rest.

(** The word [w] is read as the operand [x]. *)
Definition reads_as (w : string) (x : operand) : Prop :=
  Ast.tokenize None w = Ret (operand_tokens x).

(** sequencing of two tokenizer runs *)
Definition then_tokens (a b : res (list Ast.token)) : res (list Ast.token) :=
  x <- a ;; y <- b ;; Ret (x ++ y)%list.


(** ** [calc/ui.py]: what the window sends to the engine and shows

    The widgets are left out; what is kept is the path of a command from a
    button or a key to [CalculatorEngine.process], and the three text
    variables the labels display. *)

Definition BUTTON_LAYOUT : list (list string) :=
  [["CE"; "C"; "⌫"; "%"];
   ["7"; "8"; "9"; "÷"];
   ["4"; "5"; "6"; "×"];
   ["1"; "2"; "3"; "-"];
   ["±"; "0"; "."; "+"]].

(** [COMMAND_MAP.get(label)] *)
Definition COMMAND_MAP (label : string) : option string :=
  if (label =? "÷")%string then Some "/"
  else if (label =? "×")%string then Some "*"
  else None.

(** [KEY_COMMANDS.get(keysym)] *)
Definition KEY_COMMANDS (keysym : string) : option string :=
  if (keysym =? "Return")%string then Some "="
  else if (keysym =? "KP_Enter")%string then Some "="
  else if (keysym =? "plus")%string then Some "+"
  else if (keysym =? "KP_Add")%string then Some "+"
  else if (keysym =? "minus")%string then Some "-"
  else if (keysym =? "KP_Subtract")%string then Some "-"
  else if (keysym =? "asterisk")%string then Some "*"
  else if (keysym =? "KP_Multiply")%string then Some "*"
  else if (keysym =? "slash")%string then Some "/"
  else if (keysym =? "KP_Divide")%string then Some "/"
  else if (keysym =? "BackSpace")%string then Some "⌫"
  else if (keysym =? "Delete")%string then Some "CE"
  else if (keysym =? "Escape")%string then Some "C"
  else if (keysym =? "F9")%string then Some "±"
  else if (keysym =? "percent")%string then Some "%"
  else None.

(** The window: its engine, the three [StringVar]s and the colour of the
    display label. *)
Record CalculatorUI : Set := mkUI {
  engine : CalculatorState;
  expression_var : string;
  display_var : string;
  status_var : string;
  display_fg : string
}.

Definition _update_display (shown : display) (ui : CalculatorUI) : CalculatorUI :=
  let '(expression, current, error) := shown in
  if truthy error
  then mkUI (engine ui) expression current
            (match error with Some message => message | None => "" end)
            "#c53030"
  else mkUI (engine ui) expression current "" "#202020".

(** [CalculatorUI.__init__], as far as the engine and the variables go *)
Definition new_window : CalculatorUI :=
  _update_display (get_display fresh) (mkUI fresh "" "0" "" "#202020").

(** [COMMAND_MAP.get(label, label)] *)
Definition mapped (label : string) : string :=
  match COMMAND_MAP label with
  | Some command => command
  | None => label
  end.

(** An exception of [process] escapes the callback before the display is
    updated. *)
Definition _handle_command (label : string) (ui : CalculatorUI)
  : res unit * CalculatorUI :=
  let command := mapped label in
  match process command (engine ui) with
  | (Ret shown, s) =>
      (Ret tt,
       _update_display shown
         (mkUI s (expression_var ui) (display_var ui) (status_var ui) (display_fg ui)))
  | (Raise e, s) =>
      (Raise e,
       mkUI s (expression_var ui) (display_var ui) (status_var ui) (display_fg ui))
  end.

Section Keys.

(** [str.isdigit], which is true of more than the ten ASCII digits *)
Variable isdigit : string -> bool.

(** [event.char] and [event.keysym] of a key event *)
Definition _on_key_press (char keysym : string) (ui : CalculatorUI)
  : res unit * CalculatorUI :=
  if negb (char =? "")%string && isdigit char then _handle_command char ui
  else if (char =? ".")%string then _handle_command "." ui
  else if (char =? "%")%string then _handle_command "%" ui
  else match KEY_COMMANDS keysym with
       | Some command =>
           if (command =? "")%string then (Ret tt, ui)
           else _handle_command command ui
       | None => (Ret tt, ui)
       end.

(** What the user can do: press a button of the pad or the Equals button,
    or a key. *)
Inductive clickable (label : string) : Prop :=
| click_pad (row : list string) :
    In row BUTTON_LAYOUT -> In label row -> clickable label
| click_equals : label = "=" -> clickable label.

Inductive shown_window : CalculatorUI -> Prop :=
| window_new : shown_window new_window
| window_click (label : string) (ui : CalculatorUI) :
    clickable label -> shown_window ui ->
    shown_window (snd (_handle_command label ui))
| window_key (char keysym : string) (ui : CalculatorUI) :
    shown_window ui -> shown_window (snd (_on_key_press char keysym ui)).

End Keys.

(** The labels show the state of the engine. *)
Definition in_step (ui : CalculatorUI) : Prop :=
  expression_var ui = expression_text (engine ui) /\
  display_var ui = current (engine ui) /\
  status_var ui = match error (engine ui) with
                  | Some message => message
                  | None => ""
                  end.

(** ** One call of [process], case by case *)

(** How a method changes the entry: the text of [current] and the
    overwrite flag before, and after. *)
Inductive edits (command old : string) (ow : bool) : string -> bool -> Prop :=
| edit_digit_first :
    all_digits command = true -> ow = true \/ old = "0" ->
    edits command old ow command false
| edit_digit :
    all_digits command = true -> ow = false -> old <> "0" ->
    edits command old ow (old ++ command) false
| edit_point_first : ow = true -> edits command old ow "0." false
| edit_point :
    ow = false -> contains_char "."%char old = false ->
    edits command old ow (old ++ ".") false
| edit_point_again :
    ow = false -> contains_char "."%char old = true ->
    edits command old ow old false
| edit_zero : edits command old ow "0" true
| edit_backspace :
    ow = false -> 1 < len old ->
    drop_last old <> "-" -> drop_last old <> "-0" ->
    edits command old ow (drop_last old) false
| edit_text (value : Decimal) (text : string) (ow' : bool) :
    wf value -> _format_decimal value = Ret text ->
    edits command old ow text ow'.

(** What a recognized command does to a state without an error: the
    result of the call ([Ret] or the exception that escapes) and the state
    it leaves. *)
Inductive outcome (command : string) (s : CalculatorState) : step -> Prop :=
| out_clear : outcome command s (Ret tt, fresh)
| out_edit (cur : string) (ow : bool) :
    edits command (current s) (overwrite s) cur ow ->
    outcome command s (Ret tt, mkState (tokens s) cur ow (error s))
| out_operator (v : string) :
    in_OPERATORS command = true -> _sanitize_number (current s) = Ret v ->
    outcome command s
      (Ret tt, mkState (tokens s ++ [v; command]) (current s) true (error s))
| out_operator_raise (e : exn) :
    in_OPERATORS command = true -> _sanitize_number (current s) = Raise e ->
    outcome command s (Raise e, s)
| out_result (v : string) (value : Decimal) (text : string) :
    tokens s <> [] -> _sanitize_number (current s) = Ret v ->
    safe_calculate (String.concat " " (tokens s ++ [v])) = Ret value ->
    _format_decimal value = Ret text ->
    outcome command s (Ret tt, mkState [] text true None)
| out_error_number :
    Dec.of_string (current s) = Raise InvalidOperation ->
    outcome command s (Ret tt, _set_error msg_number s)
| out_error_zero_division (v : string) :
    tokens s <> [] -> _sanitize_number (current s) = Ret v ->
    safe_calculate (String.concat " " (tokens s ++ [v])) = Raise ZeroDivisionError ->
    outcome command s (Ret tt, _set_error msg_zero_division s)
| out_error_expression (v : string) (e : exn) :
    tokens s <> [] -> _sanitize_number (current s) = Ret v ->
    safe_calculate (String.concat " " (tokens s ++ [v])) = Raise e ->
    e = InvalidOperation \/ e = ValueError ->
    outcome command s (Ret tt, _set_error msg_expression s)
| out_overflow : outcome command s (Raise Overflow, s)
| out_syntax_error (v : string) :
    tokens s <> [] -> _sanitize_number (current s) = Ret v ->
    safe_calculate (String.concat " " (tokens s ++ [v])) = Raise SyntaxError ->
    outcome command s (Raise SyntaxError, s).

(** ** Vocabulary of the further properties *)

(** A text [_format_decimal] returns for some decimal. *)
Definition formatted (t : string) : Prop :=
  exists value, wf value /\ _format_decimal value = Ret t.

(** [tokens] grown pair by pair, each number a formatted one. *)
Inductive committed : list string -> Prop :=
| committed_nil : committed []
| committed_snoc (ts : list string) (n o : string) :
    committed ts -> formatted n -> in_OPERATORS o = true ->
    committed (ts ++ [n; o]).

(** The states of a session in which no command is the empty string. *)
Inductive attainable : CalculatorState -> Prop :=
| attain_init : attainable fresh
| attain_step (command : string) (s : CalculatorState) :
    command <> "" -> attainable s -> attainable (after command s).

(** A number being typed: an optional minus sign, digits, and possibly a
    point with the digits typed after it so far (none yet, as in [12.]). *)
Definition is_entry (s : string) : bool :=
  let (ip, r1) := span_digits (strip_minus s) in
  match ip, r1 with
  | String _ _, EmptyString => true
  | String _ _, String "."%char r => all_digits r
  | _, _ => false
  end.

(** [s.count(ch)] *)
Fixpoint count_char (ch : ascii) (s : string) : nat :=
  match s with
  | EmptyString => O
  | String c r => ((if Ascii.eqb c ch then 1 else 0) + count_char ch r)%nat
  end.

(** The keys of a text, one command per character. *)
Definition keys (s : string) : list string :=
  List.map (fun c => String c "") (list_ascii_of_string s).

(** A decimal as [normalize] returns it: zero with exponent 0, or a
    coefficient of at most [prec] digits that does not end in 0, with the
    exponent in range. *)
Definition normal (d : Decimal) : Prop :=
  (Dec.coeff d = 0 /\ Dec.exp d = 0) \/
  (0 < Dec.coeff d /\ ndigits (Dec.coeff d) <= Dec.prec /\
   Dec.coeff d mod 10 <> 0 /\ Dec.Etiny <= Dec.exp d /\
   ndigits (Dec.coeff d) + Dec.exp d <= Dec.Emax + 1).

(** The last steps of [_format_decimal], on the text of [format(x, "f")]. *)
Definition trimmed (text : string) : string :=
  let text :=
    if contains_char "."%char text
    then rstrip "."%char (rstrip "0"%char text)
    else text in
  if (text =? "")%string || (text =? "-")%string then "0"
  else if (text =? "-0")%string then "0"
  else text.

(** The text of a normal decimal [n]: [0], an integer numeral followed by
    the zeros of a positive exponent, or an integer part and as many
    fractional digits as the exponent asks for. *)
Inductive text_of (n : Decimal) : string -> Prop :=
| text_zero : Dec.coeff n = 0 -> text_of n "0"
| text_integer :
    0 < Dec.coeff n -> 0 <= Dec.exp n ->
    text_of n (sign_text (Dec.sign n) ++ str_of_nat (Dec.coeff n) ++
               zeros (Dec.exp n))
| text_fraction (ip fp : string) :
    0 < Dec.coeff n -> Dec.exp n < 0 ->
    all_digits ip = true -> ip <> "" -> all_digits fp = true -> fp <> "" ->
    int_of_digits (ip ++ fp) = Dec.coeff n -> len fp = - Dec.exp n ->
    text_of n (sign_text (Dec.sign n) ++ ip ++ "." ++ fp).

(** The session [a o b =]: the digits of [a], the operator [o], the digits
    of [b] and Equals, for two natural numbers. *)
Definition entered (a : Z) (o : string) (b : Z) : list string :=
  (keys (str_of_nat a) ++ [o] ++ keys (str_of_nat b) ++ ["="])%list.

(** * Properties *)

(** ** Strings *)

Lemma is_digit_cases (c : ascii) :
  is_digit c = true ->
  In c ["0"; "1"; "2"; "3"; "4"; "5"; "6"; "7"; "8"; "9"]%char.
Proof.
  destruct c as [[] [] [] [] [] [] [] []]; simpl; intros H;
    try discriminate H; tauto.
Qed.

Lemma is_digit_alphabet (c : ascii) : is_digit c = true -> in_alphabet c = true.
Proof. intros H. unfold in_alphabet. rewrite H. reflexivity. Qed.

Lemma split_sign_digit (c : ascii) (r : string) :
  is_digit c = true -> Dec.split_sign (String c r) = (false, String c r).
Proof.
  intros H. apply is_digit_cases in H. simpl in H.
  repeat (destruct H as [H | H]; [subst c; reflexivity |]). contradiction.
Qed.

Lemma strip_minus_digit (c : ascii) (r : string) :
  is_digit c = true -> strip_minus (String c r) = String c r.
Proof.
  intros H. apply is_digit_cases in H. simpl in H.
  repeat (destruct H as [H | H]; [subst c; reflexivity |]). contradiction.
Qed.

Lemma append_nil_r (s : string) : s ++ "" = s.
Proof. induction s; simpl; congruence. Qed.

Lemma append_assoc (a b c : string) : (a ++ b) ++ c = a ++ (b ++ c).
Proof. induction a; simpl; congruence. Qed.

Lemma length_append (a b : string) :
  String.length (a ++ b) = (String.length a + String.length b)%nat.
Proof. induction a; simpl; congruence. Qed.

Lemma all_digits_app (a b : string) :
  all_digits (a ++ b) = all_digits a && all_digits b.
Proof.
  induction a as [| c a IH]; simpl; [reflexivity |].
  rewrite IH. apply andb_assoc.
Qed.

Lemma all_digits_repeat (n : nat) : all_digits (repeat "0"%char n) = true.
Proof. induction n; simpl; auto. Qed.

Lemma take_drop (n : nat) (s : string) : take n s ++ drop n s = s.
Proof.
  revert s. induction n as [| n IH]; intros [| c s]; simpl; try reflexivity.
  now rewrite IH.
Qed.

Lemma all_digits_take (n : nat) (s : string) :
  all_digits s = true -> all_digits (take n s) = true.
Proof.
  revert s. induction n as [| n IH]; intros [| c s]; simpl; auto.
  intros H. apply andb_true_iff in H as [Hc Hs]. rewrite Hc. simpl. auto.
Qed.

Lemma all_digits_drop (n : nat) (s : string) :
  all_digits s = true -> all_digits (drop n s) = true.
Proof.
  revert s. induction n as [| n IH]; intros [| c s]; simpl; auto.
  intros H. apply andb_true_iff in H as [Hc Hs]. auto.
Qed.

Lemma span_digits_app (ds r : string) :
  all_digits ds = true -> stops r -> span_digits (ds ++ r) = (ds, r).
Proof.
  intros Hd Hr. induction ds as [| c ds IH]; simpl in *.
  - destruct r as [| c r]; simpl in *; [reflexivity | now rewrite Hr].
  - apply andb_true_iff in Hd as [Hc Hd]. rewrite Hc, (IH Hd). reflexivity.
Qed.

Lemma span_digits_all (ds : string) :
  all_digits ds = true -> span_digits ds = (ds, "").
Proof.
  intros H. rewrite <- (append_nil_r ds) at 1.
  apply span_digits_app; [assumption | exact I].
Qed.

(** *** [str] of a natural number *)

Lemma digit_char_is_digit (n : Z) : is_digit (digit_char n) = true.
Proof.
  destruct n as [| p | p]; try reflexivity.
  do 4 (destruct p as [p | p |]; try reflexivity).
Qed.

Lemma all_digits_str_fuel (fuel : nat) (n : Z) (acc : string) :
  all_digits acc = true -> all_digits (str_fuel fuel n acc) = true.
Proof.
  revert n acc. induction fuel as [| f IH]; intros n acc H; simpl; auto.
  destruct (n <? 10).
  - simpl. now rewrite digit_char_is_digit.
  - apply IH. simpl. now rewrite digit_char_is_digit.
Qed.

Lemma all_digits_str_of_nat (n : Z) : all_digits (str_of_nat n) = true.
Proof. apply all_digits_str_fuel. reflexivity. Qed.

Lemma str_fuel_nonempty (fuel : nat) (n : Z) (acc : string) :
  str_fuel (S fuel) n acc <> "".
Proof.
  revert n acc. induction fuel as [| f IH]; intros n acc.
  - simpl. destruct (n <? 10); discriminate.
  - change (str_fuel (S (S f)) n acc)
      with (if n <? 10 then String (digit_char (n mod 10)) acc
            else str_fuel (S f) (n / 10) (String (digit_char (n mod 10)) acc)).
    destruct (n <? 10); [discriminate | apply IH].
Qed.

Lemma str_of_nat_nonempty (n : Z) : str_of_nat n <> "".
Proof. apply str_fuel_nonempty. Qed.

(** *** [rstrip] *)

Lemma rstrip_app (ch : ascii) (a b : string) :
  rstrip ch (a ++ b) =
  match rstrip ch b with
  | EmptyString => rstrip ch a
  | t => a ++ t
  end.
Proof.
  induction a as [| c a IH]; simpl.
  - destruct (rstrip ch b); reflexivity.
  - rewrite IH. destruct (rstrip ch b) as [| c' t].
    + reflexivity.
    + destruct a; reflexivity.
Qed.

Lemma rstrip_digits (ch : ascii) (s : string) :
  is_digit ch = false -> all_digits s = true -> rstrip ch s = s.
Proof.
  intros Hch. induction s as [| c s IH]; simpl; [reflexivity |].
  intros H. apply andb_true_iff in H as [Hc Hs]. rewrite (IH Hs).
  destruct s; [| reflexivity].
  destruct (Ascii.eqb_spec c ch) as [-> | _]; [congruence | reflexivity].
Qed.

Lemma all_digits_rstrip (ch : ascii) (s : string) :
  all_digits s = true -> all_digits (rstrip ch s) = true.
Proof.
  induction s as [| c s IH]; simpl; [reflexivity |].
  intros H. apply andb_true_iff in H as [Hc Hs]. specialize (IH Hs).
  destruct (rstrip ch s).
  - destruct (Ascii.eqb c ch); simpl; [reflexivity | now rewrite Hc].
  - simpl in *. now rewrite Hc.
Qed.

Lemma contains_char_digits (ch : ascii) (s : string) :
  is_digit ch = false -> all_digits s = true -> contains_char ch s = false.
Proof.
  intros Hch. induction s as [| c s IH]; simpl; [reflexivity |].
  intros H. apply andb_true_iff in H as [Hc Hs]. rewrite (IH Hs).
  destruct (Ascii.eqb_spec c ch) as [-> | _]; [congruence | reflexivity].
Qed.

Lemma contains_char_app (ch : ascii) (a b : string) :
  contains_char ch (a ++ b) = contains_char ch a || contains_char ch b.
Proof.
  induction a as [| c a IH]; simpl; [reflexivity |].
  rewrite IH. apply orb_assoc.
Qed.

(** ** The text of a number *)

Lemma strip_minus_sign_text (sg : bool) (ip r : string) :
  all_digits ip = true -> ip <> "" ->
  strip_minus (sign_text sg ++ ip ++ r) = ip ++ r.
Proof.
  intros Hd Hne. destruct sg; simpl; [reflexivity |].
  destruct ip as [| c ip]; [congruence |]. simpl in *.
  apply andb_true_iff in Hd as [Hc _]. now apply strip_minus_digit.
Qed.

Lemma plain_integer (sg : bool) (ip : string) :
  all_digits ip = true -> ip <> "" ->
  is_plain_number (sign_text sg ++ ip) = true.
Proof.
  intros Hd Hne. unfold is_plain_number.
  rewrite <- (append_nil_r ip), strip_minus_sign_text by assumption.
  rewrite append_nil_r, span_digits_all by assumption.
  destruct ip; [congruence | reflexivity].
Qed.

Lemma plain_fraction (sg : bool) (ip fp : string) :
  all_digits ip = true -> ip <> "" -> all_digits fp = true -> fp <> "" ->
  is_plain_number (sign_text sg ++ ip ++ "." ++ fp) = true.
Proof.
  intros Hd Hne Hf Hfne. unfold is_plain_number.
  rewrite strip_minus_sign_text by assumption.
  rewrite span_digits_app by (auto; reflexivity).
  destruct ip; [congruence |]. simpl.
  rewrite span_digits_all by assumption.
  destruct fp; [congruence | reflexivity].
Qed.

Lemma format_f_shape (d : Decimal) :
  exists ip fp,
    all_digits ip = true /\ ip <> "" /\ all_digits fp = true /\
    Dec.format_f d =
    sign_text (Dec.sign d) ++ ip ++
    match fp with EmptyString => "" | _ => "." ++ fp end.
Proof.
  unfold Dec.format_f.
  set (d' := if Dec.is_zero d && (0 <? Dec.exp d)
             then mkDec (Dec.sign d) 0 0 else d).
  assert (Hs : Dec.sign d' = Dec.sign d)
    by (unfold d'; destruct (Dec.is_zero d && (0 <? Dec.exp d)); reflexivity).
  rewrite Hs. clear Hs.
  set (digits := str_of_nat (Dec.coeff d')).
  assert (Hd : all_digits digits = true) by apply all_digits_str_of_nat.
  assert (Hne : digits <> "") by apply str_of_nat_nonempty.
  set (dotplace := Dec.exp d' + len digits).
  assert (Hout : forall ip fp : string,
    (if Dec.sign d
     then "-" ++ match fp with EmptyString => ip | _ => ip ++ "." ++ fp end
     else match fp with EmptyString => ip | _ => ip ++ "." ++ fp end) =
    sign_text (Dec.sign d) ++ ip ++
    match fp with EmptyString => "" | _ => "." ++ fp end).
  { intros ip fp. destruct (Dec.sign d), fp; simpl;
      rewrite ?append_nil_r; reflexivity. }
  destruct (dotplace <? 0).
  - exists "0", (zeros (- dotplace) ++ digits). repeat split.
    + discriminate.
    + unfold zeros. rewrite all_digits_app, all_digits_repeat. exact Hd.
    + exact (Hout "0" (zeros (- dotplace) ++ digits)).
  - destruct (len digits <? dotplace).
    + exists (digits ++ zeros (dotplace - len digits)), "". repeat split.
      * unfold zeros. rewrite all_digits_app, all_digits_repeat, Hd. reflexivity.
      * destruct digits; [congruence | discriminate].
      * exact (Hout (digits ++ zeros (dotplace - len digits)) "").
    + exists (match take (Z.to_nat dotplace) digits with
              | EmptyString => "0"
              | s => s
              end), (drop (Z.to_nat dotplace) digits).
      repeat split.
      * pose proof (all_digits_take (Z.to_nat dotplace) digits Hd) as Ht.
        destruct (take (Z.to_nat dotplace) digits); [reflexivity | exact Ht].
      * destruct (take (Z.to_nat dotplace) digits); discriminate.
      * now apply all_digits_drop.
      * exact (Hout _ (drop (Z.to_nat dotplace) digits)).
Qed.

Lemma rstrip_point_digits (sg : bool) (ip : string) :
  all_digits ip = true -> ip <> "" ->
  rstrip "."%char (sign_text sg ++ ip) = sign_text sg ++ ip.
Proof.
  intros Hd Hne. rewrite rstrip_app, rstrip_digits by (auto; reflexivity).
  destruct ip; [congruence | reflexivity].
Qed.

Lemma rstrip_zero_point (a f : string) :
  rstrip "0"%char (a ++ "." ++ f) = a ++ "." ++ rstrip "0"%char f.
Proof.
  rewrite rstrip_app. simpl. destruct (rstrip "0"%char f); reflexivity.
Qed.

Lemma rstrip_point_end (a : string) :
  rstrip "."%char (a ++ ".") = rstrip "."%char a.
Proof. rewrite rstrip_app. reflexivity. Qed.

Lemma rstrip_point_frac (a f : string) :
  all_digits f = true -> f <> "" ->
  rstrip "."%char (a ++ "." ++ f) = a ++ "." ++ f.
Proof.
  intros Hf Hne. rewrite rstrip_app. simpl.
  rewrite rstrip_digits by (auto; reflexivity).
  destruct f; [congruence | reflexivity].
Qed.

(** What [_format_decimal] makes of the text of [format(..., "f")]. *)
Lemma trimmed_shape (sg : bool) (ip fp : string) :
  all_digits ip = true -> ip <> "" -> all_digits fp = true ->
  let text := sign_text sg ++ ip ++
              match fp with EmptyString => "" | _ => "." ++ fp end in
  is_plain_number
    (if contains_char "."%char text
     then rstrip "."%char (rstrip "0"%char text) else text) = true.
Proof.
  intros Hd Hne Hf. destruct fp as [| c fp]; cbv zeta.
  - rewrite append_nil_r.
    replace (contains_char "."%char (sign_text sg ++ ip)) with false.
    + now apply plain_integer.
    + rewrite contains_char_app, (contains_char_digits _ ip) by (auto; reflexivity).
      destruct sg; reflexivity.
  - remember (String c fp) as f eqn:Ef.
    replace (contains_char "."%char (sign_text sg ++ ip ++ "." ++ f)) with true
      by (rewrite !contains_char_app; simpl; now rewrite !orb_true_r).
    rewrite <- (append_assoc (sign_text sg) ip), rstrip_zero_point.
    pose proof (all_digits_rstrip "0"%char f Hf) as Hf'.
    destruct (rstrip "0"%char f) as [| c' f'] eqn:E.
    + change ((sign_text sg ++ ip) ++ "." ++ "")
        with ((sign_text sg ++ ip) ++ ".").
      rewrite rstrip_point_end, rstrip_point_digits by assumption.
      now apply plain_integer.
    + rewrite rstrip_point_frac by (auto; discriminate).
      rewrite append_assoc. apply plain_fraction; auto; discriminate.
Qed.

Lemma format_decimal_plain (value : Decimal) (text : string) :
  _format_decimal value = Ret text -> is_plain_number text = true.
Proof.
  unfold _format_decimal. destruct (Dec.normalize value) as [n | e]; simpl;
    [| discriminate].
  destruct (format_f_shape n) as (ip & fp & Hd & Hne & Hf & ->).
  pose proof (trimmed_shape (Dec.sign n) ip fp Hd Hne Hf) as H. cbv zeta in H.
  match goal with
  | |- context [if ?a || ?b then _ else _] => destruct (a || b)
  end; [intros [= <-]; reflexivity |].
  match goal with
  | |- context [if ?a then _ else _] => destruct a
  end; [intros [= <-]; reflexivity |].
  intros [= <-]. exact H.
Qed.

Lemma sanitize_plain (text value : string) :
  _sanitize_number text = Ret value -> is_plain_number value = true.
Proof.
  unfold _sanitize_number. destruct (Dec.of_string text) as [d | []];
    try discriminate. apply format_decimal_plain.
Qed.

Lemma plain_not_operator (t : string) :
  is_plain_number t = true -> in_OPERATORS t = false.
Proof.
  intros H. destruct (in_OPERATORS t) eqn:E; [| reflexivity].
  unfold in_OPERATORS in E.
  repeat (apply orb_true_iff in E as [E | E]);
    apply String.eqb_eq in E; subst t; discriminate H.
Qed.

(** A plain numeral is accepted by [Decimal(text)]. *)
Lemma plain_parses (t : string) :
  is_plain_number t = true -> exists d, Dec.of_string t = Ret d.
Proof.
  unfold is_plain_number, Dec.of_string.
  assert (Hs : Dec.split_sign t = (match t with
                                   | String "-"%char _ => true
                                   | _ => false
                                   end, strip_minus t)
               \/ exists r, t = String "+"%char r).
  { destruct t as [| c r]; [left; reflexivity |].
    destruct (Ascii.eqb_spec c "+"%char) as [-> | Hc]; [right; eauto | left].
    destruct (Ascii.eqb_spec c "-"%char) as [-> | Hm]; [reflexivity |].
    destruct c as [[] [] [] [] [] [] [] []]; try reflexivity; congruence. }
  destruct Hs as [-> | [r ->]]; [| discriminate].
  destruct (span_digits (strip_minus t)) as [ip r1].
  destruct ip as [| c ip]; [discriminate |].
  destruct r1 as [| c1 r1].
  - intros _. simpl. eauto.
  - destruct (Ascii.eqb_spec c1 "."%char) as [-> | Hc].
    + destruct (span_digits r1) as [fp r2].
      destruct fp as [| cf fp]; [discriminate |].
      destruct r2; [| discriminate]. intros _. simpl. eauto.
    + destruct c1 as [[] [] [] [] [] [] [] []]; try discriminate; congruence.
Qed.

(** ** Lists of tokens *)

Lemma ends_with_operator_snoc (ts : list string) (x : string) :
  ends_with_operator (ts ++ [x]) = in_OPERATORS x.
Proof.
  unfold ends_with_operator. rewrite last_last.
  destruct ts; reflexivity.
Qed.

Lemma set_last_snoc (ts : list string) (x y : string) :
  set_last (ts ++ [x]) y = (ts ++ [y])%list.
Proof. unfold set_last. now rewrite removelast_last. Qed.

Lemma pairs_two_steps (P : list string -> Prop) :
  P [] -> (forall n, P [n]) ->
  (forall n o r, P r -> P (n :: o :: r)) ->
  forall ts, P ts.
Proof.
  intros H0 H1 H2.
  assert (H : forall ts, P ts /\ forall a, P (a :: ts)).
  { induction ts as [| b ts [IH1 IH2]]; split; auto. }
  intros ts. apply H.
Qed.

Lemma pairs_snoc (ts : list string) (n o : string) :
  pairs ts = true -> is_plain_number n = true -> in_OPERATORS o = true ->
  pairs (ts ++ [n; o]) = true.
Proof.
  intros H Hn Ho. revert H.
  induction ts as [| a | a b r IH] using pairs_two_steps; simpl.
  - intros _. now rewrite Hn, Ho.
  - discriminate.
  - intros H. apply andb_true_iff in H as [H Hr]. rewrite H. auto.
Qed.

Lemma pairs_ends (ts : list string) :
  pairs ts = true -> ts <> [] -> ends_with_operator ts = true.
Proof.
  induction ts as [| a | a b r IH] using pairs_two_steps; simpl.
  - congruence.
  - discriminate.
  - intros H _. apply andb_true_iff in H as [H Hr].
    apply andb_true_iff in H as [_ Hb].
    destruct r as [| c r]; [exact Hb |].
    specialize (IH Hr ltac:(discriminate)).
    unfold ends_with_operator in *. exact IH.
Qed.

Lemma pairs_alternating (ts : list string) :
  pairs ts = true -> alternating ts = true.
Proof.
  induction ts as [| a | a b r IH] using pairs_two_steps; simpl; auto.
  - discriminate.
  - intros H. apply andb_true_iff in H as [H Hr]. rewrite H. auto.
Qed.

(** ** Characters *)

Lemma span_digits_spec (s d r : string) :
  span_digits s = (d, r) -> s = d ++ r /\ all_digits d = true.
Proof.
  revert d r. induction s as [| c s IH]; simpl; intros d r.
  - intros [= <- <-]. auto.
  - destruct (is_digit c) eqn:Hc.
    + destruct (span_digits s) as [d' r']. intros [= <- <-].
      destruct (IH d' r' eq_refl) as [-> Hd]. simpl. now rewrite Hc.
    + intros [= <- <-]. auto.
Qed.

Lemma all_digits_over_alphabet (s : string) :
  all_digits s = true -> over_alphabet s = true.
Proof.
  induction s as [| c s IH]; simpl; [reflexivity |].
  intros H. apply andb_true_iff in H as [Hc Hs].
  now rewrite (is_digit_alphabet c Hc), IH.
Qed.

Lemma over_alphabet_app (a b : string) :
  over_alphabet (a ++ b) = over_alphabet a && over_alphabet b.
Proof.
  induction a as [| c a IH]; simpl; [reflexivity |].
  rewrite IH. apply andb_assoc.
Qed.

Lemma over_alphabet_drop_last (s : string) :
  over_alphabet s = true -> over_alphabet (drop_last s) = true.
Proof.
  induction s as [| c s IH]; simpl; [reflexivity |].
  intros H. apply andb_true_iff in H as [Hc Hs].
  destruct s; [reflexivity |]. simpl in *. rewrite Hc. auto.
Qed.

Lemma strip_minus_alphabet (s : string) :
  over_alphabet (strip_minus s) = true -> over_alphabet s = true.
Proof.
  destruct s as [| c s]; [reflexivity |].
  destruct (Ascii.eqb_spec c "-"%char) as [-> | Hc]; [simpl; auto |].
  replace (strip_minus (String c s)) with (String c s); [auto |].
  destruct c as [[] [] [] [] [] [] [] []]; try reflexivity; congruence.
Qed.

Lemma plain_over_alphabet (t : string) :
  is_plain_number t = true -> over_alphabet t = true.
Proof.
  unfold is_plain_number. intros H. apply strip_minus_alphabet.
  destruct (span_digits (strip_minus t)) as [ip r1] eqn:E.
  apply span_digits_spec in E as [-> Hip].
  rewrite over_alphabet_app, (all_digits_over_alphabet ip Hip). simpl.
  destruct ip as [| c ip]; [discriminate |].
  destruct r1 as [| c1 r1]; [reflexivity |].
  destruct (Ascii.eqb_spec c1 "."%char) as [-> | Hc].
  - destruct (span_digits r1) as [fp r2] eqn:E2.
    apply span_digits_spec in E2 as [-> Hfp].
    destruct fp as [| cf fp]; [discriminate |]. destruct r2; [| discriminate].
    rewrite append_nil_r.
    exact (all_digits_over_alphabet (String cf fp) Hfp).
  - destruct c1 as [[] [] [] [] [] [] [] []]; try discriminate; congruence.
Qed.

Lemma prefix_all_digits (sub s : string) :
  String.prefix sub s = true -> all_digits s = true -> all_digits sub = true.
Proof.
  revert sub. induction s as [| c s IH]; intros [| c' sub]; simpl; auto.
  - discriminate.
  - destruct (ascii_dec c' c) as [-> | _]; [| discriminate].
    intros H Hs. apply andb_true_iff in Hs as [Hc Hs]. rewrite Hc. simpl. eauto.
Qed.

Lemma is_substring_all_digits (sub s : string) :
  is_substring sub s = true -> all_digits s = true -> all_digits sub = true.
Proof.
  induction s as [| c s IH]; simpl.
  - rewrite orb_false_r. destruct sub; [reflexivity | discriminate].
  - intros H Hs. apply orb_true_iff in H as [H | H].
    + now apply (prefix_all_digits sub (String c s)).
    + apply andb_true_iff in Hs as [_ Hs]. auto.
Qed.

Lemma digit_command_digits (command : string) :
  is_substring command "0123456789" = true -> all_digits command = true.
Proof. intros H. now apply (is_substring_all_digits _ _ H). Qed.

(** ** The invariant of the engine *)

Lemma invariant_fresh : invariant fresh.
Proof. repeat split; intros; discriminate. Qed.

Lemma invariant_set_error (message : string) (s : CalculatorState) :
  invariant (_set_error message s).
Proof. repeat split. Qed.

Lemma invariant_intro (ts : list string) (cur : string) (ow : bool)
      (err : option string) :
  pairs ts = true -> truthy err = false -> over_alphabet cur = true ->
  invariant (mkState ts cur ow err).
Proof.
  intros Hp He Hc.
  split; [exact Hp | split; [simpl; intros H; congruence | exact Hc]].
Qed.

Lemma reset_cases (s : CalculatorState) :
  invariant s ->
  truthy (error (_reset_on_error s)) = false /\
  invariant (_reset_on_error s) /\
  tokens (_reset_on_error s) = tokens s /\
  (truthy (error s) = false -> _reset_on_error s = s).
Proof.
  intros (Hp & He & Hc). unfold _reset_on_error.
  destruct (truthy (error s)) eqn:E.
  - destruct (He eq_refl) as (Ht & _). rewrite Ht.
    repeat split; auto; try discriminate.
  - repeat split; auto; congruence.
Qed.

Lemma reset_idempotent (s : CalculatorState) :
  _reset_on_error (_reset_on_error s) = _reset_on_error s.
Proof.
  unfold _reset_on_error.
  destruct (truthy (error s)) eqn:E; [reflexivity | now rewrite E].
Qed.

Ltac reset_state s :=
  let s1 := fresh "s1" in
  let Herr := fresh "Herr" in
  let Hp := fresh "Hp" in
  let Hc := fresh "Hc" in
  let Ht := fresh "Htok" in
  match goal with
  | H : invariant s |- _ =>
      destruct (reset_cases s H) as (Herr & (Hp & _ & Hc) & Ht & _);
      set (s1 := _reset_on_error s) in *
  end.

(** [_apply_operator] under the invariant: the number is appended, then
    the operator. *)
Lemma apply_operator_pairs (operator : string) (s : CalculatorState) :
  pairs (tokens s) = true -> truthy (error s) = false ->
  _apply_operator operator s =
  match _sanitize_number (current s) with
  | Raise e => (Raise e, s)
  | Ret value =>
      (Ret tt, mkState (tokens s ++ [value; operator]) (current s) true (error s))
  end.
Proof.
  intros Hp He. unfold _apply_operator, _reset_on_error, _commit_current.
  rewrite He. destruct (_sanitize_number (current s)) as [v | e] eqn:E;
    [| destruct s; reflexivity].
  pose proof (plain_not_operator v (sanitize_plain _ _ E)) as Hv.
  assert (Hts : match tokens s with
                | [] => [v]
                | _ :: _ => if ends_with_operator (tokens s)
                            then (tokens s ++ [v])%list
                            else set_last (tokens s) v
                end = (tokens s ++ [v])%list).
  { destruct (tokens s) as [| a r] eqn:Et; [reflexivity |].
    rewrite pairs_ends; [reflexivity | assumption | discriminate]. }
  rewrite Hts. cbn [tokens current error overwrite].
  rewrite ends_with_operator_snoc, Hv, <- app_assoc. reflexivity.
Qed.

Lemma invariant_apply_operator (operator : string) (s : CalculatorState) :
  in_OPERATORS operator = true -> invariant s ->
  invariant (snd (_apply_operator operator s)).
Proof.
  intros Hop H.
  destruct (reset_cases s H) as (Herr & H1 & _).
  assert (E : _apply_operator operator s =
              _apply_operator operator (_reset_on_error s)).
  { unfold _apply_operator. now rewrite reset_idempotent. }
  rewrite E. pose proof H1 as (Hp & He & Hc).
  rewrite apply_operator_pairs by assumption.
  destruct (_sanitize_number (current (_reset_on_error s))) as [v | e] eqn:Es;
    simpl.
  - apply invariant_intro; auto.
    apply pairs_snoc; auto. now apply sanitize_plain in Es.
  - exact H1.
Qed.

Lemma invariant_input_digit (digit : string) (s : CalculatorState) :
  all_digits digit = true -> invariant s -> invariant (_input_digit digit s).
Proof.
  intros Hd H. unfold _input_digit. reset_state s.
  apply all_digits_over_alphabet in Hd.
  destruct (overwrite s1); [now apply invariant_intro |].
  destruct (current s1 =? "0")%string; apply invariant_intro; auto.
  rewrite over_alphabet_app, Hc, Hd. reflexivity.
Qed.

Lemma invariant_input_decimal_point (s : CalculatorState) :
  invariant s -> invariant (_input_decimal_point s).
Proof.
  intros H. unfold _input_decimal_point. reset_state s.
  destruct (overwrite s1) eqn:Eo; [now apply invariant_intro |].
  destruct (negb (contains_char "."%char (current s1))).
  - apply invariant_intro; auto. rewrite over_alphabet_app, Hc. reflexivity.
  - destruct s1 as [ts cur ow err]. now apply invariant_intro.
Qed.

Lemma invariant_text (s : CalculatorState) (r : res string) (ow : bool) :
  (forall text, r = Ret text -> is_plain_number text = true) ->
  pairs (tokens s) = true -> truthy (error s) = false ->
  over_alphabet (current s) = true ->
  invariant (snd (match r with
                  | Raise e => (Raise e, s)
                  | Ret text => (Ret tt, mkState (tokens s) text ow (error s))
                  end)).
Proof.
  intros Hr Hp He Hc. destruct r as [text | e]; simpl.
  - apply invariant_intro; auto. apply plain_over_alphabet. now apply Hr.
  - split; [exact Hp | split; [intros H; congruence | exact Hc]].
Qed.

Lemma invariant_calculate_result (s : CalculatorState) :
  invariant s -> invariant (snd (_calculate_result s)).
Proof.
  intros H. unfold _calculate_result. reset_state s.
  assert (Hs1 : invariant s1)
    by (split; [exact Hp | split; [intros H'; congruence | exact Hc]]).
  destruct (tokens s1) as [| t ts] eqn:Et.
  - destruct (_sanitize_number (current s1)) as [v | []] eqn:Es; simpl;
      try exact Hs1; try apply invariant_set_error.
    apply invariant_intro; auto.
    apply plain_over_alphabet. now apply sanitize_plain in Es.
  - destruct (evaluation_list s1) as [l | []]; simpl;
      try exact Hs1; try apply invariant_set_error.
    destruct (safe_calculate (String.concat " " l)) as [d | []]; simpl;
      try exact Hs1; try apply invariant_set_error.
    destruct (_format_decimal d) as [text | e] eqn:Ef; simpl; [| exact Hs1].
    apply invariant_intro; auto.
    apply plain_over_alphabet. now apply format_decimal_plain in Ef.
Qed.

Lemma invariant_toggle_sign (s : CalculatorState) :
  invariant s -> invariant (snd (_toggle_sign s)).
Proof.
  intros H. unfold _toggle_sign. reset_state s.
  assert (Hs1 : invariant s1)
    by (split; [exact Hp | split; [intros H'; congruence | exact Hc]]).
  destruct (c <- Dec.of_string (current s1) ;; Dec.mul c minus_one)
    as [v | []]; simpl; try exact Hs1; try apply invariant_set_error.
  apply (invariant_text s1 (_format_decimal v) false); auto.
  intros text. apply format_decimal_plain.
Qed.

Lemma invariant_percent (s : CalculatorState) :
  invariant s -> invariant (snd (_percent s)).
Proof.
  intros H. unfold _percent. reset_state s.
  assert (Hs1 : invariant s1)
    by (split; [exact Hp | split; [intros H'; congruence | exact Hc]]).
  destruct (Dec.of_string (current s1)) as [c | []]; simpl;
    try exact Hs1; try apply invariant_set_error.
  match goal with
  | |- context [bind ?m _] =>
      apply (invariant_text s1 (bind m (fun v => _format_decimal v)) false); auto
  end.
  intros text. match goal with |- bind ?m _ = _ -> _ => destruct m end;
    simpl; [apply format_decimal_plain | discriminate].
Qed.

Lemma invariant_backspace (s : CalculatorState) :
  invariant s -> invariant (_backspace s).
Proof.
  intros H. unfold _backspace. reset_state s.
  repeat match goal with
  | |- context [if ?b then _ else _] => destruct b
  end; apply invariant_intro; auto.
  now apply over_alphabet_drop_last.
Qed.

Lemma invariant_clear_entry (s : CalculatorState) :
  invariant s -> invariant (_clear_entry s).
Proof.
  intros H. unfold _clear_entry. reset_state s. now apply invariant_intro.
Qed.

Lemma invariant_after (command : string) (s : CalculatorState) :
  invariant s -> invariant (after command s).
Proof.
  intros H. unfold after, process.
  assert (G : invariant (snd (dispatch command s))).
  { unfold dispatch.
    destruct (is_substring command "0123456789") eqn:Ed.
    { apply invariant_input_digit; auto. now apply digit_command_digits. }
    destruct (command =? ".")%string.
    { now apply invariant_input_decimal_point. }
    destruct (in_OPERATORS command) eqn:Eo.
    { now apply invariant_apply_operator. }
    destruct (dispatcher command) as [[] |]; simpl; auto.
    - apply invariant_fresh.
    - now apply invariant_clear_entry.
    - now apply invariant_calculate_result.
    - now apply invariant_percent.
    - now apply invariant_toggle_sign.
    - now apply invariant_backspace. }
  destruct (dispatch command s) as [[[] | e] s']; exact G.
Qed.

Lemma reachable_invariant (s : CalculatorState) : reachable s -> invariant s.
Proof.
  induction 1; [apply invariant_fresh | now apply invariant_after].
Qed.

Lemma reachable_press (commands : list string) (s : CalculatorState) :
  reachable s -> reachable (press commands s).
Proof.
  revert s. induction commands as [| c cs IH]; intros s H; simpl; auto.
  apply IH. now constructor.
Qed.

Lemma pairs_forall (ts : list string) :
  pairs ts = true ->
  Forall (fun t => in_OPERATORS t = true \/ over_alphabet t = true) ts.
Proof.
  induction ts as [| a | a b r IH] using pairs_two_steps; simpl.
  - constructor.
  - discriminate.
  - intros H. apply andb_true_iff in H as [H Hr].
    apply andb_true_iff in H as [Ha Hb].
    constructor; [right; now apply plain_over_alphabet |].
    constructor; [now left | auto].
Qed.

(** The alphabet of the engine: in every reachable state [current] is
    written with digits, the point and the minus sign, and so is every
    token that is not an operator. *)
Lemma reachable_alphabet (s : CalculatorState) :
  reachable s ->
  over_alphabet (current s) = true /\
  Forall (fun t => in_OPERATORS t = true \/ over_alphabet t = true) (tokens s).
Proof.
  intros H. apply reachable_invariant in H as (Hp & _ & Hc).
  split; [exact Hc | now apply pairs_forall].
Qed.

(** ** Token lists, continued *)

Lemma alternating_head (t : string) (r : list string) :
  alternating (t :: r) = true -> is_plain_number t = true.
Proof.
  simpl. destruct r; [auto |].
  intros H. apply andb_true_iff in H as [H _].
  now apply andb_true_iff in H as [H _].
Qed.

Lemma alternating_after_operator (ts pre post : list string) (a b : string) :
  alternating ts = true -> ts = (pre ++ a :: b :: post)%list ->
  in_OPERATORS a = true -> is_plain_number b = true.
Proof.
  revert pre. induction ts as [| n | n o r IH] using pairs_two_steps;
    intros pre Halt E Ha.
  - destruct pre; discriminate.
  - destruct pre as [| x [| y pre]]; discriminate.
  - simpl in Halt. apply andb_true_iff in Halt as [Hno Hr].
    apply andb_true_iff in Hno as [Hn Ho].
    destruct pre as [| x [| y pre]]; simpl in E.
    + injection E as <- _ _. apply plain_not_operator in Hn. congruence.
    + injection E as _ <- ->. now apply alternating_head in Hr.
    + injection E as _ _ ->. now apply (IH pre).
Qed.

Lemma concat_snoc (sep x : string) (ts : list string) :
  ts <> [] ->
  String.concat sep (ts ++ [x]) = (String.concat sep ts ++ sep) ++ x.
Proof.
  induction ts as [| a ts IH]; [congruence |]. intros _.
  destruct ts as [| b ts].
  - simpl. now rewrite append_assoc.
  - change (String.concat sep ((a :: b :: ts) ++ [x]))
      with (a ++ sep ++ String.concat sep ((b :: ts) ++ [x])).
    rewrite IH by discriminate.
    change (String.concat sep (a :: b :: ts))
      with (a ++ sep ++ String.concat sep (b :: ts)).
    now rewrite !append_assoc.
Qed.

Lemma second_to_last_snoc (pre : list string) (b o : string) :
  second_to_last (pre ++ [b; o]) = b.
Proof. unfold second_to_last. now rewrite rev_app_distr. Qed.

Lemma of_string_raises (text : string) (e : exn) :
  Dec.of_string text = Raise e -> e = InvalidOperation.
Proof.
  unfold Dec.of_string. destruct (Dec.split_sign text) as [sg body].
  destruct (span_digits body) as [ip r1].
  destruct (match r1 with
            | String "."%char r => span_digits r
            | _ => (EmptyString, r1)
            end) as [fp r2].
  destruct (ip ++ fp); [congruence |].
  destruct (Dec.parse_exponent r2); congruence.
Qed.

Lemma percent_base_snoc (pre : list string) (b o : string) :
  percent_base (pre ++ [b; o]) =
  Ret (match Dec.of_string b with Ret v => v | Raise _ => zero end).
Proof.
  unfold percent_base. rewrite second_to_last_snoc.
  destruct (Dec.of_string b) as [v | e] eqn:E; [reflexivity |].
  now rewrite (of_string_raises _ _ E).
Qed.


(** ** Counting digits *)

Lemma ndigits_fuel_spec (fuel : nat) (n : Z) :
  0 <= n < 2 ^ Z.of_nat fuel ->
  1 <= ndigits_fuel fuel n /\
  n < 10 ^ ndigits_fuel fuel n /\
  (10 <= n -> 10 ^ (ndigits_fuel fuel n - 1) <= n).
Proof.
  revert n. induction fuel as [| f IH]; intros n Hn.
  - simpl in *. lia.
  - cbn [ndigits_fuel]. destruct (Z.ltb_spec n 10) as [Hlt | Hge].
    + simpl. lia.
    + assert (Hq : 0 <= n / 10 < 2 ^ Z.of_nat f).
      { rewrite Nat2Z.inj_succ, Z.pow_succ_r in Hn by apply Nat2Z.is_nonneg.
        split; [apply Z.div_pos; lia |].
        apply Z.div_lt_upper_bound; lia. }
      destruct (IH _ Hq) as (H1 & H2 & H3).
      pose proof (Z.div_mod n 10 ltac:(lia)) as Hdm.
      pose proof (Z.mod_pos_bound n 10 ltac:(lia)) as Hmod.
      assert (Hm : ndigits_fuel f (n / 10) = 1 \/ 10 <= n / 10).
      { destruct (Z.ltb_spec (n / 10) 10) as [Hs | Hb]; [left | now right].
        destruct f; cbn [ndigits_fuel]; [reflexivity |].
        destruct (Z.ltb_spec (n / 10) 10); [reflexivity | lia]. }
      set (m := ndigits_fuel f (n / 10)) in *.
      replace (1 + m - 1) with m by lia.
      replace (1 + m) with (Z.succ m) by lia.
      rewrite Z.pow_succ_r by lia.
      split; [lia |]. split; [lia |]. intros _.
      destruct Hm as [Hm | Hb].
      * rewrite Hm. simpl. lia.
      * specialize (H3 Hb).
        replace m with (Z.succ (m - 1)) by lia.
        rewrite Z.pow_succ_r by lia. lia.
Qed.

Lemma ndigits_spec (n : Z) :
  0 <= n ->
  1 <= ndigits n /\ n < 10 ^ ndigits n /\ (10 <= n -> 10 ^ (ndigits n - 1) <= n).
Proof.
  intros Hn. apply ndigits_fuel_spec. split; [assumption |].
  rewrite Nat2Z.inj_succ, Z2Nat.id by apply Z.log2_nonneg.
  destruct (Z.eq_dec n 0) as [-> | Hz]; [reflexivity |].
  apply Z.log2_spec. lia.
Qed.

Lemma ndigits_small (n : Z) : 0 <= n < 10 -> ndigits n = 1.
Proof.
  intros H. unfold ndigits. cbn [ndigits_fuel].
  destruct (Z.ltb_spec n 10); [reflexivity | lia].
Qed.

Lemma ndigits_le (n m : Z) : 0 <= n < 10 ^ m -> 1 <= m -> ndigits n <= m.
Proof.
  intros Hn Hm. destruct (ndigits_spec n (proj1 Hn)) as (H1 & H2 & H3).
  destruct (Z.lt_ge_cases n 10) as [Hs | Hb].
  - rewrite ndigits_small by lia. exact Hm.
  - specialize (H3 Hb).
    destruct (Z.le_gt_cases (ndigits n) m) as [H | H]; [assumption | exfalso].
    assert (10 ^ m <= 10 ^ (ndigits n - 1)) by (apply Z.pow_le_mono_r; lia).
    lia.
Qed.

Lemma ndigits_pos (n : Z) : 1 <= ndigits n.
Proof.
  unfold ndigits. cbn [ndigits_fuel]. destruct (n <? 10); [lia |].
  generalize (Z.to_nat (Z.log2 n)) (n / 10). intros f.
  induction f as [| f IH]; intros q; cbn [ndigits_fuel]; [lia |].
  destruct (q <? 10); [lia |]. specialize (IH (q / 10)). lia.
Qed.

(** ** Rounding to the context *)

Lemma pow10_pos (k : Z) : 0 < 10 ^ k \/ k < 0.
Proof.
  destruct (Z.lt_ge_cases k 0); [now right | left].
  apply Z.pow_pos_nonneg; lia.
Qed.

Lemma round_up_nearest (c k : Z) :
  0 <= c -> 0 <= k ->
  (Dec.round_up c k = true -> nearest c k (c / 10 ^ k + 1)) /\
  (Dec.round_up c k = false -> nearest c k (c / 10 ^ k)).
Proof.
  intros Hc Hk. unfold Dec.round_up, nearest.
  assert (Hp : 0 < 10 ^ k) by (apply Z.pow_pos_nonneg; lia).
  pose proof (Z.div_mod c (10 ^ k) ltac:(lia)) as Hdm.
  pose proof (Z.mod_pos_bound c (10 ^ k) Hp) as Hmod.
  set (p := 10 ^ k) in *. set (q := c / p) in *. set (r := c mod p) in *.
  split; intros H.
  - apply orb_true_iff in H as [H | H].
    + apply Z.gtb_lt in H. lia.
    + apply andb_true_iff in H as [H _]. apply Z.eqb_eq in H. lia.
  - apply orb_false_iff in H as [H _].
    rewrite Z.gtb_ltb in H. apply Z.ltb_ge in H. lia.
Qed.

Lemma nearest_coarser (c k c' : Z) :
  0 <= k -> nearest c k (10 * c') -> nearest c (k + 1) c'.
Proof.
  unfold nearest. intros Hk H.
  assert (Hp : 0 < 10 ^ k) by (apply Z.pow_pos_nonneg; lia).
  replace (k + 1) with (Z.succ k) by lia. rewrite Z.pow_succ_r by lia.
  replace (c' * (10 * 10 ^ k)) with (10 * c' * 10 ^ k) by ring. lia.
Qed.

Ltac in_range :=
  match goal with
  | |- (if ?b then Raise _ else _) = _ -> _ => destruct b; [discriminate |]
  end.

Ltac side_goals :=
  repeat split;
  try reflexivity; try lia; try (intros; lia);
  try (change (ndigits 0) with 1; lia).

Lemma fix_rounds (d r : Decimal) :
  wf d -> Dec._fix d = Ret r ->
  rounds_to (Dec.sign d) (Dec.coeff d) (Dec.exp d) r.
Proof.
  destruct d as [sg c e]. unfold wf, Dec._fix, Dec.is_zero, rounds_to.
  cbn [Dec.sign Dec.coeff Dec.exp]. intros Hc.
  unfold Dec.Etop, Dec.Etiny, Dec.Emax, Dec.Emin, Dec.prec.
  destruct (Z.eqb_spec c 0) as [-> | Hz].
  { intros [= <-]. cbn [Dec.sign Dec.coeff Dec.exp]. side_goals. }
  destruct (ndigits_spec c Hc) as (Hn1 & Hn2 & _).
  set (n := ndigits c) in *.
  destruct (Z.gtb_spec (n + e - 28) (999999 - 28 + 1)) as [| Hov];
    [discriminate |].
  set (em := if n + e - 28 <? -999999 - 28 + 1
             then -999999 - 28 + 1 else n + e - 28).
  assert (Hem : em = Z.max (n + e - 28) (-1000026)).
  { unfold em. destruct (Z.ltb_spec (n + e - 28) (-999999 - 28 + 1)); lia. }
  clearbody em.
  destruct (Z.ltb_spec e em) as [Hlt | Hge].
  - (* digits are dropped *)
    destruct (Z.ltb_spec (n + e - em) 0) as [Hneg | Hdig].
    + (* fewer digits than the exponent leaves room for: the value is
         below half a unit of [10^em] *)
      change (Dec.round_up 1 1) with false. cbn [andb].
      change (1 / 10 ^ 1) with 0.
      in_range. intros [= <-].
      cbn [Dec.sign Dec.coeff Dec.exp].
      assert (H : 10 ^ Z.succ n <= 10 ^ (em - e))
        by (apply Z.pow_le_mono_r; lia).
      rewrite Z.pow_succ_r in H by lia.
      side_goals. unfold nearest. lia.
    + set (k := em - e) in *.
      assert (Hk : 1 <= k) by (unfold k; lia).
      assert (Hp : 0 < 10 ^ k) by (apply Z.pow_pos_nonneg; lia).
      assert (Hkept : 0 <= c / 10 ^ k < 10 ^ 28).
      { split; [apply Z.div_pos; lia |].
        apply Z.div_lt_upper_bound; [lia |].
        rewrite <- Z.pow_add_r by lia.
        apply Z.lt_le_trans with (10 ^ n); [assumption |].
        apply Z.pow_le_mono_r; lia. }
      destruct (round_up_nearest c k Hc ltac:(lia)) as [Hup Hdown].
      set (kept := c / 10 ^ k) in *.
      destruct (Dec.round_up c k) eqn:Eup; cbn [andb].
      * specialize (Hup eq_refl).
        destruct (Z.gtb_spec (ndigits (kept + 1)) 28) as [Hg | Hg].
        -- (* the increment carried into a 29th digit *)
           assert (Hk1 : kept + 1 = 10 ^ 28).
           { destruct (Z.eq_dec (kept + 1) (10 ^ 28)) as [E | E]; [exact E |].
             exfalso. assert (ndigits (kept + 1) <= 28)
               by (apply ndigits_le; lia). lia. }
           rewrite Hk1.
           in_range. intros [= <-].
           cbn [Dec.sign Dec.coeff Dec.exp].
           assert (Hnear : nearest c (em + 1 - e) (10 ^ 28 / 10)).
           { replace (em + 1 - e) with (k + 1) by (unfold k; lia).
             apply nearest_coarser; [lia |].
             replace (10 * (10 ^ 28 / 10)) with (kept + 1)
               by (rewrite Hk1; reflexivity).
             exact Hup. }
           side_goals; try exact Hnear; vm_compute; discriminate.
        -- in_range. intros [= <-].
           cbn [Dec.sign Dec.coeff Dec.exp].
           side_goals. exact Hup.
      * specialize (Hdown eq_refl).
        in_range. intros [= <-].
        cbn [Dec.sign Dec.coeff Dec.exp].
        assert (ndigits kept <= 28) by (apply ndigits_le; lia).
        side_goals. exact Hdown.
  - intros [= <-]. cbn [Dec.sign Dec.coeff Dec.exp].
    side_goals. unfold nearest. rewrite Z.sub_diag.
    change (10 ^ 0) with 1. lia.
Qed.

Lemma fix_wf (d r : Decimal) :
  wf d -> Dec._fix d = Ret r -> wf r /\ ndigits (Dec.coeff r) <= Dec.prec.
Proof.
  intros Hd H. destruct (fix_rounds d r Hd H) as (_ & H1 & H2 & _). now split.
Qed.

(** ** The four operations *)

Lemma mul_rounds (x y r : Decimal) :
  wf x -> wf y -> Dec.mul x y = Ret r ->
  rounds_to (xorb (Dec.sign x) (Dec.sign y)) (Dec.coeff x * Dec.coeff y)
            (Dec.exp x + Dec.exp y) r.
Proof.
  intros Hx Hy H. apply fix_rounds in H; [exact H |].
  unfold wf in *. simpl. lia.
Qed.

Lemma add_rounds (x y r : Decimal) :
  Dec.add x y = Ret r ->
  let e := Z.min (Dec.exp x) (Dec.exp y) in
  let v := Dec.signed x * 10 ^ (Dec.exp x - e) +
           Dec.signed y * 10 ^ (Dec.exp y - e) in
  rounds_to (if v =? 0 then Dec.sign x && Dec.sign y else v <? 0) (Z.abs v) e r.
Proof.
  intros H. cbv zeta. unfold Dec.add in H.
  set (e := Z.min (Dec.exp x) (Dec.exp y)) in *.
  set (v := Dec.signed x * 10 ^ (Dec.exp x - e) +
            Dec.signed y * 10 ^ (Dec.exp y - e)) in *.
  destruct (Z.eqb_spec v 0) as [E | E].
  - rewrite E. apply fix_rounds in H; [exact H | unfold wf; simpl; lia].
  - apply fix_rounds in H; [exact H | unfold wf; simpl; lia].
Qed.

Lemma to_ideal_spec (fuel : nat) (c e c' e' : Z) :
  Dec.to_ideal fuel c e = (c', e') ->
  exists j, 0 <= j /\ e' = e + j /\ c = c' * 10 ^ j /\ (0 <= c -> 0 <= c').
Proof.
  revert c e. induction fuel as [| f IH]; intros c e; cbn [Dec.to_ideal].
  - intros [= <- <-]. exists 0. rewrite Z.pow_0_r. repeat split; lia.
  - destruct (Z.eqb_spec (c mod 10) 0) as [Hm | Hm].
    + intros H. destruct (IH _ _ H) as (j & Hj & -> & Hc & Hpos).
      exists (j + 1). rewrite Z.pow_add_r, Z.pow_1_r by lia.
      pose proof (Z.div_mod c 10 ltac:(lia)) as Hdm.
      repeat split; lia.
    + intros [= <- <-]. exists 0. rewrite Z.pow_0_r. repeat split; lia.
Qed.

Lemma scale_invariance (u v w a b a0 b0 : Z) :
  0 <= a -> 0 <= b -> 0 <= a0 -> 0 <= b0 -> a - b = a0 - b0 ->
  2 * Z.abs (u * 10 ^ a0 - w * 10 ^ b0) <= v * 10 ^ b0 ->
  2 * Z.abs (u * 10 ^ a - w * 10 ^ b) <= v * 10 ^ b.
Proof.
  intros Ha Hb Ha0 Hb0 Hd H.
  destruct (Z.le_ge_cases a0 a) as [Hle | Hle].
  - set (m := a - a0).
    assert (Hm : 0 < 10 ^ m) by (apply Z.pow_pos_nonneg; unfold m; lia).
    replace a with (a0 + m) by (unfold m; lia).
    replace b with (b0 + m) by (unfold m; lia).
    rewrite !Z.pow_add_r by (unfold m; lia).
    replace (u * (10 ^ a0 * 10 ^ m) - w * (10 ^ b0 * 10 ^ m))
      with ((u * 10 ^ a0 - w * 10 ^ b0) * 10 ^ m) by ring.
    rewrite Z.abs_mul, (Z.abs_eq (10 ^ m)) by lia.
    replace (v * (10 ^ b0 * 10 ^ m)) with (v * 10 ^ b0 * 10 ^ m) by ring.
    rewrite Z.mul_assoc. apply Z.mul_le_mono_nonneg_r; lia.
  - set (m := a0 - a).
    assert (Hm : 0 < 10 ^ m) by (apply Z.pow_pos_nonneg; unfold m; lia).
    replace a0 with (a + m) in H by (unfold m; lia).
    replace b0 with (b + m) in H by (unfold m; lia).
    rewrite !Z.pow_add_r in H by (unfold m; lia).
    replace (u * (10 ^ a * 10 ^ m) - w * (10 ^ b * 10 ^ m))
      with ((u * 10 ^ a - w * 10 ^ b) * 10 ^ m) in H by ring.
    rewrite Z.abs_mul, (Z.abs_eq (10 ^ m)) in H by lia.
    replace (v * (10 ^ b * 10 ^ m)) with (v * 10 ^ b * 10 ^ m) in H by ring.
    rewrite Z.mul_assoc in H. apply Z.mul_le_mono_pos_r in H; assumption.
Qed.

(** The quotient digit rule of [__truediv__]: an inexact quotient whose
    last digit is 0 or 5 is nudged upwards, so that rounding it decides as
    rounding the exact quotient would. *)
Lemma sticky_nearest (q r den K c' : Z) :
  0 <= q -> 0 < r < den -> 1 <= K ->
  nearest (if q mod 5 =? 0 then q + 1 else q) K c' ->
  2 * Z.abs (q * den + r - c' * 10 ^ K * den) <= 10 ^ K * den.
Proof.
  intros Hq Hr HK. unfold nearest.
  replace K with (Z.succ (K - 1)) by lia. rewrite Z.pow_succ_r by lia.
  assert (HT : 0 < 10 ^ (K - 1)) by (apply Z.pow_pos_nonneg; lia).
  set (T := 10 ^ (K - 1)) in *.
  pose proof (Z.div_mod q 5 ltac:(lia)) as Hdm.
  pose proof (Z.mod_pos_bound q 5 ltac:(lia)) as Hmod.
  set (D := q - c' * (10 * T)).
  destruct (Z.eqb_spec (q mod 5) 0) as [E | E]; intros H.
  - assert (HD : - (5 * T) <= D <= 5 * T - 1).
    { unfold D. split; [| lia].
      destruct (Z.eq_dec (q + 1 - c' * (10 * T)) (- (5 * T))) as [E1 | E1];
        [| lia].
      exfalso. set (cT := c' * T) in *.
      replace (c' * (10 * T)) with (10 * cT) in E1 by (unfold cT; ring). lia. }
    assert (H1 : - (5 * T) * den <= D * den) by (apply Z.mul_le_mono_nonneg_r; lia).
    assert (H2 : D * den <= (5 * T - 1) * den) by (apply Z.mul_le_mono_nonneg_r; lia).
    replace (q * den + r - c' * (10 * T) * den) with (D * den + r)
      by (unfold D; ring). lia.
  - assert (HD : - (5 * T) + 1 <= D <= 5 * T - 1).
    { unfold D. set (cT := c' * T) in *.
      replace (c' * (10 * T)) with (10 * cT) in * by (unfold cT; ring). lia. }
    assert (H1 : (- (5 * T) + 1) * den <= D * den)
      by (apply Z.mul_le_mono_nonneg_r; lia).
    assert (H2 : D * den <= (5 * T - 1) * den) by (apply Z.mul_le_mono_nonneg_r; lia).
    replace (q * den + r - c' * (10 * T) * den) with (D * den + r)
      by (unfold D; ring). lia.
Qed.

Lemma ndigits_lower (c : Z) : 0 < c -> 10 ^ (ndigits c - 1) <= c.
Proof.
  intros Hc. destruct (Z.lt_ge_cases c 10) as [Hs | Hb].
  - rewrite ndigits_small by lia. simpl. lia.
  - now apply ndigits_spec; [lia |].
Qed.

Lemma quotient_from_scaled (cx cy shift K c' a b : Z) :
  let num := if 0 <=? shift then cx * 10 ^ shift else cx in
  let den := if 0 <=? shift then cy else cy * 10 ^ (- shift) in
  0 <= K ->
  2 * Z.abs (num - c' * 10 ^ K * den) <= 10 ^ K * den ->
  0 <= a -> 0 <= b -> a - b = shift - K ->
  2 * Z.abs (cx * 10 ^ a - c' * cy * 10 ^ b) <= cy * 10 ^ b.
Proof.
  cbv zeta. intros HK H Ha Hb Hd.
  destruct (Z.leb_spec 0 shift) as [Hs | Hs].
  - apply (scale_invariance cx cy (c' * cy) a b shift K); lia.
  - apply (scale_invariance cx cy (c' * cy) a b 0 (K - shift)); try lia.
    replace (K - shift) with (K + - shift) by lia.
    rewrite Z.pow_add_r, Z.pow_0_r by lia.
    replace (cx * 1) with cx by ring.
    replace (c' * cy * (10 ^ K * 10 ^ (- shift)))
      with (c' * 10 ^ K * (cy * 10 ^ (- shift))) by ring.
    replace (cy * (10 ^ K * 10 ^ (- shift)))
      with (10 ^ K * (cy * 10 ^ (- shift))) by ring.
    exact H.
Qed.

(** The quotient computed by [__truediv__] has more than [prec] digits. *)
Lemma quotient_long (cx cy : Z) :
  0 < cx -> 0 < cy ->
  let shift := ndigits cy - ndigits cx + 28 + 1 in
  let num := if 0 <=? shift then cx * 10 ^ shift else cx in
  let den := if 0 <=? shift then cy else cy * 10 ^ (- shift) in
  0 < den /\ 10 ^ 28 <= num / den.
Proof.
  intros Hx Hy shift num den.
  pose proof (ndigits_lower cx Hx) as Hlx.
  destruct (ndigits_spec cy ltac:(lia)) as (Hy1 & Hy2 & _).
  destruct (ndigits_spec cx ltac:(lia)) as (Hx1 & _).
  assert (Hden : 0 < den).
  { unfold den. destruct (Z.leb_spec 0 shift); [lia |].
    apply Z.mul_pos_pos; [lia |]. apply Z.pow_pos_nonneg; lia. }
  split; [exact Hden |].
  apply Z.div_le_lower_bound; [exact Hden |].
  unfold num, den. destruct (Z.leb_spec 0 shift) as [Hs | Hs].
  - apply Z.le_trans with (10 ^ ndigits cy * 10 ^ 28).
    + apply Z.mul_le_mono_nonneg_r; lia.
    + rewrite <- Z.pow_add_r by lia.
      replace (ndigits cy + 28) with ((ndigits cx - 1) + shift)
        by (unfold shift; lia).
      rewrite Z.pow_add_r by lia.
      apply Z.mul_le_mono_nonneg_r; [| exact Hlx].
      apply Z.pow_nonneg; lia.
  - apply Z.le_trans with (10 ^ (ndigits cx - 1)); [| exact Hlx].
    replace (ndigits cx - 1) with (ndigits cy + - shift + 28)
      by (unfold shift; lia).
    rewrite !Z.pow_add_r by lia.
    assert (Hp : 0 < 10 ^ (- shift)) by (apply Z.pow_pos_nonneg; lia).
    replace (cy * 10 ^ (- shift) * 10 ^ 28)
      with (cy * (10 ^ (- shift) * 10 ^ 28)) by ring.
    replace (10 ^ ndigits cy * 10 ^ (- shift) * 10 ^ 28)
      with (10 ^ ndigits cy * (10 ^ (- shift) * 10 ^ 28)) by ring.
    apply Z.mul_le_mono_nonneg_r; lia.
Qed.

Lemma div_rounds (x y r : Decimal) :
  wf x -> wf y -> Dec.div x y = Ret r ->
  Dec.sign r = xorb (Dec.sign x) (Dec.sign y) /\
  0 <= Dec.coeff r /\ ndigits (Dec.coeff r) <= Dec.prec /\
  quotient_nearest x y r.
Proof.
  destruct x as [sx cx ex], y as [sy cy ey].
  unfold wf, Dec.div, Dec.is_zero, quotient_nearest.
  cbn [Dec.sign Dec.coeff Dec.exp]. intros Hx Hy.
  destruct (Z.eqb_spec cy 0) as [| Hy0];
    [destruct (cx =? 0); discriminate |].
  destruct (Z.eqb_spec cx 0) as [-> | Hx0].
  { intros H. apply fix_rounds in H; [| unfold wf; simpl; lia].
    destruct H as (Hs & Hc & Hn & Hz & _). cbn in Hs, Hz.
    rewrite (Hz eq_refl) in *.
    split; [assumption |]. split; [lia |]. split; [exact Hn |].
    intros a b Ha Hb _. simpl.
    assert (0 < 10 ^ b) by (apply Z.pow_pos_nonneg; lia). nia. }
  unfold Dec.prec.
  destruct (quotient_long cx cy ltac:(lia) ltac:(lia)) as [Hden Hq].
  cbv zeta in Hden, Hq.
  set (shift := ndigits cy - ndigits cx + 28 + 1) in *.
  set (num := if 0 <=? shift then cx * 10 ^ shift else cx) in *.
  set (den := if 0 <=? shift then cy else cy * 10 ^ (- shift)) in *.
  pose proof (Z.div_mod num den ltac:(lia)) as Hdm.
  pose proof (Z.mod_pos_bound num den Hden) as Hmod.
  set (q := num / den) in *. set (rem := num mod den) in *.
  set (e := ex - ey - shift).
  assert (Hgoal : forall c' er sg',
    e <= er -> 0 <= c' -> ndigits c' <= 28 ->
    2 * Z.abs (num - c' * 10 ^ (er - e) * den) <= 10 ^ (er - e) * den ->
    sg' = xorb sx sy ->
    sg' = xorb sx sy /\ 0 <= c' /\ ndigits c' <= 28 /\
    forall a b, 0 <= a -> 0 <= b -> a - b = ex - ey - er ->
      2 * Z.abs (cx * 10 ^ a - c' * cy * 10 ^ b) <= cy * 10 ^ b).
  { intros c' er sg' He Hc Hn H Hs. repeat split; try assumption.
    intros a b Ha Hb Hd.
    apply (quotient_from_scaled cx cy shift (er - e) c' a b);
      try assumption; unfold e in *; lia. }
  destruct (Z.eqb_spec rem 0) as [Hr | Hr].
  - destruct (Dec.to_ideal (Z.to_nat (ex - ey - e)) q e) as [q' e'] eqn:Ei.
    apply to_ideal_spec in Ei as (j & Hj & -> & Hqq & Hpos).
    intros H. apply fix_rounds in H; [| unfold wf; simpl; lia].
    destruct H as (Hs & Hc & Hn & _ & H). cbn in Hs, H.
    assert (Hq' : q' <> 0) by (intros ->; lia).
    destruct (H Hq') as (He & Hnear & _). clear H.
    destruct r as [sr cr er]. cbn [Dec.sign Dec.coeff Dec.exp] in *.
    apply Hgoal; try assumption; try lia.
    unfold nearest in Hnear.
    replace (er - e) with ((er - (e + j)) + j) by lia.
    rewrite Z.pow_add_r by lia.
    assert (Hpj : 0 < 10 ^ j) by (apply Z.pow_pos_nonneg; lia).
    set (P := 10 ^ (er - (e + j))) in *.
    replace (num - cr * (P * 10 ^ j) * den)
      with ((q' - cr * P) * (10 ^ j * den)) by (rewrite Hdm, Hqq, Hr; ring).
    rewrite Z.abs_mul, (Z.abs_eq (10 ^ j * den)) by nia.
    replace (P * 10 ^ j * den) with (P * (10 ^ j * den)) by ring.
    rewrite Z.mul_assoc. apply Z.mul_le_mono_nonneg_r; [nia | exact Hnear].
  - set (q1 := if q mod 5 =? 0 then q + 1 else q).
    assert (Hq1 : q <= q1) by (unfold q1; destruct (q mod 5 =? 0); lia).
    intros H. apply fix_rounds in H; [| unfold wf; simpl; lia].
    destruct H as (Hs & Hc & Hn & _ & H). cbn in Hs, H.
    destruct (H ltac:(lia)) as (He & Hnear & _). clear H.
    destruct r as [sr cr er]. cbn [Dec.sign Dec.coeff Dec.exp] in *.
    unfold Dec.prec in Hn.
    assert (HK : 1 <= er - e).
    { destruct (Z.eq_dec er e) as [-> | Hne]; [exfalso | lia].
      unfold nearest in Hnear. rewrite Z.sub_diag in Hnear.
      change (10 ^ 0) with 1 in Hnear.
      destruct (ndigits_spec cr Hc) as (_ & Hlt & _).
      assert (10 ^ ndigits cr <= 10 ^ 28) by (apply Z.pow_le_mono_r; lia).
      lia. }
    apply Hgoal; try assumption; try lia.
    rewrite Hdm. rewrite (Z.mul_comm den q).
    apply sticky_nearest; try assumption; lia.
Qed.

Lemma fix_returns (d : Decimal) :
  ndigits (Dec.coeff d) + Dec.exp d <= Dec.Emax -> exists r, Dec._fix d = Ret r.
Proof.
  destruct d as [sg c e]. unfold Dec._fix, Dec.is_zero.
  cbn [Dec.sign Dec.coeff Dec.exp].
  unfold Dec.Etop, Dec.Etiny, Dec.Emax, Dec.Emin, Dec.prec. intros H.
  destruct (c =? 0); [eauto |].
  destruct (Z.gtb_spec (ndigits c + e - 28) (999999 - 28 + 1)); [lia |].
  set (em := if ndigits c + e - 28 <? -999999 - 28 + 1
             then -999999 - 28 + 1 else ndigits c + e - 28).
  assert (Hem : em <= 999971).
  { unfold em. destruct (Z.ltb_spec (ndigits c + e - 28) (-999999 - 28 + 1)); lia. }
  clearbody em.
  destruct (e <? em); [| eauto].
  match goal with
  | |- context [if ?g then em + 1 else em] => destruct g
  end.
  - destruct (Z.gtb_spec (em + 1) (999999 - 28 + 1)); [lia | eauto].
  - destruct (Z.gtb_spec em (999999 - 28 + 1)); [lia | eauto].
Qed.

(** ** Nearest among the decimals of the context *)

(** On a grid of step [G], a point within half a step of [T / den] is at
    least as near to it as any other point of the grid. *)
Lemma grid_nearest (T den G kr kb : Z) :
  0 < den -> 0 < G ->
  2 * Z.abs (T - kr * G * den) <= G * den ->
  Z.abs (T - kr * G * den) <= Z.abs (T - kb * G * den).
Proof.
  intros Hden HG H.
  assert (HW : 0 < G * den) by (apply Z.mul_pos_pos; assumption).
  set (W := G * den) in *.
  replace (kr * G * den) with (kr * W) in * by (unfold W; ring).
  replace (kb * G * den) with (kb * W) by (unfold W; ring).
  destruct (Z.eq_dec kb kr) as [-> | Hne]; [lia |].
  destruct (Z.lt_ge_cases kb kr) as [Hlt | Hge].
  - assert (kb * W <= (kr - 1) * W) by (apply Z.mul_le_mono_nonneg_r; lia).
    replace ((kr - 1) * W) with (kr * W - W) in * by ring. lia.
  - assert ((kr + 1) * W <= kb * W) by (apply Z.mul_le_mono_nonneg_r; lia).
    replace ((kr + 1) * W) with (kr * W + W) in * by ring. lia.
Qed.

(** ... and than any point below a grid point that is itself below
    [T / den]. *)
Lemma grid_below (T den G kr kp B : Z) :
  0 < den -> 0 < G ->
  2 * Z.abs (T - kr * G * den) <= G * den ->
  kp * G * den <= T -> B < kp * G ->
  Z.abs (T - kr * G * den) <= Z.abs (T - B * den).
Proof.
  intros Hden HG H HP HB.
  pose proof (grid_nearest T den G kr kp Hden HG H) as H1.
  assert (B * den < kp * G * den) by (apply Z.mul_lt_mono_pos_r; assumption).
  lia.
Qed.

Lemma below_pow_prec (c : Z) : 0 <= c -> ndigits c <= Dec.prec -> c < 10 ^ Dec.prec.
Proof.
  intros Hc Hn. destruct (ndigits_spec c Hc) as (_ & H & _).
  apply Z.lt_le_trans with (10 ^ ndigits c); [exact H |].
  apply Z.pow_le_mono_r; lia.
Qed.

(** A value [num / den * 10^e] of [n] digits before the point, rounded on
    the grid [10^Q] of the context to [cr * 10^er]: no decimal of the
    context is nearer. *)
Lemma rounded_none_nearer (num den e n Q cr er m c' e' : Z) :
  0 < den -> 1 <= n ->
  Q = Z.max (n + e - Dec.prec) Dec.Etiny ->
  e < Q -> Q <= er ->
  10 ^ (n - 1) * den <= num ->
  2 * Z.abs (num - cr * 10 ^ (er - Q) * 10 ^ (Q - e) * den) <= 10 ^ (Q - e) * den ->
  m <= e -> m <= e' ->
  0 <= c' -> ndigits c' <= Dec.prec -> Dec.Etiny <= e' ->
  Z.abs (num * 10 ^ (e - m) - cr * den * 10 ^ (er - m)) <=
  Z.abs (num * 10 ^ (e - m) - c' * den * 10 ^ (e' - m)).
Proof.
  intros Hden Hn HQ HeQ HQr Hlow Hnear Hme Hme' Hc' Hd' Ht'.
  assert (Hs : 0 < 10 ^ (e - m)) by (apply Z.pow_pos_nonneg; lia).
  assert (HG : 0 < 10 ^ (Q - m)) by (apply Z.pow_pos_nonneg; lia).
  assert (EG : 10 ^ (Q - m) = 10 ^ (Q - e) * 10 ^ (e - m))
    by (rewrite <- Z.pow_add_r by lia; f_equal; lia).
  assert (Er : 10 ^ (er - m) = 10 ^ (er - Q) * 10 ^ (Q - m))
    by (rewrite <- Z.pow_add_r by lia; f_equal; lia).
  set (s := 10 ^ (e - m)) in *. set (G := 10 ^ (Q - m)) in *.
  set (kr := cr * 10 ^ (er - Q)) in *.
  replace (cr * den * 10 ^ (er - m)) with (kr * G * den)
    by (rewrite Er; unfold kr; ring).
  assert (Hscaled : 2 * Z.abs (num * s - kr * G * den) <= G * den).
  { replace (num * s - kr * G * den)
      with ((num - kr * 10 ^ (Q - e) * den) * s) by (rewrite EG; ring).
    rewrite Z.abs_mul, (Z.abs_eq s) by lia.
    replace (G * den) with (10 ^ (Q - e) * den * s) by (rewrite EG; ring).
    rewrite Z.mul_assoc. apply Z.mul_le_mono_nonneg_r; lia. }
  destruct (Z.le_gt_cases Q e') as [Hge | Hlt].
  - replace (c' * den * 10 ^ (e' - m)) with (c' * 10 ^ (e' - Q) * G * den).
    + now apply grid_nearest.
    + unfold G. replace (e' - m) with ((e' - Q) + (Q - m)) by lia.
      rewrite Z.pow_add_r by lia. ring.
  - assert (EQ : Q = n + e - Dec.prec) by lia.
    replace (c' * den * 10 ^ (e' - m)) with (c' * 10 ^ (e' - m) * den) by ring.
    apply (grid_below (num * s) den G kr (10 ^ (Dec.prec - 1))); try assumption.
    + replace (10 ^ (Dec.prec - 1) * G) with (10 ^ (n - 1) * s).
      * replace (10 ^ (n - 1) * s * den) with (10 ^ (n - 1) * den * s) by ring.
        apply Z.mul_le_mono_nonneg_r; lia.
      * unfold G, s. rewrite <- !Z.pow_add_r by (unfold Dec.prec; lia).
        f_equal. lia.
    + pose proof (below_pow_prec c' Hc' Hd') as Hb.
      assert (Hp : 0 < 10 ^ (e' - m)) by (apply Z.pow_pos_nonneg; lia).
      apply Z.lt_le_trans with (10 ^ Dec.prec * 10 ^ (e' - m)).
      * apply Z.mul_lt_mono_pos_r; assumption.
      * unfold G. rewrite <- !Z.pow_add_r by (unfold Dec.prec; lia).
        apply Z.pow_le_mono_r; unfold Dec.prec; lia.
Qed.

(** Where [_fix] rounds: the grid [10^Q] on which the result lies, and
    the result as a nearest point of that grid. *)
Lemma fix_grid (d r : Decimal) :
  wf d -> Dec.coeff d <> 0 -> Dec._fix d = Ret r ->
  r = d \/
  (let Q := Z.max (ndigits (Dec.coeff d) + Dec.exp d - Dec.prec) Dec.Etiny in
   Dec.exp d < Q /\ Q <= Dec.exp r /\ 0 <= Dec.coeff r /\
   nearest (Dec.coeff d) (Q - Dec.exp d) (Dec.coeff r * 10 ^ (Dec.exp r - Q))).
Proof.
  destruct d as [sg c e]. unfold wf, Dec._fix, Dec.is_zero.
  cbn [Dec.sign Dec.coeff Dec.exp]. intros Hc Hz.
  unfold Dec.Etop, Dec.Etiny, Dec.Emax, Dec.Emin, Dec.prec.
  destruct (Z.eqb_spec c 0) as [| _]; [contradiction |].
  destruct (ndigits_spec c Hc) as (Hn1 & Hn2 & _).
  set (n := ndigits c) in *.
  destruct (Z.gtb_spec (n + e - 28) (999999 - 28 + 1)) as [| Hov];
    [discriminate |].
  set (em := if n + e - 28 <? -999999 - 28 + 1
             then -999999 - 28 + 1 else n + e - 28).
  assert (Hem : em = Z.max (n + e - 28) (-999999 - 28 + 1)).
  { unfold em. destruct (Z.ltb_spec (n + e - 28) (-999999 - 28 + 1)); lia. }
  clearbody em. rewrite <- Hem.
  destruct (Z.ltb_spec e em) as [Hlt | Hge]; [| intros [= <-]; now left].
  destruct (Z.ltb_spec (n + e - em) 0) as [Hneg | Hdig].
  - change (Dec.round_up 1 1) with false. cbn [andb].
    change (1 / 10 ^ 1) with 0.
    in_range. intros [= <-]. right. cbn [Dec.sign Dec.coeff Dec.exp].
    assert (H : 10 ^ Z.succ n <= 10 ^ (em - e))
      by (apply Z.pow_le_mono_r; lia).
    rewrite Z.pow_succ_r in H by lia.
    repeat split; try lia. unfold nearest. lia.
  - set (k := em - e) in *.
    assert (Hk : 1 <= k) by (unfold k; lia).
    assert (Hp : 0 < 10 ^ k) by (apply Z.pow_pos_nonneg; lia).
    assert (Hkept : 0 <= c / 10 ^ k) by (apply Z.div_pos; lia).
    destruct (round_up_nearest c k Hc ltac:(lia)) as [Hup Hdown].
    set (kept := c / 10 ^ k) in *.
    destruct (Dec.round_up c k) eqn:Eup; cbn [andb].
    + specialize (Hup eq_refl).
      destruct (Z.gtb_spec (ndigits (kept + 1)) 28) as [Hg | Hg].
      * assert (Hk1 : kept + 1 = 10 ^ 28).
        { assert (kept < 10 ^ 28).
          { apply Z.div_lt_upper_bound; [lia |].
            rewrite <- Z.pow_add_r by lia.
            apply Z.lt_le_trans with (10 ^ n); [assumption |].
            apply Z.pow_le_mono_r; unfold k; lia. }
          destruct (Z.eq_dec (kept + 1) (10 ^ 28)) as [E | E]; [exact E |].
          exfalso. assert (ndigits (kept + 1) <= 28)
            by (apply ndigits_le; lia). lia. }
        rewrite Hk1. in_range. intros [= <-]. right.
        cbn [Dec.sign Dec.coeff Dec.exp].
        replace (em + 1 - em) with 1 by lia.
        repeat split; try lia; [vm_compute; discriminate |].
        replace (Z.pow_pos 10 28 / 10 * 10 ^ 1) with (kept + 1)
          by (rewrite Hk1; reflexivity).
        exact Hup.
      * in_range. intros [= <-]. right. cbn [Dec.sign Dec.coeff Dec.exp].
        rewrite Z.sub_diag. change (10 ^ 0) with 1. rewrite Z.mul_1_r.
        repeat split; try lia. exact Hup.
    + specialize (Hdown eq_refl). in_range. intros [= <-]. right.
      cbn [Dec.sign Dec.coeff Dec.exp].
      rewrite Z.sub_diag. change (10 ^ 0) with 1. rewrite Z.mul_1_r.
      repeat split; try lia. exact Hdown.
Qed.

(** No decimal of the context is nearer to the exact value than its
    rounding, at whatever common exponent [m] the two are compared. *)
Lemma fix_none_nearer_at (d r : Decimal) (m c' e' : Z) :
  wf d -> Dec._fix d = Ret r ->
  m <= Dec.exp d -> m <= Dec.exp r -> m <= e' ->
  0 <= c' -> ndigits c' <= Dec.prec -> Dec.Etiny <= e' ->
  Z.abs (Dec.coeff d * 10 ^ (Dec.exp d - m) - Dec.coeff r * 10 ^ (Dec.exp r - m)) <=
  Z.abs (Dec.coeff d * 10 ^ (Dec.exp d - m) - c' * 10 ^ (e' - m)).
Proof.
  intros Hw H Hm Hmr Hm' Hc' Hd' Ht'.
  destruct (Z.eq_dec (Dec.coeff d) 0) as [Hz | Hz].
  { destruct (fix_rounds d r Hw H) as (_ & _ & _ & H0 & _).
    rewrite (H0 Hz), Hz. simpl. lia. }
  destruct (fix_grid d r Hw Hz H) as [-> | (HQ & HQr & Hcr & Hnear)].
  { rewrite Z.sub_diag. simpl. lia. }
  cbv zeta in *.
  pose proof (rounded_none_nearer (Dec.coeff d) 1 (Dec.exp d) (ndigits (Dec.coeff d))
                (Z.max (ndigits (Dec.coeff d) + Dec.exp d - Dec.prec) Dec.Etiny)
                (Dec.coeff r) (Dec.exp r) m c' e') as R.
  rewrite !Z.mul_1_r in R. unfold wf in Hw.
  apply R; try assumption; try lia;
    [apply ndigits_pos | apply ndigits_lower; lia].
Qed.

Lemma fix_none_nearer (d r : Decimal) :
  wf d -> Dec._fix d = Ret r -> none_nearer (Dec.coeff d) 1 (Dec.exp d) r.
Proof.
  intros Hw H c' e' Hc' Hd' Ht'. unfold as_near. cbv zeta.
  rewrite !Z.mul_1_r. apply fix_none_nearer_at; try assumption; lia.
Qed.

Lemma abs_le_scaled (X Y F : Z) :
  0 < F -> Z.abs (X * F) <= Z.abs (Y * F) -> Z.abs X <= Z.abs Y.
Proof.
  intros HF. rewrite !Z.abs_mul, (Z.abs_eq F) by lia.
  intros H. apply Z.mul_le_mono_pos_r in H; assumption.
Qed.

Lemma pow10_mod5 (k : Z) : 1 <= k -> 10 ^ k mod 5 = 0.
Proof.
  intros Hk. replace k with (Z.succ (k - 1)) by lia.
  rewrite Z.pow_succ_r by lia.
  replace (10 * 10 ^ (k - 1)) with (2 * 10 ^ (k - 1) * 5) by ring.
  apply Z_mod_mult.
Qed.

(** The quotient with its sticky digit has its leading power of ten
    below the exact quotient. *)
Lemma sticky_lower (q : Z) :
  10 <= q ->
  10 ^ (ndigits (if q mod 5 =? 0 then q + 1 else q) - 1) <= q.
Proof.
  intros Hq. destruct (Z.eqb_spec (q mod 5) 0) as [E | E];
    [| apply ndigits_lower; lia].
  pose proof (ndigits_lower (q + 1) ltac:(lia)) as H.
  destruct (ndigits_spec (q + 1) ltac:(lia)) as (_ & Hlt & _).
  set (n := ndigits (q + 1)) in *.
  assert (Hn : 2 <= n).
  { destruct (Z.le_gt_cases 2 n) as [| Hs]; [assumption | exfalso].
    assert (10 ^ n <= 10 ^ 1) by (apply Z.pow_le_mono_r; lia).
    change (10 ^ 1) with 10 in *. lia. }
  destruct (Z.eq_dec (10 ^ (n - 1)) (q + 1)) as [E1 | E1]; [exfalso | lia].
  pose proof (pow10_mod5 (n - 1) ltac:(lia)) as H5. rewrite E1 in H5.
  pose proof (Z.div_mod q 5 ltac:(lia)) as D1.
  pose proof (Z.div_mod (q + 1) 5 ltac:(lia)) as D2. lia.
Qed.

(** The two numerators of a comparison, in the scaled form [__truediv__]
    computes with and in the form of the operands. *)
Lemma quotient_unscaled (cx cy shift E m a ea : Z) :
  let num := if 0 <=? shift then cx * 10 ^ shift else cx in
  let den := if 0 <=? shift then cy else cy * 10 ^ (- shift) in
  let m' := Z.min m (E - shift) in
  m <= E -> m <= ea ->
  num * 10 ^ (E - shift - m') - a * den * 10 ^ (ea - m') =
  (cx * 10 ^ (E - m) - a * cy * 10 ^ (ea - m)) *
  (10 ^ (m - m') * if 0 <=? shift then 1 else 10 ^ (- shift)).
Proof.
  cbv zeta. intros HmE Hma.
  destruct (Z.leb_spec 0 shift) as [Hs | Hs].
  - set (m' := Z.min m (E - shift)).
    assert (Hm' : m' <= m /\ m' <= E - shift) by (unfold m'; lia).
    replace (E - shift - m') with ((E - shift - m')) by lia.
    replace (cx * 10 ^ shift * 10 ^ (E - shift - m'))
      with (cx * 10 ^ (E - m) * 10 ^ (m - m')).
    + replace (10 ^ (ea - m')) with (10 ^ (ea - m) * 10 ^ (m - m'))
        by (rewrite <- Z.pow_add_r by lia; f_equal; lia).
      ring.
    + rewrite <- !Z.mul_assoc, <- !Z.pow_add_r by lia. do 2 f_equal. lia.
  - rewrite Z.min_l by lia. rewrite Z.sub_diag. change (10 ^ 0) with 1.
    replace (E - shift - m) with ((E - m) + - shift) by lia.
    rewrite Z.pow_add_r by lia. ring.
Qed.

Lemma div_none_nearer (x y r : Decimal) :
  wf x -> wf y -> Dec.div x y = Ret r ->
  none_nearer (Dec.coeff x) (Dec.coeff y) (Dec.exp x - Dec.exp y) r.
Proof.
  destruct x as [sx cx ex], y as [sy cy ey].
  unfold wf, Dec.div, Dec.is_zero, none_nearer, as_near.
  cbn [Dec.sign Dec.coeff Dec.exp]. intros Hx Hy.
  destruct (Z.eqb_spec cy 0) as [| Hy0];
    [destruct (cx =? 0); discriminate |].
  destruct (Z.eqb_spec cx 0) as [-> | Hx0].
  { intros H c' e' _ _ _. apply fix_rounds in H; [| unfold wf; simpl; lia].
    destruct H as (_ & _ & _ & Hz & _). cbn in Hz. rewrite (Hz eq_refl).
    cbv zeta. rewrite !Z.mul_0_l, Z.sub_diag. simpl. lia. }
  destruct (quotient_long cx cy ltac:(lia) ltac:(lia)) as [Hden Hq].
  cbv zeta in Hden, Hq. unfold Dec.prec.
  set (shift := ndigits cy - ndigits cx + 28 + 1) in *.
  set (num := if 0 <=? shift then cx * 10 ^ shift else cx) in *.
  set (den := if 0 <=? shift then cy else cy * 10 ^ (- shift)) in *.
  pose proof (Z.div_mod num den ltac:(lia)) as Hdm.
  pose proof (Z.mod_pos_bound num den Hden) as Hmod.
  set (q := num / den) in *. set (rem := num mod den) in *.
  set (e := ex - ey - shift).
  assert (Finish : forall cr er,
    (forall m' c' e',
       m' <= e -> m' <= er -> m' <= e' ->
       0 <= c' -> ndigits c' <= 28 -> Dec.Etiny <= e' ->
       Z.abs (num * 10 ^ (e - m') - cr * den * 10 ^ (er - m')) <=
       Z.abs (num * 10 ^ (e - m') - c' * den * 10 ^ (e' - m'))) ->
    forall c' e', 0 <= c' -> ndigits c' <= 28 -> Dec.Etiny <= e' ->
      let m := Z.min (ex - ey) (Z.min er e') in
      Z.abs (cx * 10 ^ (ex - ey - m) - cr * cy * 10 ^ (er - m)) <=
      Z.abs (cx * 10 ^ (ex - ey - m) - c' * cy * 10 ^ (e' - m))).
  { intros cr er Core c' e' Hc' Hd' Ht'. cbv zeta.
    set (m := Z.min (ex - ey) (Z.min er e')).
    pose proof (quotient_unscaled cx cy shift (ex - ey) m cr er
                  ltac:(unfold m; lia) ltac:(unfold m; lia)) as U1.
    pose proof (quotient_unscaled cx cy shift (ex - ey) m c' e'
                  ltac:(unfold m; lia) ltac:(unfold m; lia)) as U2.
    cbv zeta in U1, U2. fold num den e in U1, U2.
    set (m' := Z.min m e) in *.
    set (F := 10 ^ (m - m') * (if 0 <=? shift then 1 else 10 ^ (- shift))) in *.
    assert (HF : 0 < F).
    { unfold F. apply Z.mul_pos_pos; [apply Z.pow_pos_nonneg; unfold m'; lia |].
      destruct (Z.leb_spec 0 shift); [lia | apply Z.pow_pos_nonneg; lia]. }
    apply (abs_le_scaled _ _ F HF). rewrite <- U1, <- U2.
    apply Core; try assumption; unfold m', m; lia. }
  destruct (Z.eqb_spec rem 0) as [Hr | Hr].
  - destruct (Dec.to_ideal (Z.to_nat (ex - ey - e)) q e) as [q' e1] eqn:Ei.
    apply to_ideal_spec in Ei as (j & Hj & -> & Hqq & Hpos).
    intros H. destruct r as [sr cr er]. cbn [Dec.coeff Dec.exp].
    apply Finish. intros m' c' e' Hm Hmr Hm' Hc' Hd' Ht'.
    pose proof (fix_none_nearer_at (mkDec (xorb sx sy) q' (e + j)) _ m' c' e'
                  ltac:(unfold wf; simpl; lia) H) as B.
    cbn [Dec.coeff Dec.exp] in B.
    specialize (B ltac:(lia) Hmr Hm' Hc' Hd' Ht').
    assert (En : num * 10 ^ (e - m') = q' * 10 ^ (e + j - m') * den).
    { rewrite Hdm, Hr, Hqq.
      replace (e + j - m') with (j + (e - m')) by lia.
      rewrite Z.pow_add_r by lia. ring. }
    rewrite En.
    replace (q' * 10 ^ (e + j - m') * den - cr * den * 10 ^ (er - m'))
      with ((q' * 10 ^ (e + j - m') - cr * 10 ^ (er - m')) * den) by ring.
    replace (q' * 10 ^ (e + j - m') * den - c' * den * 10 ^ (e' - m'))
      with ((q' * 10 ^ (e + j - m') - c' * 10 ^ (e' - m')) * den) by ring.
    rewrite !Z.abs_mul, (Z.abs_eq den) by lia.
    apply Z.mul_le_mono_nonneg_r; [lia | exact B].
  - set (q1 := if q mod 5 =? 0 then q + 1 else q) in *.
    assert (Hq1 : q <= q1 <= q + 1)
      by (unfold q1; destruct (q mod 5 =? 0); lia).
    intros H. destruct r as [sr cr er]. cbn [Dec.coeff Dec.exp].
    apply Finish. intros m' c' e' Hm Hmr Hm' Hc' Hd' Ht'.
    pose proof (fix_rounds (mkDec (xorb sx sy) q1 e) _ ltac:(unfold wf; simpl; lia) H)
      as (_ & Hcr & Hnr & _).
    cbn [Dec.coeff] in Hcr, Hnr.
    destruct (fix_grid (mkDec (xorb sx sy) q1 e) _ ltac:(unfold wf; simpl; lia)
                ltac:(simpl; lia) H) as [E | G].
    { exfalso. injection E as _ E1 _. rewrite E1 in Hnr. unfold Dec.prec in Hnr.
      destruct (ndigits_spec q1 ltac:(lia)) as (_ & Hlt & _).
      assert (10 ^ ndigits q1 <= 10 ^ 28) by (apply Z.pow_le_mono_r; lia).
      lia. }
    cbn [Dec.coeff Dec.exp] in G. cbv zeta in G.
    destruct G as (HQ & HQr & _ & Hnear).
    set (Q := Z.max (ndigits q1 + e - Dec.prec) Dec.Etiny) in *.
    apply (rounded_none_nearer num den e (ndigits q1) Q); try assumption;
      try reflexivity; try apply ndigits_pos.
    + pose proof (sticky_lower q ltac:(lia)) as L. fold q1 in L.
      apply Z.le_trans with (q * den); [| lia].
      apply Z.mul_le_mono_nonneg_r; lia.
    + rewrite Hdm. rewrite (Z.mul_comm den q).
      apply sticky_nearest; try assumption; lia.
Qed.

(** The exponent of a rounded decimal is not below [Etiny]. *)
Lemma fix_exp_tiny (d r : Decimal) :
  Dec._fix d = Ret r -> Dec.Etiny <= Dec.exp r.
Proof.
  destruct d as [sg c e]. unfold Dec._fix, Dec.is_zero.
  cbn [Dec.sign Dec.coeff Dec.exp].
  unfold Dec.Etop, Dec.Etiny, Dec.Emax, Dec.Emin, Dec.prec.
  destruct (c =? 0).
  { intros [= <-]. cbn [Dec.exp]. lia. }
  set (n := ndigits c).
  destruct (n + e - 28 >? 999999 - 28 + 1); [discriminate |].
  set (em := if n + e - 28 <? -999999 - 28 + 1
             then -999999 - 28 + 1 else n + e - 28).
  assert (Hem : -999999 - 28 + 1 <= em).
  { unfold em. destruct (Z.ltb_spec (n + e - 28) (-999999 - 28 + 1)); lia. }
  clearbody em.
  destruct (Z.ltb_spec e em) as [Hlt | Hge].
  - match goal with
    | |- context [if ?g then em + 1 else em] =>
        set (ex := if g then em + 1 else em);
        assert (Hex : em <= ex) by (unfold ex; destruct g; lia);
        clearbody ex
    end.
    destruct (ex >? 999999 - 28 + 1); [discriminate |].
    intros [= <-]. cbn [Dec.exp]. lia.
  - intros [= <-]. cbn [Dec.exp]. lia.
Qed.

Lemma fix_nearest_in_context (d r : Decimal) :
  wf d -> Dec._fix d = Ret r ->
  nearest_in_context (Dec.coeff d) 1 (Dec.exp d) r.
Proof.
  intros Hw H. destruct (fix_wf d r Hw H) as [H0 H28].
  repeat split; try assumption.
  - now apply fix_exp_tiny in H.
  - now apply fix_none_nearer.
Qed.

Lemma mul_nearest (x y r : Decimal) :
  wf x -> wf y -> Dec.mul x y = Ret r ->
  nearest_in_context (Dec.coeff x * Dec.coeff y) 1 (Dec.exp x + Dec.exp y) r.
Proof.
  intros Hx Hy H. apply fix_nearest_in_context in H; [exact H |].
  unfold wf in *. simpl. lia.
Qed.

Lemma add_nearest (x y r : Decimal) :
  Dec.add x y = Ret r ->
  nearest_in_context (Z.abs (exact_sum x y)) 1 (Z.min (Dec.exp x) (Dec.exp y)) r.
Proof.
  unfold Dec.add, exact_sum. cbv zeta.
  set (e := Z.min (Dec.exp x) (Dec.exp y)).
  set (v := Dec.signed x * 10 ^ (Dec.exp x - e) +
            Dec.signed y * 10 ^ (Dec.exp y - e)).
  destruct (Z.eqb_spec v 0) as [E | E]; intros H.
  - rewrite E. apply fix_nearest_in_context in H; [exact H | unfold wf; simpl; lia].
  - apply fix_nearest_in_context in H; [exact H | unfold wf; simpl; lia].
Qed.

Lemma div_nearest (x y r : Decimal) :
  wf x -> wf y -> Dec.div x y = Ret r ->
  nearest_in_context (Dec.coeff x) (Dec.coeff y) (Dec.exp x - Dec.exp y) r.
Proof.
  intros Hx Hy H. destruct (div_rounds x y r Hx Hy H) as (_ & H0 & H28 & _).
  repeat split; try assumption; [| now apply div_none_nearer].
  revert H. unfold Dec.div. cbv zeta.
  destruct (Dec.is_zero y); [discriminate |].
  destruct (Dec.is_zero x); [apply fix_exp_tiny |].
  match goal with |- context [if ?b then _ else _] => destruct b end.
  - destruct (Dec.to_ideal _ _ _). apply fix_exp_tiny.
  - apply fix_exp_tiny.
Qed.

(** ** Integer literals *)

Lemma digit_val_char (n : Z) : 0 <= n < 10 -> digit_val (digit_char n) = n.
Proof.
  intros [H0 H9]. destruct n as [| p | p]; [reflexivity | | lia].
  do 4 (destruct p as [p | p |]; try reflexivity; try lia).
Qed.

Lemma digit_char_nonzero (n : Z) : 0 < n < 10 -> digit_char n <> "0"%char.
Proof.
  intros [H0 H9]. destruct n as [| p | p]; [lia | | lia].
  do 4 (destruct p as [p | p |]; try discriminate; try lia).
Qed.

Lemma int_acc_str_fuel (f : nat) (n : Z) (acc : string) (a : Z) :
  0 <= n < 2 ^ Z.of_nat (S f) ->
  int_acc (str_fuel (S f) n acc) a = int_acc acc (a * 10 ^ ndigits_fuel (S f) n + n).
Proof.
  revert n acc a. induction f as [| f IH]; intros n acc a Hn.
  - cbn [str_fuel ndigits_fuel]. change (2 ^ Z.of_nat 1) with 2 in Hn.
    destruct (Z.ltb_spec n 10); [| lia].
    cbn [int_acc]. rewrite Z.mod_small, digit_val_char by lia.
    f_equal. change (10 ^ 1) with 10. lia.
  - change (str_fuel (S (S f)) n acc)
      with (if n <? 10 then String (digit_char (n mod 10)) acc
            else str_fuel (S f) (n / 10) (String (digit_char (n mod 10)) acc)).
    change (ndigits_fuel (S (S f)) n)
      with (if n <? 10 then 1 else 1 + ndigits_fuel (S f) (n / 10)).
    pose proof (Z.div_mod n 10 ltac:(lia)) as Hdm.
    pose proof (Z.mod_pos_bound n 10 ltac:(lia)) as Hmod.
    destruct (Z.ltb_spec n 10).
    + cbn [int_acc]. rewrite Z.mod_small, digit_val_char by lia.
      f_equal. change (10 ^ 1) with 10. lia.
    + assert (Hq : 0 <= n / 10 < 2 ^ Z.of_nat (S f)).
      { rewrite (Nat2Z.inj_succ (S f)), Z.pow_succ_r in Hn
          by apply Nat2Z.is_nonneg.
        split; [apply Z.div_pos; lia | apply Z.div_lt_upper_bound; lia]. }
      rewrite IH by exact Hq. cbn [int_acc].
      rewrite digit_val_char by lia. f_equal.
      destruct (ndigits_fuel_spec (S f) (n / 10) Hq) as (H1 & _).
      rewrite Z.pow_add_r, Z.pow_1_r by lia. lia.
Qed.

Lemma log2_fuel (n : Z) : 0 <= n -> 0 <= n < 2 ^ Z.of_nat (S (Z.to_nat (Z.log2 n))).
Proof.
  intros Hn. split; [assumption |].
  rewrite Nat2Z.inj_succ, Z2Nat.id by apply Z.log2_nonneg.
  destruct (Z.eq_dec n 0) as [-> | Hz]; [reflexivity |].
  apply Z.log2_spec. lia.
Qed.

Lemma int_of_str (n : Z) : 0 <= n -> int_of_digits (str_of_nat n) = n.
Proof.
  intros Hn. unfold int_of_digits, str_of_nat.
  rewrite int_acc_str_fuel by now apply log2_fuel. reflexivity.
Qed.

Lemma str_fuel_head (f : nat) (n : Z) (acc : string) :
  0 < n < 2 ^ Z.of_nat (S f) ->
  exists c r, str_fuel (S f) n acc = String c r /\ c <> "0"%char.
Proof.
  revert n acc. induction f as [| f IH]; intros n acc Hn.
  - change (2 ^ Z.of_nat 1) with 2 in Hn. assert (n = 1) as -> by lia.
    eexists _, _. split; [reflexivity | discriminate].
  - change (str_fuel (S (S f)) n acc)
      with (if n <? 10 then String (digit_char (n mod 10)) acc
            else str_fuel (S f) (n / 10) (String (digit_char (n mod 10)) acc)).
    destruct (Z.ltb_spec n 10).
    + eexists _, _. split; [reflexivity |]. rewrite Z.mod_small by lia.
      apply digit_char_nonzero. lia.
    + apply IH.
      rewrite (Nat2Z.inj_succ (S f)), Z.pow_succ_r in Hn by apply Nat2Z.is_nonneg.
      split; [apply Z.div_str_pos; lia | apply Z.div_lt_upper_bound; lia].
Qed.

Lemma str_of_nat_head (n : Z) :
  0 <= n ->
  exists c r, str_of_nat n = String c r /\ is_digit c = true /\
              (c = "0"%char -> n = 0 /\ r = EmptyString).
Proof.
  intros Hn. pose proof (all_digits_str_of_nat n) as Hd.
  destruct (Z.eq_dec n 0) as [-> | Hz].
  - exists "0"%char, EmptyString. repeat split.
  - destruct (str_fuel_head (Z.to_nat (Z.log2 n)) n EmptyString) as (c & r & E & Hc).
    { split; [lia | now apply log2_fuel]. }
    exists c, r. unfold str_of_nat in *. rewrite E in *. simpl in Hd.
    apply andb_true_iff in Hd as [Hd _]. repeat split; auto; congruence.
Qed.

Lemma of_string_str (n : Z) :
  0 <= n -> Dec.of_string (str_of_nat n) = Ret (mkDec false n 0).
Proof.
  intros Hn. destruct (str_of_nat_head n Hn) as (c & r & E & Hc & _).
  pose proof (all_digits_str_of_nat n) as Hd.
  pose proof (int_of_str n Hn) as Hi.
  unfold Dec.of_string. rewrite E in *.
  rewrite split_sign_digit, span_digits_all by assumption.
  rewrite append_nil_r. cbn [Dec.parse_exponent].
  rewrite Hi. reflexivity.
Qed.

Lemma tokenize_digits (ds ip : string) :
  all_digits ds = true ->
  Ast.tokenize (Some (ip, None)) ds = Ast.flush (Some (ip ++ ds, None)).
Proof.
  revert ip. induction ds as [| c ds IH]; intros ip Hd.
  - now rewrite append_nil_r.
  - simpl in Hd. apply andb_true_iff in Hd as [Hc Hd].
    cbn [Ast.tokenize]. rewrite Hc, (IH _ Hd). unfold Ast.snoc.
    now rewrite append_assoc.
Qed.

Lemma tokenize_str (n : Z) :
  0 <= n -> Ast.tokenize None (str_of_nat n) = Ret [Ast.NUMBER (Ast.CInt n)].
Proof.
  intros Hn. destruct (str_of_nat_head n Hn) as (c & r & E & Hc & H0).
  pose proof (all_digits_str_of_nat n) as Hd.
  pose proof (int_of_str n Hn) as Hi.
  rewrite E in *.
  simpl in Hd. apply andb_true_iff in Hd as [_ Hd].
  cbn [Ast.tokenize]. rewrite Hc, (tokenize_digits r _ Hd).
  change (String c "" ++ r) with (String c r).
  assert (Ht : Ast.number_token (String c r, None) = Ret (Ast.NUMBER (Ast.CInt n))).
  { unfold Ast.number_token.
    destruct (Ascii.eqb_spec c "0"%char) as [-> | Hne].
    - destruct (H0 eq_refl) as [-> ->]. reflexivity.
    - rewrite Hi.
      destruct c as [[] [] [] [] [] [] [] []]; try reflexivity;
        destruct r; try reflexivity; congruence. }
  cbn [Ast.flush]. rewrite Ht. reflexivity.
Qed.

(** An integer literal of at most 4300 digits is accepted. *)
Lemma parse_str (n : Z) :
  0 <= n -> ndigits n <= Ast.max_str_digits ->
  Ast.parse (str_of_nat n) = Ret (Ast.Constant (Ast.CInt n)).
Proof.
  intros Hn Hd. unfold Ast.parse. rewrite tokenize_str by exact Hn.
  cbn [bind List.forallb Ast.within_limit andb].
  destruct (Z.leb_spec (ndigits n) Ast.max_str_digits); [reflexivity | lia].
Qed.

(** ... and a longer one is refused. *)
Lemma parse_long (n : Z) :
  0 <= n -> Ast.max_str_digits < ndigits n ->
  Ast.parse (str_of_nat n) = Raise SyntaxError.
Proof.
  intros Hn Hd. unfold Ast.parse. rewrite tokenize_str by exact Hn.
  cbn [bind List.forallb Ast.within_limit andb].
  destruct (Z.leb_spec (ndigits n) Ast.max_str_digits); [lia | reflexivity].
Qed.

Lemma strip_digits (s : string) : all_digits s = true -> strip s = s.
Proof.
  intros H. unfold strip.
  assert (E : lstrip " "%char s = s).
  { destruct s as [| c s]; [reflexivity |]. simpl in *.
    apply andb_true_iff in H as [Hc _].
    destruct (Ascii.eqb_spec c " "%char) as [-> | _]; [discriminate | reflexivity]. }
  rewrite E. now apply rstrip_digits.
Qed.

(** A token without sign and point is read as the integer it spells. *)
Lemma safe_calculate_integer (n : Z) :
  0 <= n -> ndigits n <= Ast.max_str_digits ->
  safe_calculate (str_of_nat n) = Ret (mkDec false n 0).
Proof.
  intros Hn Hd. unfold safe_calculate.
  rewrite strip_digits by apply all_digits_str_of_nat.
  destruct (str_of_nat n) eqn:E; [now apply str_of_nat_nonempty in E |].
  rewrite <- E, parse_str by assumption. simpl. now apply of_string_str.
Qed.

(** ** The parser on chains *)

Lemma rest_tokens_not_power (rest : list (symbol * operand)) :
  not_power (rest_tokens rest).
Proof. destruct rest as [| [[] x] r]; exact I. Qed.

Lemma factor_operand (x : operand) (tl : list Ast.token) :
  not_power tl ->
  Ast.factor (operand_tokens x ++ tl) = Ret (operand_expr x, tl).
Proof.
  intros H. destruct x as [[] v]; unfold operand_tokens, operand_expr; simpl;
    destruct tl as [| [] tl]; try reflexivity; contradiction.
Qed.

Lemma rest_tokens_cons (o : symbol) (x : operand) (r : list (symbol * operand)) :
  rest_tokens ((o, x) :: r) =
  (symbol_token o :: operand_tokens x ++ rest_tokens r)%list.
Proof. reflexivity. Qed.

Lemma factor_rest (x : operand) (r : list (symbol * operand)) :
  Ast.factor (operand_tokens x ++ rest_tokens r) =
  Ret (operand_expr x, rest_tokens r).
Proof. apply factor_operand, rest_tokens_not_power. Qed.

Lemma term_rest_chain (rest : list (symbol * operand)) (acc : Ast.expr)
      (fuel : nat) :
  (List.length rest < fuel)%nat ->
  Ast.term_rest fuel acc (rest_tokens rest) =
  Ret (fst (take_term acc rest), rest_tokens (snd (take_term acc rest))).
Proof.
  revert acc fuel. induction rest as [| [o x] r IH]; intros acc fuel Hf.
  - destruct fuel; [inversion Hf | reflexivity].
  - destruct fuel as [| f]; [inversion Hf |].
    simpl in Hf. apply PeanoNat.lt_S_n in Hf.
    rewrite rest_tokens_cons. cbn [take_term Ast.term_rest].
    destruct o; cbn [symbol_token binds_tighter symbol_operator fst snd];
      try reflexivity;
      rewrite factor_rest; cbn [bind]; now apply IH.
Qed.

Lemma take_term_rest (acc : Ast.expr) (rest : list (symbol * operand)) :
  (List.length (snd (take_term acc rest)) <= List.length rest)%nat /\
  match snd (take_term acc rest) with
  | [] => True
  | (o, _) :: _ => binds_tighter o = false
  end.
Proof.
  revert acc. induction rest as [| [o x] r IH]; intros acc; simpl.
  - auto.
  - destruct (binds_tighter o) eqn:E.
    + destruct (IH (Ast.BinOp acc (symbol_operator o) (operand_expr x))). auto.
    + simpl. auto.
Qed.

Lemma climb_take_term (done : option (Ast.expr * symbol)) (term : Ast.expr)
      (rest : list (symbol * operand)) :
  climb done term rest =
  match snd (take_term term rest) with
  | [] => close done (fst (take_term term rest))
  | (o, x) :: r =>
      climb (Some (close done (fst (take_term term rest)), o)) (operand_expr x) r
  end.
Proof.
  revert term. induction rest as [| [o x] r IH]; intros term; simpl.
  - reflexivity.
  - destruct (binds_tighter o) eqn:E; [apply IH | reflexivity].
Qed.

Lemma arith_rest_chain (n : nat) :
  forall (rest : list (symbol * operand)) (o : symbol) (x : operand)
         (acc : Ast.expr) (fuel : nat),
    (List.length rest < n)%nat -> (S (List.length rest) < fuel)%nat ->
    binds_tighter o = false ->
    Ast.arith_rest fuel acc (rest_tokens ((o, x) :: rest)) =
    Ret (climb (Some (acc, o)) (operand_expr x) rest, []).
Proof.
  induction n as [| n IH]; intros rest o x acc fuel Hn Hf Ho; [inversion Hn |].
  destruct fuel as [| f]; [inversion Hf |]. apply PeanoNat.lt_S_n in Hf.
  rewrite rest_tokens_cons, climb_take_term.
  destruct (take_term_rest (operand_expr x) rest) as [Hlen Hhead].
  assert (Hterm : Ast.term f (operand_tokens x ++ rest_tokens rest) =
                  Ret (fst (take_term (operand_expr x) rest),
                       rest_tokens (snd (take_term (operand_expr x) rest)))).
  { unfold Ast.term. rewrite factor_rest. cbn [bind].
    apply term_rest_chain. lia. }
  assert (Hstep : Ast.arith_rest (S f) acc
                    (symbol_token o :: operand_tokens x ++ rest_tokens rest) =
                  Ast.arith_rest f
                    (Ast.BinOp acc (symbol_operator o)
                       (fst (take_term (operand_expr x) rest)))
                    (rest_tokens (snd (take_term (operand_expr x) rest)))).
  { destruct o; try discriminate Ho; cbn [Ast.arith_rest symbol_token];
      rewrite Hterm; reflexivity. }
  rewrite Hstep.
  destruct (snd (take_term (operand_expr x) rest)) as [| [o' x'] r'].
  - destruct f; [inversion Hf | reflexivity].
  - simpl in Hlen. apply IH; [lia | lia | exact Hhead].
Qed.

Lemma rest_tokens_length (rest : list (symbol * operand)) :
  (List.length rest <= List.length (rest_tokens rest))%nat.
Proof.
  induction rest as [| [o x] r IH]; [apply le_n |].
  rewrite rest_tokens_cons. cbn [List.length]. rewrite length_app. lia.
Qed.

Lemma parse_chain (first : operand) (rest : list (symbol * operand)) :
  Ast.parse_tokens (chain_tokens first rest) =
  Ret (climb None (operand_expr first) rest).
Proof.
  unfold Ast.parse_tokens, chain_tokens.
  set (fuel := S (List.length (operand_tokens first ++ rest_tokens rest))).
  assert (Hfuel : (S (List.length rest) < fuel)%nat).
  { unfold fuel. rewrite length_app.
    pose proof (rest_tokens_length rest).
    destruct first as [[] v]; simpl; lia. }
  unfold Ast.term. rewrite factor_rest. cbn [bind].
  rewrite term_rest_chain by lia. cbn [bind].
  rewrite climb_take_term.
  destruct (take_term_rest (operand_expr first) rest) as [Hlen Hhead].
  destruct (snd (take_term (operand_expr first) rest)) as [| [o x] r].
  - destruct fuel; [inversion Hfuel | reflexivity].
  - simpl in Hlen.
    rewrite (arith_rest_chain (S (List.length r))) by (auto; lia).
    reflexivity.
Qed.


(** ** The tokenizer on joined words *)

Lemma then_tokens_emit (cur : option Ast.numeral) (ts : list Ast.token)
      (a b : res (list Ast.token)) :
  then_tokens (Ast.emit cur ts a) b = Ast.emit cur ts (then_tokens a b).
Proof.
  unfold then_tokens, Ast.emit.
  destruct (Ast.flush cur) as [pre |]; simpl; [| reflexivity].
  destruct a as [x |]; simpl; [| reflexivity].
  destruct b as [y |]; simpl; [| reflexivity].
  now rewrite <- !app_assoc.
Qed.

Lemma then_tokens_flush (cur : option Ast.numeral) (b : res (list Ast.token)) :
  then_tokens (Ast.flush cur) b = Ast.emit cur [] b.
Proof. reflexivity. Qed.

(** A blank ends the word before it: the tokens of [w ++ " " ++ s] are the
    tokens of [w] followed by the tokens of [s]. *)
Lemma tokenize_words (n : nat) :
  forall (w s : string) (cur : option Ast.numeral),
    (String.length w <= n)%nat ->
    Ast.tokenize cur (w ++ String " "%char s) =
    then_tokens (Ast.tokenize cur w) (Ast.tokenize None s).
Proof.
  induction n as [| n IH]; intros w s cur Hn.
  - destruct w; [| inversion Hn]. simpl. now rewrite then_tokens_flush.
  - destruct w as [| c w]; [simpl; now rewrite then_tokens_flush |].
    simpl in Hn. apply le_S_n in Hn.
    assert (IHw : forall cur', Ast.tokenize cur' (w ++ String " "%char s) =
                  then_tokens (Ast.tokenize cur' w) (Ast.tokenize None s))
      by (intros; now apply IH).
    change (String c w ++ String " "%char s)
      with (String c (w ++ String " "%char s)).
    cbn [Ast.tokenize].
    destruct (is_digit c).
    { destruct cur as [[ip [fp |]] |]; apply IHw. }
    destruct (Ascii.eqb c "."%char).
    { destruct cur as [[ip [fp |]] |]; try apply IHw.
      now rewrite then_tokens_emit, IHw. }
    destruct (Ascii.eqb c " "%char); [now rewrite then_tokens_emit, IHw |].
    destruct (Ascii.eqb c "+"%char); [now rewrite then_tokens_emit, IHw |].
    destruct (Ascii.eqb c "-"%char); [now rewrite then_tokens_emit, IHw |].
    destruct (Ascii.eqb c "*"%char).
    { destruct w as [| c' w'].
      - simpl. now rewrite !then_tokens_emit.
      - change (String c' w' ++ String " "%char s)
          with (String c' (w' ++ String " "%char s)) in *.
        cbv beta iota.
        destruct (Ascii.eqb c' "*"%char).
        + rewrite then_tokens_emit, IH; [reflexivity |].
          simpl in Hn. lia.
        + now rewrite then_tokens_emit, IHw. }
    destruct (Ascii.eqb c "/"%char).
    { destruct w as [| c' w'].
      - simpl. now rewrite !then_tokens_emit.
      - change (String c' w' ++ String " "%char s)
          with (String c' (w' ++ String " "%char s)) in *.
        cbv beta iota.
        destruct (Ascii.eqb c' "/"%char).
        + rewrite then_tokens_emit, IH; [reflexivity |].
          simpl in Hn. lia.
        + now rewrite then_tokens_emit, IHw. }
    reflexivity.
Qed.

Lemma tokenize_concat (w : string) (ws : list string) :
  ws <> [] ->
  Ast.tokenize None (String.concat " " (w :: ws)) =
  then_tokens (Ast.tokenize None w) (Ast.tokenize None (String.concat " " ws)).
Proof.
  intros H. destruct ws as [| w' ws]; [congruence |].
  change (String.concat " " (w :: w' :: ws))
    with (w ++ String " "%char (String.concat " " (w' :: ws))).
  now apply (tokenize_words (String.length w)).
Qed.

Lemma tokenize_symbol (o : symbol) :
  Ast.tokenize None (symbol_text o) = Ret [symbol_token o].
Proof. destruct o; reflexivity. Qed.

Lemma tokenize_rest (rest : list (symbol * string * operand)) :
  Forall (fun owx => reads_as (snd (fst owx)) (snd owx)) rest ->
  rest <> [] ->
  Ast.tokenize None
    (String.concat " "
       (List.flat_map (fun owx => [symbol_text (fst (fst owx)); snd (fst owx)]) rest)) =
  Ret (rest_tokens (List.map (fun owx => (fst (fst owx), snd owx)) rest)).
Proof.
  induction 1 as [| [[o w] x] r Hw Hr IH]; [congruence |]. intros _.
  cbn [List.flat_map List.map fst snd app] in *.
  rewrite tokenize_concat, tokenize_symbol by discriminate.
  rewrite rest_tokens_cons.
  destruct r as [| owx r].
  - simpl. unfold reads_as in Hw. rewrite Hw. simpl.
    now rewrite app_nil_r.
  - rewrite tokenize_concat by (destruct owx as [[? ?] ?]; discriminate).
    unfold reads_as in Hw. rewrite Hw, IH by discriminate. reflexivity.
Qed.

Lemma tokenize_chain (first : string) (x0 : operand)
      (rest : list (symbol * string * operand)) :
  reads_as first x0 ->
  Forall (fun owx => reads_as (snd (fst owx)) (snd owx)) rest ->
  Ast.tokenize None (String.concat " " (chain_words first (List.map fst rest))) =
  Ret (chain_tokens x0 (List.map (fun owx => (fst (fst owx), snd owx)) rest)).
Proof.
  intros H0 Hr. unfold chain_words, chain_tokens.
  rewrite flat_map_concat_map, map_map, <- flat_map_concat_map.
  destruct rest as [| owx r].
  - simpl. unfold reads_as in H0. now rewrite H0, app_nil_r.
  - rewrite tokenize_concat by (destruct owx as [[? ?] ?]; discriminate).
    unfold reads_as in H0. rewrite H0, (tokenize_rest _ Hr) by discriminate.
    reflexivity.
Qed.

Lemma reads_as_integer (n : Z) : 0 <= n -> reads_as (str_of_nat n) (int_operand n).
Proof. intros Hn. unfold reads_as. now apply tokenize_str. Qed.

(** A chain of words within the limit on integer literals is parsed as
    the tree of its operands under the usual precedence. *)
Lemma parse_chain_words (first : string) (x0 : operand)
      (rest : list (symbol * string * operand)) :
  reads_as first x0 ->
  Forall (fun owx => reads_as (snd (fst owx)) (snd owx)) rest ->
  let chain := List.map (fun owx => (fst (fst owx), snd owx)) rest in
  List.forallb Ast.within_limit (chain_tokens x0 chain) = true ->
  Ast.parse (String.concat " " (chain_words first (List.map fst rest))) =
  Ret (climb None (operand_expr x0) chain).
Proof.
  intros H0 Hr chain Hl. unfold Ast.parse.
  rewrite (tokenize_chain first x0 rest H0 Hr). cbn [bind].
  fold chain. rewrite Hl. apply parse_chain.
Qed.

(** ** Negative integer literals *)

Lemma fix_exact (d : Decimal) :
  0 < Dec.coeff d -> ndigits (Dec.coeff d) <= Dec.prec ->
  Dec.Etiny <= Dec.exp d -> ndigits (Dec.coeff d) + Dec.exp d <= Dec.Emax ->
  Dec._fix d = Ret d.
Proof.
  intros Hc Hn He Hm. destruct (fix_returns d Hm) as [r Hr].
  rewrite Hr. f_equal.
  destruct (fix_rounds d r ltac:(unfold wf; lia) Hr) as (_ & _ & _ & _ & H).
  destruct (H ltac:(lia)) as (_ & _ & ->); auto. now destruct d.
Qed.

Lemma parse_negative (n : Z) :
  0 <= n -> ndigits n <= Ast.max_str_digits ->
  Ast.parse ("-" ++ str_of_nat n) =
  Ret (Ast.UnaryOp Ast.USub (Ast.Constant (Ast.CInt n))).
Proof.
  intros Hn Hd. pose proof (tokenize_str n Hn) as H.
  unfold Ast.parse. change ("-" ++ str_of_nat n) with (String "-"%char (str_of_nat n)).
  cbn [Ast.tokenize is_digit Ascii.eqb Bool.eqb].
  cbv beta iota. unfold Ast.emit. rewrite H.
  cbn [bind Ast.flush app List.forallb Ast.within_limit andb].
  destruct (Z.leb_spec (ndigits n) Ast.max_str_digits); [reflexivity | lia].
Qed.

Lemma strip_negative (s : string) :
  all_digits s = true -> s <> "" -> strip ("-" ++ s) = "-" ++ s.
Proof.
  intros Hd Hne. unfold strip.
  change (lstrip " "%char ("-" ++ s)) with ("-" ++ s).
  rewrite rstrip_app, rstrip_digits by (auto; reflexivity).
  destruct s; [congruence | reflexivity].
Qed.

Lemma safe_calculate_negative (n : Z) :
  0 < n -> ndigits n <= Dec.prec ->
  safe_calculate ("-" ++ str_of_nat n) = Ret (mkDec true n 0).
Proof.
  intros Hn Hd. unfold safe_calculate.
  rewrite strip_negative
    by (auto using all_digits_str_of_nat, str_of_nat_nonempty).
  change ("-" ++ str_of_nat n) with (String "-"%char (str_of_nat n)) at 1.
  cbv beta iota. rewrite parse_negative by (unfold Ast.max_str_digits, Dec.prec in *; lia).
  cbn [bind visit]. rewrite of_string_str by lia. cbn [bind].
  unfold Dec.neg, Dec.is_zero. cbn [Dec.sign Dec.coeff Dec.exp negb].
  destruct (Z.eqb_spec n 0); [lia |].
  apply fix_exact; cbn [Dec.sign Dec.coeff Dec.exp]; try assumption.
  - unfold Dec.Etiny, Dec.Emin, Dec.prec. lia.
  - unfold Dec.Emax, Dec.prec in *. lia.
Qed.

(** ** The expression text *)

Lemma rstrip_alphabet (ch : ascii) (s : string) :
  in_alphabet ch = false -> over_alphabet s = true -> rstrip ch s = s.
Proof.
  intros Hch. induction s as [| c s IH]; [reflexivity |].
  cbn [over_alphabet rstrip]. intros H. apply andb_true_iff in H as [Hc Hs].
  rewrite (IH Hs). destruct s; [| reflexivity].
  destruct (Ascii.eqb_spec c ch) as [-> | _]; [congruence | reflexivity].
Qed.

Lemma plain_head (t : string) :
  is_plain_number t = true ->
  exists c r, t = String c r /\ in_alphabet c = true.
Proof.
  intros H. pose proof (plain_over_alphabet t H) as Ha.
  destruct t as [| c r]; [discriminate |].
  cbn [over_alphabet] in Ha. apply andb_true_iff in Ha as [Hc _]. eauto.
Qed.

Lemma lstrip_plain (t r : string) :
  is_plain_number t = true -> lstrip " "%char (t ++ r) = t ++ r.
Proof.
  intros H. destruct (plain_head t H) as (c & t' & -> & Hc).
  cbn [append lstrip].
  destruct (Ascii.eqb_spec c " "%char) as [-> | _]; [discriminate | reflexivity].
Qed.

Lemma rstrip_plain (a v : string) :
  is_plain_number v = true -> rstrip " "%char (a ++ v) = a ++ v.
Proof.
  intros H. rewrite rstrip_app.
  rewrite (rstrip_alphabet " "%char v) by (auto using plain_over_alphabet).
  destruct (plain_head v H) as (c & v' & -> & _). reflexivity.
Qed.

(** The expression text carries no blank at either end: [strip] leaves it
    as it is. *)
Lemma strip_expression (ts : list string) (v : string) :
  pairs ts = true -> is_plain_number v = true ->
  strip (String.concat " " (ts ++ [v])) = String.concat " " (ts ++ [v]).
Proof.
  intros Hp Hv. unfold strip.
  assert (El : lstrip " "%char (String.concat " " (ts ++ [v])) =
               String.concat " " (ts ++ [v])).
  { destruct ts as [| t [| o r]]; [| discriminate |].
    - cbn [app String.concat]. rewrite <- (append_nil_r v).
      now apply lstrip_plain.
    - cbn [pairs] in Hp. apply andb_true_iff in Hp as [Hp _].
      apply andb_true_iff in Hp as [Ht _].
      cbn [app String.concat]. now apply lstrip_plain. }
  rewrite El. destruct ts as [| t ts'].
  - cbn [app String.concat]. change v with ("" ++ v) at 1.
    now apply rstrip_plain.
  - rewrite concat_snoc by discriminate. now apply rstrip_plain.
Qed.

Lemma evaluation_list_appends (s : CalculatorState) :
  ends_with_operator (tokens s) = true ->
  evaluation_list s =
    (value <- _sanitize_number (current s) ;; Ret (tokens s ++ [value])%list).
Proof.
  intros H. unfold evaluation_list. rewrite H, orb_true_r.
  destruct (_sanitize_number (current s)); reflexivity.
Qed.

(** ** The claims *)




(** C2, as the specification states it, fails: a product is rounded to 28
    significant digits although no division is involved.  The exact square
    of 99999999999999999999 ends in ...0001. *)
Lemma product_is_rounded :
  current square_of_nines = "9999999999999999999800000000000000000000" /\
  str_of_nat (99999999999999999999 * 99999999999999999999) =
    "9999999999999999999800000000000000000001" /\
  current square_of_nines <>
    str_of_nat (99999999999999999999 * 99999999999999999999).
Proof. vm_compute. repeat split. discriminate. Qed.

(** A number token with a decimal point goes through a Python [float] on
    its way to [Decimal]: of 19 fractional digits, 17 arrive. *)
Example fraction_token_through_float :
  current long_fraction = "0.12345678901234568".
Proof. vm_compute. reflexivity. Qed.

Lemma signed_negated (y : Decimal) : Dec.signed (negated y) = - Dec.signed y.
Proof. unfold Dec.signed, negated. simpl. destruct (Dec.sign y); simpl; lia. Qed.

(** A result that is coarser than the context allows is refused: 0E+1 is
    within half a unit of its last place of 2/3, but 0.7 is nearer. *)
Example coarse_quotient_refused :
  quotient_nearest two three (mkDec false 0 1) /\
  ~ nearest_in_context 2 3 0 (mkDec false 0 1).
Proof.
  split.
  - intros a b Ha Hb E. cbn [Dec.coeff Dec.exp two three] in *.
    assert (a = b - 1) by lia. subst a.
    replace b with (Z.succ (b - 1)) at 2 3 by lia.
    rewrite Z.pow_succ_r by lia.
    assert (0 < 10 ^ (b - 1)) by (apply Z.pow_pos_nonneg; lia). lia.
  - intros (_ & _ & _ & H).
    specialize (H 7 (-1) ltac:(lia) ltac:(vm_compute; discriminate)
                  ltac:(vm_compute; discriminate)).
    vm_compute in H. now apply H.
Qed.

(** C2, amended: the four operations are carried out on decimal values in
    a context of 28 significant digits.  The result of a sum, difference,
    product or quotient is a decimal the context can hold (at most 28
    digits, an exponent of at least [Etiny]) and a nearest one to the
    exact result among them; a sum, difference or product that has at most
    28 digits, with an exponent of at least [Etiny], is the exact result
    itself.  A product whose digits and
    exponent stay below [Emax] is returned.  A number token without a
    decimal point, of at most 4300 digits, is converted exactly to its
    decimal value (behind a minus sign, when it has at most 28 digits). *)
Theorem arithmetic_in_context (x y r : Decimal) :
  wf x -> wf y ->
  (Dec.add x y = Ret r ->
   rounds_to (sum_sign x y) (Z.abs (exact_sum x y))
             (Z.min (Dec.exp x) (Dec.exp y)) r /\
   nearest_in_context (Z.abs (exact_sum x y)) 1
                      (Z.min (Dec.exp x) (Dec.exp y)) r) /\
  (Dec.sub x y = Ret r ->
   rounds_to (sum_sign x (negated y)) (Z.abs (exact_sum x (negated y)))
             (Z.min (Dec.exp x) (Dec.exp y)) r /\
   nearest_in_context (Z.abs (exact_sum x (negated y))) 1
                      (Z.min (Dec.exp x) (Dec.exp y)) r) /\
  (Dec.mul x y = Ret r ->
   rounds_to (xorb (Dec.sign x) (Dec.sign y)) (Dec.coeff x * Dec.coeff y)
             (Dec.exp x + Dec.exp y) r /\
   nearest_in_context (Dec.coeff x * Dec.coeff y) 1 (Dec.exp x + Dec.exp y) r) /\
  (Dec.div x y = Ret r ->
   Dec.sign r = xorb (Dec.sign x) (Dec.sign y) /\ quotient_nearest x y r /\
   nearest_in_context (Dec.coeff x) (Dec.coeff y) (Dec.exp x - Dec.exp y) r) /\
  (ndigits (Dec.coeff x * Dec.coeff y) + (Dec.exp x + Dec.exp y) <= Dec.Emax ->
   exists p, Dec.mul x y = Ret p) /\
  (forall n, 0 <= n -> ndigits n <= Ast.max_str_digits ->
             safe_calculate (str_of_nat n) = Ret (mkDec false n 0)) /\
  (forall n, 0 < n -> ndigits n <= Dec.prec ->
             safe_calculate ("-" ++ str_of_nat n) = Ret (mkDec true n 0)).
Proof.
  intros Hx Hy. repeat apply conj.
  - intros H. split; [exact (add_rounds x y r H) | exact (add_nearest x y r H)].
  - intros H. split;
      [exact (add_rounds x (negated y) r H) | exact (add_nearest x (negated y) r H)].
  - intros H. split; [now apply mul_rounds | now apply mul_nearest].
  - intros H. destruct (div_rounds x y r Hx Hy H) as (Hs & _ & _ & Hq).
    split; [exact Hs | split; [exact Hq | now apply div_nearest]].
  - intros H. unfold Dec.mul. now apply fix_returns.
  - apply safe_calculate_integer.
  - apply safe_calculate_negative.
Qed.

Lemma arithmetic_in_context_witness :
  wf two /\ wf three /\ Dec.div two three = Ret two_thirds /\
  quotient_nearest two three two_thirds /\
  nearest_in_context 2 3 0 two_thirds.
Proof.
  assert (H2 : wf two) by (unfold wf; simpl; lia).
  assert (H3 : wf three) by (unfold wf; simpl; lia).
  assert (Hd : Dec.div two three = Ret two_thirds) by (vm_compute; reflexivity).
  split; [exact H2 | split; [exact H3 | split; [exact Hd |]]].
  destruct (arithmetic_in_context two three two_thirds H2 H3)
    as (_ & _ & _ & H & _).
  exact (proj2 (H Hd)).
Defined.

(** C3, as the specification states it, fails: after 5, +, = the trailing
    operator is kept and [current] is used as the right operand, so the
    result is 10 and not 5. *)
Lemma equals_keeps_trailing_operator :
  overwrite pending_operator = true /\
  tokens pending_operator = ["5"; "+"] /\
  evaluation_list pending_operator = Ret ["5"; "+"; "5"] /\
  current (after "=" pending_operator) = "10" /\
  current (after "=" pending_operator) <> "5".
Proof. vm_compute. repeat split; discriminate. Qed.

(** C3, amended: when the last token is an operator, Equals appends the
    canonical form of [current] as the right operand whether or not
    [overwrite] is set; the list handed to the evaluator is never the
    token list with its trailing operator dropped; after 5, +, = the result
    is 10. *)
Theorem equals_appends_current (s : CalculatorState) :
  ends_with_operator (tokens s) = true ->
  evaluation_list s =
    (value <- _sanitize_number (current s) ;; Ret (tokens s ++ [value])%list) /\
  evaluation_list s <> Ret (List.removelast (tokens s)) /\
  current (press ["5"; "+"; "="] fresh) = "10".
Proof.
  intros H. rewrite (evaluation_list_appends s H).
  split; [reflexivity | split; [| vm_compute; reflexivity]].
  destruct (_sanitize_number (current s)) as [v | e]; simpl; [| discriminate].
  intros [= E]. apply (f_equal (@List.length string)) in E.
  rewrite length_app in E.
  destruct (tokens s) as [| t ts] eqn:Et; [discriminate |].
  pose proof (app_removelast_last "" (l := t :: ts) ltac:(discriminate)) as E'.
  apply (f_equal (@List.length string)) in E'.
  rewrite length_app in E'.
  change (List.length [v]) with 1%nat in E.
  change (List.length [List.last (t :: ts) ""]) with 1%nat in E'. lia.
Qed.

Lemma equals_appends_current_witness :
  ends_with_operator (tokens pending_operator) = true /\
  evaluation_list pending_operator = Ret ["5"; "+"; "5"].
Proof.
  assert (He : ends_with_operator (tokens pending_operator) = true)
    by (vm_compute; reflexivity).
  split; [exact He |].
  rewrite (proj1 (equals_appends_current pending_operator He)).
  vm_compute. reflexivity.
Defined.

(** C4, as the specification states it, fails for an unrecognized command:
    sent to an engine in its error state, it leaves the error in place
    instead of resetting the state first. *)
Lemma unknown_command_keeps_error :
  error divided_by_zero = Some msg_zero_division /\
  process "x" divided_by_zero =
    (Ret ("", "0", Some msg_zero_division), divided_by_zero) /\
  process "x" fresh = (Ret ("", "0", None), fresh) /\
  after "x" divided_by_zero <> fresh.
Proof. vm_compute. repeat split. discriminate. Qed.

(** C4, amended: while [error] is set, every command that [process]
    dispatches to a method is applied to a fresh state, and every other
    command string is a no-op that returns the display with the error still
    set. *)
Theorem error_reset_before_command (command : string) (s : CalculatorState) :
  truthy (error s) = true ->
  (recognized command = true -> process command s = process command fresh) /\
  (recognized command = false -> process command s = (Ret (get_display s), s)).
Proof.
  intros He.
  assert (Hr : _reset_on_error s = fresh)
    by (unfold _reset_on_error; now rewrite He).
  unfold recognized, process, dispatch.
  destruct (is_substring command "0123456789").
  { split; [intros _ | discriminate].
    unfold _input_digit. now rewrite Hr. }
  destruct (command =? ".")%string.
  { split; [intros _ | discriminate].
    unfold _input_decimal_point. now rewrite Hr. }
  destruct (in_OPERATORS command).
  { split; [intros _ | discriminate].
    unfold _apply_operator. now rewrite Hr. }
  destruct (dispatcher command) as [m |]; simpl.
  - split; [intros _ | discriminate].
    destruct m; simpl;
      unfold _clear_entry, _calculate_result, _percent, _toggle_sign, _backspace;
      rewrite ?Hr; reflexivity.
  - split; [discriminate | reflexivity].
Qed.

Lemma error_reset_before_command_witness :
  truthy (error divided_by_zero) = true /\
  process "5" divided_by_zero = process "5" fresh /\
  process "x" divided_by_zero =
    (Ret (get_display divided_by_zero), divided_by_zero).
Proof.
  assert (He : truthy (error divided_by_zero) = true) by (vm_compute; reflexivity).
  split; [exact He | split].
  - apply (error_reset_before_command "5" divided_by_zero He).
    vm_compute. reflexivity.
  - apply (error_reset_before_command "x" divided_by_zero He).
    vm_compute. reflexivity.
Defined.

(** C5: the empty string passes the test [command in "0123456789"] and is
    stored as [current]; the operator that follows cannot commit it, and
    the [ValueError] of [_sanitize_number] escapes [process]. *)
Theorem operator_after_empty_command_raises :
  is_substring "" "0123456789" = true /\
  after "" fresh = mkState [] "" false None /\
  process "+" (after "" fresh) = (Raise ValueError, mkState [] "" false None).
Proof. vm_compute. repeat split. Qed.


(** C6: Percent computes [base * current / 100] when [tokens] has at least
    two entries and ends with an operator, [base] being the second-to-last
    token (0 if it does not parse), and [current / 100] otherwise; the
    canonical text of the result becomes [current] and [overwrite] is
    cleared.  If the decimal arithmetic overflows, the exception escapes
    and the state is the one the error reset left. *)
Theorem percent_computes (s : CalculatorState) (c : Decimal) :
  reachable s ->
  let s1 := _reset_on_error s in
  Dec.of_string (current s1) = Ret c ->
  (forall pre b o,
      tokens s1 = (pre ++ [b; o])%list -> in_OPERATORS o = true ->
      let base := match Dec.of_string b with Ret v => v | Raise _ => zero end in
      _percent s =
      match (p <- Dec.mul base c ;; q <- Dec.div p hundred ;; _format_decimal q) with
      | Ret text => (Ret tt, mkState (tokens s1) text false (error s1))
      | Raise e => (Raise e, s1)
      end) /\
  (Z.of_nat (List.length (tokens s1)) < 2 \/ ends_with_operator (tokens s1) = false ->
   _percent s =
   match (q <- Dec.div c hundred ;; _format_decimal q) with
   | Ret text => (Ret tt, mkState (tokens s1) text false (error s1))
   | Raise e => (Raise e, s1)
   end) /\
  current (press ["2"; "0"; "0"; "+"; "1"; "0"; "%"; "="] fresh) = "220" /\
  current (press ["5"; "0"; "%"] fresh) = "0.5".
Proof.
  intros _ s1 Hc. unfold _percent. fold s1. rewrite Hc.
  split; [| split; [| split; vm_compute; reflexivity]].
  - intros pre b o Et Ho.
    set (base := match Dec.of_string b with Ret v => v | Raise _ => zero end).
    assert (E1 : (2 <=? Z.of_nat (List.length (tokens s1))) = true)
      by (apply Z.leb_le; rewrite Et, length_app; simpl; lia).
    assert (E2 : ends_with_operator (tokens s1) = true).
    { rewrite Et. change (pre ++ [b; o])%list with (pre ++ [b] ++ [o])%list.
      now rewrite app_assoc, ends_with_operator_snoc. }
    assert (E3 : percent_base (tokens s1) = Ret base)
      by (rewrite Et; apply percent_base_snoc).
    rewrite E1, E2, E3. simpl.
    destruct (Dec.mul base c) as [p |]; simpl; [| reflexivity].
    destruct (Dec.div p hundred) as [q |]; reflexivity.
  - intros H.
    replace ((2 <=? Z.of_nat (List.length (tokens s1))) &&
             ends_with_operator (tokens s1)) with false; [reflexivity |].
    symmetry. apply andb_false_iff.
    destruct H as [H | H]; [left; apply Z.leb_gt; lia | now right].
Qed.

Lemma percent_computes_witness :
  reachable percent_entry /\
  Dec.of_string (current (_reset_on_error percent_entry)) =
    Ret (mkDec false 10 0) /\
  _percent percent_entry = (Ret tt, mkState ["200"; "+"] "20" false None).
Proof.
  assert (Hr : reachable percent_entry) by (apply reachable_press; constructor).
  assert (Hc : Dec.of_string (current (_reset_on_error percent_entry)) =
               Ret (mkDec false 10 0))
    by (vm_compute; reflexivity).
  assert (Et : tokens (_reset_on_error percent_entry) = ([] ++ ["200"; "+"])%list)
    by (vm_compute; reflexivity).
  split; [exact Hr | split; [exact Hc |]].
  rewrite (proj1 (percent_computes percent_entry _ Hr Hc) [] "200" "+" Et eq_refl).
  vm_compute. reflexivity.
Defined.

(** C7: in every reachable state the tokens are numbers and operators in
    turn, the first one is not an operator, and an operator that is not the
    last entry is followed by a number. *)
Theorem tokens_alternate (s : CalculatorState) :
  reachable s ->
  alternating (tokens s) = true /\
  (forall t r, tokens s = t :: r -> in_OPERATORS t = false) /\
  (forall pre a b post,
      tokens s = (pre ++ a :: b :: post)%list ->
      in_OPERATORS a = true ->
      is_plain_number b = true /\ in_OPERATORS b = false).
Proof.
  intros H. apply reachable_invariant in H as (Hp & _).
  apply pairs_alternating in Hp. split; [exact Hp | split].
  - intros t r E. rewrite E in Hp.
    apply plain_not_operator. now apply alternating_head in Hp.
  - intros pre a b post E Ha.
    pose proof (alternating_after_operator _ _ _ _ _ Hp E Ha) as Hb.
    split; [exact Hb | now apply plain_not_operator].
Qed.

Lemma tokens_alternate_witness :
  reachable two_pending /\ tokens two_pending = ["12"; "+"; "3"; "*"] /\
  alternating (tokens two_pending) = true.
Proof.
  assert (Hr : reachable two_pending) by (apply reachable_press; constructor).
  split; [exact Hr | split; [vm_compute; reflexivity |]].
  exact (proj1 (tokens_alternate two_pending Hr)).
Defined.

(** C8: after the empty command [current] is the empty string, which
    [Decimal] refuses; the parse-failure branches of ToggleSign, Percent
    and Equals are then taken. *)
Theorem current_unparseable_after_empty_command :
  reachable after_empty_command /\ current after_empty_command = "" /\
  Dec.of_string (current after_empty_command) = Raise InvalidOperation /\
  error (after "±" after_empty_command) = Some msg_number /\
  error (after "%" after_empty_command) = Some msg_number /\
  error (after "=" after_empty_command) = Some msg_number.
Proof.
  split; [unfold after_empty_command; constructor; constructor |].
  vm_compute. repeat split.
Qed.

(** C9, as the specification states it, fails: in a reachable state with
    [overwrite] set, [current] need not be "0", and Backspace then changes
    the value. *)
Lemma backspace_changes_value :
  reachable sum_shown /\ overwrite sum_shown = true /\
  current sum_shown = "15" /\
  current (after "Backspace" sum_shown) = "0" /\
  current (after "Backspace" sum_shown) <> current sum_shown.
Proof.
  split; [apply reachable_press; constructor |].
  vm_compute. repeat split. discriminate.
Qed.

(** C9, amended: in every reachable state with [overwrite] set, Backspace
    sets [current] to "0" (which leaves the value as it was only if it was
    "0" already), keeps [overwrite] set and leaves [tokens] untouched. *)
Theorem backspace_on_overwrite (command : string) (s : CalculatorState) :
  reachable s -> overwrite s = true ->
  dispatcher command = Some m_backspace ->
  let s' := after command s in
  fst (process command s) = Ret (get_display s') /\
  current s' = "0" /\ overwrite s' = true /\ tokens s' = tokens s /\
  (current s' = current s <-> current s = "0").
Proof.
  intros Hr Ho Hd.
  assert (Hc : command = "⌫" \/ command = "Backspace").
  { unfold dispatcher in Hd.
    repeat match type of Hd with
    | (if (command =? ?k)%string then _ else _) = _ =>
        destruct (String.eqb_spec command k) as [-> | _];
        [try discriminate Hd; auto |]
    end. discriminate Hd. }
  assert (E : process command s = (Ret (get_display (_backspace s)), _backspace s))
    by (destruct Hc as [-> | ->]; reflexivity).
  unfold after. rewrite E. cbn [fst snd].
  apply reachable_invariant in Hr as (_ & He & _).
  assert (B : _backspace s = mkState (tokens s) "0" true (error (_reset_on_error s))).
  { unfold _backspace, _reset_on_error.
    destruct (truthy (error s)) eqn:Et.
    - destruct (He eq_refl) as (-> & _). reflexivity.
    - now rewrite Ho. }
  rewrite B. cbn [current overwrite tokens]. repeat split; congruence.
Qed.

Lemma backspace_on_overwrite_witness :
  reachable sum_shown /\ overwrite sum_shown = true /\
  current (after "Backspace" sum_shown) = "0" /\
  overwrite (after "Backspace" sum_shown) = true.
Proof.
  assert (Hr : reachable sum_shown) by (apply reachable_press; constructor).
  assert (Ho : overwrite sum_shown = true) by (vm_compute; reflexivity).
  split; [exact Hr | split; [exact Ho |]].
  destruct (backspace_on_overwrite "Backspace" sum_shown Hr Ho eq_refl)
    as (_ & H1 & H2 & _).
  exact (conj H1 H2).
Defined.

(** C10: in every reachable state [tokens] is empty or ends with an
    operator; a non-empty expression display ends with an operator; and at
    Equals the evaluation list of a non-empty [tokens] is [tokens] followed
    by the canonical form of [current]. *)
Theorem tokens_end_with_operator (s : CalculatorState) :
  reachable s ->
  (tokens s = [] \/ in_OPERATORS (List.last (tokens s) "") = true) /\
  (expression_text s <> "" ->
   exists p o, expression_text s = p ++ o /\ in_OPERATORS o = true) /\
  (tokens s <> [] ->
   _reset_on_error s = s /\
   evaluation_list s =
     (value <- _sanitize_number (current s) ;; Ret (tokens s ++ [value])%list)).
Proof.
  intros H. apply reachable_invariant in H as (Hp & He & _).
  assert (Hl : tokens s <> [] -> in_OPERATORS (List.last (tokens s) "") = true).
  { intros Hne. pose proof (pairs_ends _ Hp Hne) as E.
    unfold ends_with_operator in E. destruct (tokens s); [congruence | exact E]. }
  split; [| split].
  - destruct (tokens s) eqn:E; [now left | right].
    apply Hl. discriminate.
  - intros Hx. unfold expression_text in *.
    assert (Hne : tokens s <> []) by (intros E; rewrite E in Hx; now apply Hx).
    specialize (Hl Hne).
    rewrite (app_removelast_last "" Hne).
    destruct (List.removelast (tokens s)) as [| a l] eqn:El.
    + exists "", (List.last (tokens s) ""). split; [reflexivity | exact Hl].
    + rewrite concat_snoc by discriminate. eauto.
  - intros Hne. split.
    + unfold _reset_on_error. destruct (truthy (error s)) eqn:Et; [| reflexivity].
      destruct (He eq_refl) as (E & _). congruence.
    + apply evaluation_list_appends. now apply pairs_ends.
Qed.

Lemma tokens_end_with_operator_witness :
  reachable two_pending /\ List.last (tokens two_pending) "" = "*" /\
  (tokens two_pending = [] \/
   in_OPERATORS (List.last (tokens two_pending) "") = true).
Proof.
  assert (Hr : reachable two_pending) by (apply reachable_press; constructor).
  split; [exact Hr | split; [vm_compute; reflexivity |]].
  exact (proj1 (tokens_end_with_operator two_pending Hr)).
Defined.

(** * Further properties of the engine *)

(** ** Decimal numerals and their values *)

Lemma str_fuel_acc (f : nat) (n : Z) (acc : string) :
  str_fuel f n acc = str_fuel f n "" ++ acc.
Proof.
  revert n acc. induction f as [| f IH]; intros n acc; [reflexivity |].
  cbn [str_fuel]. destruct (n <? 10); [reflexivity |].
  rewrite IH, (IH _ (String _ "")), append_assoc. reflexivity.
Qed.

Lemma half_fuel (f : nat) (n : Z) :
  0 <= n < 2 ^ Z.of_nat (S (S f)) -> 0 <= n / 10 < 2 ^ Z.of_nat (S f).
Proof.
  intros Hn.
  rewrite (Nat2Z.inj_succ (S f)), Z.pow_succ_r in Hn by apply Nat2Z.is_nonneg.
  split; [apply Z.div_pos; lia | apply Z.div_lt_upper_bound; lia].
Qed.

(** The digits of a number do not depend on the fuel, once there is
    enough of it. *)
Lemma str_fuel_enough (f1 : nat) :
  forall (f2 : nat) (n : Z),
    0 <= n < 2 ^ Z.of_nat (S f1) -> n < 2 ^ Z.of_nat (S f2) ->
    str_fuel (S f1) n "" = str_fuel (S f2) n "".
Proof.
  induction f1 as [| f1 IH]; intros f2 n Hn Hn2.
  - change (2 ^ Z.of_nat 1) with 2 in Hn.
    cbn [str_fuel]. destruct (Z.ltb_spec n 10); [reflexivity | lia].
  - change (str_fuel (S (S f1)) n "")
      with (if n <? 10 then String (digit_char (n mod 10)) ""
            else str_fuel (S f1) (n / 10) (String (digit_char (n mod 10)) "")).
    destruct f2 as [| f2].
    + change (2 ^ Z.of_nat 1) with 2 in Hn2.
      cbn [str_fuel]. destruct (Z.ltb_spec n 10); [reflexivity | lia].
    + change (str_fuel (S (S f2)) n "")
        with (if n <? 10 then String (digit_char (n mod 10)) ""
              else str_fuel (S f2) (n / 10) (String (digit_char (n mod 10)) "")).
      destruct (n <? 10); [reflexivity |].
      rewrite (str_fuel_acc (S f1)), (str_fuel_acc (S f2)).
      f_equal. apply IH; [now apply half_fuel |].
      apply (half_fuel f2 n). lia.
Qed.

Lemma str_of_nat_digit (n : Z) :
  0 <= n < 10 -> str_of_nat n = String (digit_char n) "".
Proof.
  intros Hn. unfold str_of_nat. cbn [str_fuel].
  destruct (Z.ltb_spec n 10); [| lia]. now rewrite Z.mod_small.
Qed.

(** [str(n)] is [str(n // 10)] followed by the last digit. *)
Lemma str_of_nat_step (n : Z) :
  10 <= n ->
  str_of_nat n = str_of_nat (n / 10) ++ String (digit_char (n mod 10)) "".
Proof.
  intros Hn. unfold str_of_nat.
  pose proof (log2_fuel n ltac:(lia)) as Hf.
  assert (Hl : 3 <= Z.log2 n) by (apply Z.log2_le_pow2; simpl; lia).
  destruct (Z.to_nat (Z.log2 n)) as [| f] eqn:E; [lia |].
  change (str_fuel (S (S f)) n "")
    with (if n <? 10 then String (digit_char (n mod 10)) ""
          else str_fuel (S f) (n / 10) (String (digit_char (n mod 10)) "")).
  destruct (Z.ltb_spec n 10); [lia |].
  rewrite str_fuel_acc. f_equal.
  apply str_fuel_enough; [now apply half_fuel |].
  apply log2_fuel. apply Z.div_pos; lia.
Qed.

Lemma str_of_nat_snoc (m v : Z) :
  0 < m -> 0 <= v < 10 ->
  str_of_nat (10 * m + v) = str_of_nat m ++ String (digit_char v) "".
Proof.
  intros Hm Hv. rewrite str_of_nat_step by lia.
  replace ((10 * m + v) / 10) with m
    by (apply Z.div_unique with v; lia).
  replace ((10 * m + v) mod 10) with v
    by (apply Z.mod_unique with m; lia).
  reflexivity.
Qed.

(** every numeral ends with the digit of its value modulo 10 *)
Lemma str_of_nat_last (n : Z) :
  0 <= n -> exists p, str_of_nat n = p ++ String (digit_char (n mod 10)) "".
Proof.
  intros Hn. destruct (Z.lt_ge_cases n 10).
  - exists "". rewrite str_of_nat_digit, Z.mod_small by lia. reflexivity.
  - eexists. now apply str_of_nat_step.
Qed.

Lemma str_of_nat_zero (n : Z) : 0 <= n -> str_of_nat n = "0" -> n = 0.
Proof.
  intros Hn E. rewrite <- (int_of_str n Hn), E. reflexivity.
Qed.

Lemma str_times_ten (c : Z) (k : nat) :
  0 < c -> str_of_nat (c * 10 ^ Z.of_nat k) = str_of_nat c ++ repeat "0"%char k.
Proof.
  intros Hc. induction k as [| k IH].
  - rewrite Z.mul_1_r. cbn [repeat]. now rewrite append_nil_r.
  - rewrite Nat2Z.inj_succ, Z.pow_succ_r by apply Nat2Z.is_nonneg.
    assert (0 < 10 ^ Z.of_nat k) by (apply Z.pow_pos_nonneg; lia).
    replace (c * (10 * 10 ^ Z.of_nat k)) with (10 * (c * 10 ^ Z.of_nat k) + 0)
      by lia.
    rewrite str_of_nat_snoc, IH by nia.
    rewrite append_assoc. f_equal.
    clear. induction k as [| k IH]; [reflexivity |].
    cbn [repeat append]. f_equal. exact IH.
Qed.

Lemma int_acc_app (a b : string) (acc : Z) :
  int_acc (a ++ b) acc = int_acc b (int_acc a acc).
Proof.
  revert acc. induction a as [| c a IH]; intros acc; [reflexivity |].
  cbn [append int_acc]. apply IH.
Qed.

Lemma int_acc_shift (s : string) (acc : Z) :
  int_acc s acc = acc * 10 ^ len s + int_of_digits s.
Proof.
  unfold int_of_digits, len. revert acc.
  induction s as [| c s IH]; intros acc.
  - cbn [int_acc String.length]. change (10 ^ Z.of_nat 0) with 1. lia.
  - cbn [int_acc String.length].
    rewrite IH, (IH (10 * 0 + digit_val c)).
    rewrite Nat2Z.inj_succ, Z.pow_succ_r by apply Nat2Z.is_nonneg. lia.
Qed.

Lemma int_of_digits_app (a b : string) :
  int_of_digits (a ++ b) = int_of_digits a * 10 ^ len b + int_of_digits b.
Proof.
  unfold int_of_digits at 1. rewrite int_acc_app, int_acc_shift. reflexivity.
Qed.

Lemma int_of_repeat (k : nat) : int_of_digits (repeat "0"%char k) = 0.
Proof.
  unfold int_of_digits. induction k as [| k IH]; [reflexivity |].
  cbn [repeat int_acc]. exact IH.
Qed.

Lemma len_repeat (ch : ascii) (k : nat) : len (repeat ch k) = Z.of_nat k.
Proof.
  unfold len. f_equal. induction k as [| k IH]; [reflexivity |].
  cbn [repeat String.length]. now rewrite IH.
Qed.

Lemma len_app (a b : string) : len (a ++ b) = len a + len b.
Proof. unfold len. rewrite length_append. lia. Qed.

Lemma len_nonneg (s : string) : 0 <= len s.
Proof. unfold len. lia. Qed.

Lemma int_acc_nonneg (s : string) (acc : Z) : 0 <= acc -> 0 <= int_acc s acc.
Proof.
  revert acc. induction s as [| c s IH]; intros acc Ha; [exact Ha |].
  cbn [int_acc]. apply IH.
  assert (0 <= digit_val c)
    by (destruct c as [[] [] [] [] [] [] [] []]; simpl; lia).
  lia.
Qed.

Lemma int_of_digits_nonneg (s : string) : 0 <= int_of_digits s.
Proof. apply int_acc_nonneg. lia. Qed.

(** ** The number of digits *)

Lemma ndigits_unique (n d : Z) :
  0 < n -> 10 ^ (d - 1) <= n < 10 ^ d -> ndigits n = d.
Proof.
  intros Hn [Hlo Hhi].
  destruct (ndigits_spec n ltac:(lia)) as (H1 & H2 & _).
  pose proof (ndigits_lower n Hn) as H3.
  assert (Hd : 1 <= d).
  { destruct (Z.lt_ge_cases d 1) as [Hd | Hd]; [| exact Hd].
    exfalso. destruct (Z.lt_ge_cases d 0).
    - rewrite Z.pow_neg_r in Hhi by lia. lia.
    - assert (d = 0) as -> by lia. simpl in Hhi. lia. }
  destruct (Z.lt_trichotomy (ndigits n) d) as [Hlt | [E | Hgt]]; [| exact E |].
  - exfalso. assert (10 ^ ndigits n <= 10 ^ (d - 1))
      by (apply Z.pow_le_mono_r; lia). lia.
  - exfalso. assert (10 ^ d <= 10 ^ (ndigits n - 1))
      by (apply Z.pow_le_mono_r; lia). lia.
Qed.

Lemma ndigits_scaled (c j : Z) :
  0 < c -> 0 <= j -> ndigits (c * 10 ^ j) = ndigits c + j.
Proof.
  intros Hc Hj.
  destruct (ndigits_spec c ltac:(lia)) as (H1 & H2 & _).
  pose proof (ndigits_lower c Hc) as H3.
  assert (Hp : 0 < 10 ^ j) by (apply Z.pow_pos_nonneg; lia).
  apply ndigits_unique; [nia |].
  replace (ndigits c + j - 1) with (ndigits c - 1 + j) by lia.
  rewrite !Z.pow_add_r by lia. nia.
Qed.

Lemma len_str_fuel (f : nat) (n : Z) (acc : string) :
  0 <= n < 2 ^ Z.of_nat (S f) ->
  len (str_fuel (S f) n acc) = ndigits_fuel (S f) n + len acc.
Proof.
  revert n acc. induction f as [| f IH]; intros n acc Hn.
  - change (2 ^ Z.of_nat 1) with 2 in Hn.
    cbn [str_fuel ndigits_fuel]. destruct (Z.ltb_spec n 10); [| lia].
    unfold len. cbn [String.length]. lia.
  - change (str_fuel (S (S f)) n acc)
      with (if n <? 10 then String (digit_char (n mod 10)) acc
            else str_fuel (S f) (n / 10) (String (digit_char (n mod 10)) acc)).
    change (ndigits_fuel (S (S f)) n)
      with (if n <? 10 then 1 else 1 + ndigits_fuel (S f) (n / 10)).
    destruct (n <? 10).
    + unfold len. cbn [String.length]. lia.
    + rewrite IH by now apply half_fuel.
      unfold len. cbn [String.length]. lia.
Qed.

Lemma len_str (n : Z) : 0 <= n -> len (str_of_nat n) = ndigits n.
Proof.
  intros Hn. unfold str_of_nat, ndigits.
  rewrite len_str_fuel by now apply log2_fuel.
  unfold len. cbn [String.length]. lia.
Qed.

(** ** Which exceptions the helpers raise *)

Lemma fix_raises (d : Decimal) (e : exn) : Dec._fix d = Raise e -> e = Overflow.
Proof.
  unfold Dec._fix. cbv zeta.
  repeat match goal with
  | |- context [if ?b then _ else _] => destruct b
  end; congruence.
Qed.

Lemma normalize_raises (d : Decimal) (e : exn) :
  Dec.normalize d = Raise e -> e = Overflow.
Proof.
  unfold Dec.normalize. destruct (Dec._fix d) as [dup | e'] eqn:E; cbn [bind].
  - destruct (Dec.is_zero dup); [discriminate |].
    destruct (Dec.strip_zeros _ _ _). discriminate.
  - intros [= <-]. now apply fix_raises in E.
Qed.

Lemma format_decimal_trimmed (value : Decimal) :
  _format_decimal value =
  (n <- Dec.normalize value ;; Ret (trimmed (Dec.format_f n))).
Proof.
  unfold _format_decimal, trimmed.
  destruct (Dec.normalize value) as [n | e]; cbn [bind]; [| reflexivity].
  repeat match goal with
  | |- context [if ?b then _ else _] => destruct b
  end; reflexivity.
Qed.

Lemma format_decimal_raises (value : Decimal) (e : exn) :
  _format_decimal value = Raise e -> e = Overflow.
Proof.
  rewrite format_decimal_trimmed.
  destruct (Dec.normalize value) as [n | e'] eqn:E; cbn [bind]; [discriminate |].
  intros [= <-]. now apply normalize_raises in E.
Qed.

Lemma sanitize_raises (text : string) (e : exn) :
  _sanitize_number text = Raise e ->
  (e = ValueError /\ Dec.of_string text = Raise InvalidOperation) \/
  (e = Overflow /\ exists d, Dec.of_string text = Ret d).
Proof.
  unfold _sanitize_number.
  destruct (Dec.of_string text) as [d | e'] eqn:E.
  - intros H. apply format_decimal_raises in H. right. eauto.
  - apply of_string_raises in E as ->. intros [= <-]. now left.
Qed.

Lemma sanitize_returns (text value : string) :
  _sanitize_number text = Ret value ->
  exists d, Dec.of_string text = Ret d /\ _format_decimal d = Ret value.
Proof.
  unfold _sanitize_number.
  destruct (Dec.of_string text) as [d | []]; try discriminate. eauto.
Qed.

Lemma mul_raises (x y : Decimal) (e : exn) : Dec.mul x y = Raise e -> e = Overflow.
Proof. apply fix_raises. Qed.

Lemma add_raises (x y : Decimal) (e : exn) : Dec.add x y = Raise e -> e = Overflow.
Proof.
  unfold Dec.add. cbv zeta.
  match goal with |- context [if ?b then _ else _] => destruct b end;
    apply fix_raises.
Qed.

Lemma neg_raises (x : Decimal) (e : exn) : Dec.neg x = Raise e -> e = Overflow.
Proof. unfold Dec.neg. destruct (Dec.is_zero x); apply fix_raises. Qed.

Lemma div_raises (x y : Decimal) (e : exn) :
  Dec.is_zero y = false -> Dec.div x y = Raise e -> e = Overflow.
Proof.
  intros Hy. unfold Dec.div. cbv zeta. rewrite Hy.
  destruct (Dec.is_zero x); [apply fix_raises |].
  match goal with |- context [if ?b then _ else _] => destruct b end.
  - destruct (Dec.to_ideal _ _ _). apply fix_raises.
  - apply fix_raises.
Qed.

(** The evaluator raises no [SyntaxError]: that is the parser's. *)
Lemma visit_raises (node : Ast.expr) (e : exn) :
  visit node = Raise e -> e <> SyntaxError.
Proof.
  revert e. induction node as [l IHl op r IHr | op x IH | v]; intros e;
    cbn [visit].
  - destruct (visit l) as [a | e1]; cbn [bind];
      [| intros [= <-]; now apply IHl].
    destruct (visit r) as [b | e2]; cbn [bind];
      [| intros [= <-]; now apply IHr].
    destruct op; try (intros [= <-]; discriminate).
    + intros H. now apply add_raises in H as ->.
    + intros H. now apply add_raises in H as ->.
    + intros H. now apply mul_raises in H as ->.
    + destruct (Dec.is_zero b) eqn:Eb; [intros [= <-]; discriminate |].
      intros H. now apply div_raises in H as ->.
  - destruct (visit x) as [a | e1]; cbn [bind];
      [| intros [= <-]; now apply IH].
    destruct op; [discriminate |].
    intros H. now apply neg_raises in H as ->.
  - destruct v; intros H; now apply of_string_raises in H as ->.
Qed.

(** ** Decimals met by the engine have a non-negative coefficient *)

Lemma of_string_wf (text : string) (d : Decimal) :
  Dec.of_string text = Ret d -> wf d.
Proof.
  unfold Dec.of_string. destruct (Dec.split_sign text) as [sg body].
  destruct (span_digits body) as [ip r1].
  destruct (match r1 with
            | String "."%char r => span_digits r
            | _ => (EmptyString, r1)
            end) as [fp r2].
  destruct (ip ++ fp) as [| c ds]; [discriminate |].
  destruct (Dec.parse_exponent r2); [| discriminate].
  intros [= <-]. apply int_of_digits_nonneg.
Qed.

Lemma mul_wf (x y r : Decimal) : wf x -> wf y -> Dec.mul x y = Ret r -> wf r.
Proof.
  intros Hx Hy H. now destruct (mul_rounds x y r Hx Hy H) as (_ & H0 & _).
Qed.

Lemma add_wf (x y r : Decimal) : Dec.add x y = Ret r -> wf r.
Proof.
  intros H. pose proof (add_rounds x y r H) as G. cbv zeta in G.
  now destruct G as (_ & H0 & _).
Qed.

Lemma div_wf (x y r : Decimal) : wf x -> wf y -> Dec.div x y = Ret r -> wf r.
Proof.
  intros Hx Hy H. now destruct (div_rounds x y r Hx Hy H) as (_ & H0 & _).
Qed.

Lemma neg_wf (x r : Decimal) : wf x -> Dec.neg x = Ret r -> wf r.
Proof.
  unfold Dec.neg. intros Hx.
  destruct (Dec.is_zero x); intros H; eapply fix_wf; try exact H; exact Hx.
Qed.

Lemma visit_wf (node : Ast.expr) (d : Decimal) : visit node = Ret d -> wf d.
Proof.
  revert d. induction node as [l IHl op r IHr | op x IH | v]; intros d;
    cbn [visit].
  - destruct (visit l) as [a | e1]; cbn [bind]; [| discriminate].
    destruct (visit r) as [b | e2]; cbn [bind]; [| discriminate].
    specialize (IHl a eq_refl). specialize (IHr b eq_refl).
    destruct op; try discriminate.
    + apply add_wf.
    + apply add_wf.
    + now apply mul_wf.
    + destruct (Dec.is_zero b); [discriminate |]. now apply div_wf.
  - destruct (visit x) as [a | e1]; cbn [bind]; [| discriminate].
    specialize (IH a eq_refl).
    destruct op; [now intros [= <-] | now apply neg_wf].
  - destruct v; apply of_string_wf.
Qed.

Lemma safe_calculate_wf (expression : string) (d : Decimal) :
  safe_calculate expression = Ret d -> wf d.
Proof.
  unfold safe_calculate. destruct (strip expression); [apply of_string_wf |].
  destruct (Ast.parse _) as [tree | e]; cbn [bind]; [| discriminate].
  apply visit_wf.
Qed.

(** ** One call of [process], case by case *)

Lemma reset_clean (s : CalculatorState) :
  truthy (error s) = false -> _reset_on_error s = s.
Proof. unfold _reset_on_error. now intros ->. Qed.

Lemma reset_no_error (s : CalculatorState) :
  truthy (error (_reset_on_error s)) = false.
Proof.
  unfold _reset_on_error. destruct (truthy (error s)) eqn:E; [reflexivity | exact E].
Qed.

(** Every method but [_clear_all] starts with [_reset_on_error]; calling
    it beforehand changes nothing. *)
Lemma dispatch_reset (command : string) (s : CalculatorState) :
  recognized command = true ->
  dispatch command s = dispatch command (_reset_on_error s).
Proof.
  unfold dispatch, recognized.
  destruct (is_substring command "0123456789").
  { intros _. unfold _input_digit. now rewrite reset_idempotent. }
  destruct (command =? ".")%string.
  { intros _. unfold _input_decimal_point. now rewrite reset_idempotent. }
  destruct (in_OPERATORS command).
  { intros _. unfold _apply_operator. now rewrite reset_idempotent. }
  destruct (dispatcher command) as [[] |]; cbn [call orb]; intros Hr.
  - reflexivity.
  - unfold _clear_entry. now rewrite reset_idempotent.
  - unfold _calculate_result. now rewrite reset_idempotent.
  - unfold _percent. now rewrite reset_idempotent.
  - unfold _toggle_sign. now rewrite reset_idempotent.
  - unfold _backspace. now rewrite reset_idempotent.
  - discriminate.
Qed.

Lemma dispatch_unrecognized (command : string) (s : CalculatorState) :
  recognized command = false -> dispatch command s = (Ret tt, s).
Proof.
  unfold dispatch, recognized.
  destruct (is_substring command "0123456789"); [discriminate |].
  destruct (command =? ".")%string; [discriminate |].
  destruct (in_OPERATORS command); [discriminate |].
  destruct (dispatcher command); [discriminate | reflexivity].
Qed.

Lemma wf_minus_one : wf minus_one.
Proof. unfold wf. simpl. lia. Qed.

Lemma wf_hundred : wf hundred.
Proof. unfold wf. simpl. lia. Qed.

Lemma wf_zero : wf zero.
Proof. unfold wf. simpl. lia. Qed.

Lemma percent_base_wf (ts : list string) (d : Decimal) :
  percent_base ts = Ret d -> wf d.
Proof.
  unfold percent_base.
  destruct (Dec.of_string (second_to_last ts)) as [v | []] eqn:E;
    try discriminate; intros [= <-];
    [now apply of_string_wf in E | apply wf_zero].
Qed.

Lemma percent_base_raises (ts : list string) (e : exn) :
  percent_base ts = Raise e -> False.
Proof.
  unfold percent_base.
  destruct (Dec.of_string (second_to_last ts)) as [v | e'] eqn:E;
    [discriminate |].
  apply of_string_raises in E as ->. discriminate.
Qed.

Lemma outcome_input_digit (command : string) (s : CalculatorState) :
  truthy (error s) = false -> all_digits command = true ->
  outcome command s (Ret tt, _input_digit command s).
Proof.
  intros He Hd. unfold _input_digit. rewrite (reset_clean s He).
  destruct (overwrite s) eqn:Eo.
  - apply out_edit, edit_digit_first; auto.
  - destruct (String.eqb_spec (current s) "0") as [Ec | Ec].
    + apply out_edit, edit_digit_first; auto.
    + apply out_edit, edit_digit; auto.
Qed.

Lemma outcome_input_decimal_point (command : string) (s : CalculatorState) :
  truthy (error s) = false ->
  outcome command s (Ret tt, _input_decimal_point s).
Proof.
  intros He. unfold _input_decimal_point. rewrite (reset_clean s He).
  destruct (overwrite s) eqn:Eo.
  - apply out_edit, edit_point_first; auto.
  - destruct (contains_char "."%char (current s)) eqn:Ec; cbn [negb].
    + replace s with (mkState (tokens s) (current s) false (error s)) at 2
        by (destruct s; simpl in *; congruence).
      apply out_edit, edit_point_again; auto.
    + apply out_edit, edit_point; auto.
Qed.

Lemma outcome_apply_operator (command : string) (s : CalculatorState) :
  pairs (tokens s) = true -> truthy (error s) = false ->
  in_OPERATORS command = true ->
  outcome command s (_apply_operator command s).
Proof.
  intros Hp He Ho. rewrite (apply_operator_pairs command s Hp He).
  destruct (_sanitize_number (current s)) as [v | e] eqn:Es.
  - now apply out_operator.
  - now apply out_operator_raise.
Qed.

Lemma outcome_text (command : string) (s : CalculatorState) (ow : bool)
      (value : Decimal) :
  wf value ->
  outcome command s
    (match _format_decimal value with
     | Raise e => (Raise e, s)
     | Ret text => (Ret tt, mkState (tokens s) text ow (error s))
     end).
Proof.
  intros Hw. destruct (_format_decimal value) as [text | e] eqn:Ef.
  - apply out_edit. now apply edit_text with value.
  - apply format_decimal_raises in Ef as ->. apply out_overflow.
Qed.

Lemma outcome_calculate_result (command : string) (s : CalculatorState) :
  pairs (tokens s) = true -> truthy (error s) = false ->
  outcome command s (_calculate_result s).
Proof.
  intros Hp He. unfold _calculate_result. rewrite (reset_clean s He).
  destruct (tokens s) as [| t ts] eqn:Et.
  - destruct (_sanitize_number (current s)) as [v | e] eqn:Es.
    + destruct (sanitize_returns _ _ Es) as (d & Hd & Hf).
      rewrite <- Et. apply out_edit. apply edit_text with d; auto.
      now apply of_string_wf in Hd.
    + destruct (sanitize_raises _ _ Es) as [[-> H] | [-> _]].
      * now apply out_error_number.
      * apply out_overflow.
  - assert (Hne : tokens s <> []) by (rewrite Et; discriminate).
    rewrite <- Et in Hp.
    rewrite evaluation_list_appends
      by (apply pairs_ends; [exact Hp | exact Hne]).
    destruct (_sanitize_number (current s)) as [v | e] eqn:Es; cbn [bind].
    + destruct (safe_calculate (String.concat " " (tokens s ++ [v])))
        as [d | e] eqn:Ec.
      * destruct (_format_decimal d) as [text | e] eqn:Ef.
        -- now apply out_result with v d.
        -- apply format_decimal_raises in Ef as ->. apply out_overflow.
      * destruct e.
        -- apply out_error_expression with v ValueError; auto.
        -- now apply out_error_zero_division with v.
        -- apply out_error_expression with v InvalidOperation; auto.
        -- apply out_overflow.
        -- now apply out_syntax_error with v.
    + destruct (sanitize_raises _ _ Es) as [[-> H] | [-> _]].
      * now apply out_error_number.
      * apply out_overflow.
Qed.

Lemma outcome_toggle_sign (command : string) (s : CalculatorState) :
  truthy (error s) = false -> outcome command s (_toggle_sign s).
Proof.
  intros He. unfold _toggle_sign. rewrite (reset_clean s He).
  destruct (Dec.of_string (current s)) as [c | e] eqn:Ep; cbn [bind].
  - destruct (Dec.mul c minus_one) as [value | e] eqn:Em.
    + apply outcome_text.
      apply (mul_wf c minus_one); auto using wf_minus_one.
      now apply of_string_wf in Ep.
    + apply mul_raises in Em as ->. apply out_overflow.
  - pose proof (of_string_raises _ _ Ep) as ->. now apply out_error_number.
Qed.

Lemma outcome_percent (command : string) (s : CalculatorState) :
  truthy (error s) = false -> outcome command s (_percent s).
Proof.
  intros He. unfold _percent. rewrite (reset_clean s He).
  destruct (Dec.of_string (current s)) as [c | e] eqn:Ep.
  - pose proof (of_string_wf _ _ Ep) as Hc.
    match goal with
    | |- context [bind ?m _] =>
        destruct m as [value | e] eqn:Em; cbn [bind]
    end.
    + apply outcome_text.
      destruct ((2 <=? Z.of_nat (List.length (tokens s))) &&
                ends_with_operator (tokens s)).
      * destruct (percent_base (tokens s)) as [b | e] eqn:Eb; cbn [bind] in Em;
          [| discriminate].
        destruct (Dec.mul b c) as [p | e] eqn:Ebc; cbn [bind] in Em;
          [| discriminate].
        apply (div_wf p hundred); auto using wf_hundred.
        apply (mul_wf b c); auto. now apply percent_base_wf in Eb.
      * apply (div_wf c hundred); auto using wf_hundred.
    + assert (e = Overflow) as ->; [| apply out_overflow].
      destruct ((2 <=? Z.of_nat (List.length (tokens s))) &&
                ends_with_operator (tokens s)).
      * destruct (percent_base (tokens s)) as [b | e'] eqn:Eb; cbn [bind] in Em.
        -- destruct (Dec.mul b c) as [p | e'] eqn:Ebc; cbn [bind] in Em.
           ++ now apply div_raises in Em.
           ++ injection Em as <-. now apply mul_raises in Ebc.
        -- now apply percent_base_raises in Eb.
      * now apply div_raises in Em.
  - pose proof (of_string_raises _ _ Ep) as ->. now apply out_error_number.
Qed.

Lemma outcome_backspace (command : string) (s : CalculatorState) :
  truthy (error s) = false -> outcome command s (Ret tt, _backspace s).
Proof.
  intros He. unfold _backspace. rewrite (reset_clean s He).
  destruct (overwrite s) eqn:Eo; [apply out_edit, edit_zero |].
  destruct (Z.ltb_spec 1 (len (current s))); [| apply out_edit, edit_zero].
  destruct (String.eqb_spec (drop_last (current s)) "-");
    [apply out_edit, edit_zero |].
  destruct (String.eqb_spec (drop_last (current s)) "-0");
    [apply out_edit, edit_zero |].
  cbn [orb]. apply out_edit, edit_backspace; auto.
Qed.

(** A recognized command, sent to a state without an error, has one of the
    outcomes listed by [outcome]. *)
Lemma dispatch_outcome (command : string) (s : CalculatorState) :
  pairs (tokens s) = true -> truthy (error s) = false ->
  recognized command = true ->
  outcome command s (dispatch command s).
Proof.
  intros Hp He. unfold dispatch, recognized.
  destruct (is_substring command "0123456789") eqn:Ed.
  { intros _. apply outcome_input_digit; auto.
    now apply digit_command_digits. }
  destruct (command =? ".")%string.
  { intros _. now apply outcome_input_decimal_point. }
  destruct (in_OPERATORS command) eqn:Eo.
  { intros _. now apply outcome_apply_operator. }
  destruct (dispatcher command) as [[] |]; cbn [call orb]; intros Hr.
  - apply out_clear.
  - unfold _clear_entry. rewrite (reset_clean s He). apply out_edit, edit_zero.
  - now apply outcome_calculate_result.
  - now apply outcome_percent.
  - now apply outcome_toggle_sign.
  - now apply outcome_backspace.
  - discriminate.
Qed.

(** The same for any state that satisfies the invariant: the method works
    on the state [_reset_on_error] leaves. *)
Lemma process_outcome (command : string) (s : CalculatorState) :
  invariant s -> recognized command = true ->
  outcome command (_reset_on_error s) (dispatch command s).
Proof.
  intros H Hr. rewrite dispatch_reset by exact Hr.
  destruct (reset_cases s H) as (He & (Hp & _) & _).
  now apply dispatch_outcome.
Qed.

(** ** Stepping through a session *)

Lemma after_dispatch (command : string) (s : CalculatorState) :
  after command s = snd (dispatch command s).
Proof.
  unfold after, process. now destruct (dispatch command s) as [[[] | e] s'].
Qed.

Lemma process_dispatch (command : string) (s : CalculatorState) :
  fst (process command s) =
  match fst (dispatch command s) with
  | Ret _ => Ret (get_display (after command s))
  | Raise e => Raise e
  end.
Proof.
  unfold after, process. now destruct (dispatch command s) as [[[] | e] s'].
Qed.

Lemma after_unrecognized (command : string) (s : CalculatorState) :
  recognized command = false -> after command s = s.
Proof.
  intros H. now rewrite after_dispatch, dispatch_unrecognized.
Qed.

Lemma after_recognized (command : string) (s : CalculatorState) :
  invariant s -> recognized command = true ->
  exists r, dispatch command s = (r, after command s) /\
            outcome command (_reset_on_error s) (r, after command s).
Proof.
  intros H Hr. pose proof (process_outcome command s H Hr) as Ho.
  rewrite after_dispatch. destruct (dispatch command s) as [r s'].
  exists r. now split.
Qed.

Lemma reset_current (s : CalculatorState) :
  invariant s -> current (_reset_on_error s) = current s.
Proof.
  intros (_ & He & _). unfold _reset_on_error.
  destruct (truthy (error s)); [| reflexivity].
  now destruct (He eq_refl) as (_ & -> & _).
Qed.

Lemma reset_tokens (s : CalculatorState) :
  invariant s -> tokens (_reset_on_error s) = tokens s.
Proof. intros H. now destruct (reset_cases s H) as (_ & _ & Ht & _). Qed.

Lemma attainable_reachable (s : CalculatorState) : attainable s -> reachable s.
Proof. induction 1; [apply reach_init | now apply reach_step]. Qed.

Lemma truthy_messages (m : string) :
  In m [msg_number; msg_zero_division; msg_expression] -> truthy (Some m) = true.
Proof. intros [<- | [<- | [<- | []]]]; reflexivity. Qed.

(** ** The shape of the entry *)

Lemma entry_integer (sg : bool) (ip : string) :
  all_digits ip = true -> ip <> "" -> is_entry (sign_text sg ++ ip) = true.
Proof.
  intros Hd Hn. unfold is_entry.
  rewrite <- (append_nil_r ip), strip_minus_sign_text by assumption.
  rewrite append_nil_r, span_digits_all by assumption.
  now destruct ip.
Qed.

Lemma entry_fraction (sg : bool) (ip fp : string) :
  all_digits ip = true -> ip <> "" -> all_digits fp = true ->
  is_entry (sign_text sg ++ ip ++ "." ++ fp) = true.
Proof.
  intros Hd Hn Hf. unfold is_entry.
  rewrite strip_minus_sign_text by assumption.
  rewrite span_digits_app by (auto; reflexivity).
  destruct ip; [congruence |]. exact Hf.
Qed.

Lemma strip_minus_text (s : string) :
  exists sg, s = sign_text sg ++ strip_minus s.
Proof.
  destruct s as [| c r]; [now exists false |].
  destruct (Ascii.eqb_spec c "-"%char) as [-> | Hc]; [now exists true |].
  exists false. destruct c as [[] [] [] [] [] [] [] []]; try reflexivity.
  congruence.
Qed.

Lemma entry_cases (s : string) :
  is_entry s = true ->
  exists sg ip,
    all_digits ip = true /\ ip <> "" /\
    (s = sign_text sg ++ ip \/
     exists fp, all_digits fp = true /\ s = sign_text sg ++ ip ++ "." ++ fp).
Proof.
  unfold is_entry. destruct (strip_minus_text s) as [sg Es].
  destruct (span_digits (strip_minus s)) as [ip r1] eqn:E.
  apply span_digits_spec in E as [E Hd]. rewrite E in Es.
  destruct ip as [| c ip]; [discriminate |].
  destruct r1 as [| c1 r1].
  - intros _. exists sg, (String c ip). repeat split; [exact Hd | discriminate |].
    left. now rewrite append_nil_r in Es.
  - destruct (Ascii.eqb_spec c1 "."%char) as [-> | Hc].
    + intros Hf. exists sg, (String c ip).
      repeat split; [exact Hd | discriminate |]. right. now exists r1.
    + destruct c1 as [[] [] [] [] [] [] [] []]; try discriminate; congruence.
Qed.

Lemma plain_entry (t : string) : is_plain_number t = true -> is_entry t = true.
Proof.
  unfold is_plain_number, is_entry.
  destruct (span_digits (strip_minus t)) as [ip r1].
  destruct ip as [| c ip]; [discriminate |].
  destruct r1 as [| c1 r1]; [reflexivity |].
  destruct (Ascii.eqb_spec c1 "."%char) as [-> | Hc].
  - destruct (span_digits r1) as [fp r2] eqn:E.
    apply span_digits_spec in E as [-> Hf].
    destruct fp; [discriminate |]. destruct r2; [| discriminate].
    intros _. now rewrite append_nil_r.
  - destruct c1 as [[] [] [] [] [] [] [] []]; try discriminate; congruence.
Qed.

Lemma digits_entry (d : string) :
  all_digits d = true -> d <> "" -> is_entry d = true.
Proof. apply (entry_integer false). Qed.

Lemma entry_app_digits (old d : string) :
  is_entry old = true -> all_digits d = true -> is_entry (old ++ d) = true.
Proof.
  intros H Hd.
  destruct (entry_cases old H) as (sg & ip & Hi & Hn & [-> | (fp & Hf & ->)]).
  - rewrite append_assoc. apply entry_integer.
    + now rewrite all_digits_app, Hi, Hd.
    + destruct ip; [congruence | discriminate].
  - rewrite !append_assoc. apply entry_fraction; auto.
    now rewrite all_digits_app, Hf, Hd.
Qed.

Lemma contains_point_fraction (a fp : string) :
  contains_char "."%char (a ++ "." ++ fp) = true.
Proof.
  rewrite contains_char_app. cbn [append contains_char Ascii.eqb].
  simpl. now rewrite orb_true_r.
Qed.

Lemma entry_app_point (old : string) :
  is_entry old = true -> contains_char "."%char old = false ->
  is_entry (old ++ ".") = true.
Proof.
  intros H Hc.
  destruct (entry_cases old H) as (sg & ip & Hi & Hn & [-> | (fp & Hf & ->)]).
  - rewrite append_assoc. now apply entry_fraction.
  - rewrite <- append_assoc, contains_point_fraction in Hc. discriminate.
Qed.

Lemma drop_last_app (a b : string) :
  b <> "" -> drop_last (a ++ b) = a ++ drop_last b.
Proof.
  intros Hb. induction a as [| c a IH]; [reflexivity |].
  cbn [append]. change (drop_last (String c (a ++ b)))
    with (match a ++ b with
          | EmptyString => EmptyString
          | String _ _ => String c (drop_last (a ++ b))
          end).
  destruct (a ++ b) eqn:E.
  - destruct a; [simpl in E; congruence | discriminate].
  - now rewrite IH.
Qed.

Lemma all_digits_drop_last (s : string) :
  all_digits s = true -> all_digits (drop_last s) = true.
Proof.
  induction s as [| c s IH]; [reflexivity |].
  cbn [all_digits]. intros H. apply andb_true_iff in H as [Hc Hs].
  destruct s as [| c' s']; [reflexivity |].
  change (drop_last (String c (String c' s')))
    with (String c (drop_last (String c' s'))).
  cbn [all_digits]. rewrite Hc. now apply IH.
Qed.

Lemma entry_drop_last (old : string) :
  is_entry old = true -> 1 < len old -> drop_last old <> "-" ->
  is_entry (drop_last old) = true.
Proof.
  intros H Hl Hm.
  destruct (entry_cases old H) as (sg & ip & Hi & Hn & [-> | (fp & Hf & ->)]).
  - destruct ip as [| c [| c' ip]]; [congruence | |].
    + destruct sg; [now elim Hm | discriminate].
    + rewrite drop_last_app by discriminate.
      apply entry_integer; [now apply all_digits_drop_last |].
      discriminate.
  - destruct fp as [| cf fp].
    + rewrite <- append_assoc.
      rewrite drop_last_app by discriminate.
      cbn [drop_last]. rewrite append_nil_r. now apply entry_integer.
    + rewrite <- !append_assoc.
      rewrite drop_last_app by discriminate.
      rewrite !append_assoc. apply entry_fraction; auto.
      now apply all_digits_drop_last.
Qed.

Lemma split_sign_text (sg : bool) (ip r : string) :
  all_digits ip = true -> ip <> "" ->
  Dec.split_sign (sign_text sg ++ ip ++ r) = (sg, ip ++ r).
Proof.
  intros Hd Hn. destruct sg; [reflexivity |].
  destruct ip as [| c ip]; [congruence |].
  cbn [all_digits] in Hd. apply andb_true_iff in Hd as [Hc _].
  now apply split_sign_digit.
Qed.

(** [Decimal] accepts every entry, and reads the value off its digits. *)
Lemma of_string_integer (sg : bool) (ip : string) :
  all_digits ip = true -> ip <> "" ->
  Dec.of_string (sign_text sg ++ ip) = Ret (mkDec sg (int_of_digits ip) 0).
Proof.
  intros Hd Hn. unfold Dec.of_string.
  rewrite <- (append_nil_r ip) at 1.
  rewrite split_sign_text by assumption.
  rewrite append_nil_r, span_digits_all by assumption.
  rewrite append_nil_r. destruct ip; [congruence | reflexivity].
Qed.

Lemma of_string_fraction (sg : bool) (ip fp : string) :
  all_digits ip = true -> ip <> "" -> all_digits fp = true ->
  Dec.of_string (sign_text sg ++ ip ++ "." ++ fp) =
  Ret (mkDec sg (int_of_digits (ip ++ fp)) (- len fp)).
Proof.
  intros Hd Hn Hf. unfold Dec.of_string.
  rewrite split_sign_text by assumption.
  rewrite span_digits_app by (auto; reflexivity).
  cbn [append]. rewrite span_digits_all by assumption.
  destruct ip as [| c ip]; [congruence | reflexivity].
Qed.

Lemma entry_parses (t : string) :
  is_entry t = true -> exists d, Dec.of_string t = Ret d.
Proof.
  intros H.
  destruct (entry_cases t H) as (sg & ip & Hi & Hn & [-> | (fp & Hf & ->)]).
  - rewrite of_string_integer by assumption. eauto.
  - rewrite of_string_fraction by assumption. eauto.
Qed.

Lemma edits_entry (command old : string) (ow : bool) (cur : string) (ow' : bool) :
  command <> "" -> is_entry old = true ->
  edits command old ow cur ow' -> is_entry cur = true.
Proof.
  intros Hc Ho [Hd _ | Hd _ _ | _ | _ Hp | _ _ | | _ Hl Hm _ | value text o Hw Hf].
  - now apply digits_entry.
  - now apply entry_app_digits.
  - reflexivity.
  - now apply entry_app_point.
  - exact Ho.
  - reflexivity.
  - now apply entry_drop_last.
  - apply plain_entry. now apply format_decimal_plain in Hf.
Qed.

Lemma outcome_entry (command : string) (s : CalculatorState) (r : res unit)
      (s' : CalculatorState) :
  command <> "" -> is_entry (current s) = true ->
  outcome command s (r, s') -> is_entry (current s') = true.
Proof.
  intros Hc He Ho. inversion Ho; subst; cbn [current _set_error fresh];
    try reflexivity; try exact He.
  - eapply edits_entry; eauto.
  - apply plain_entry. eapply format_decimal_plain; eauto.
Qed.

Lemma attainable_entry (s : CalculatorState) :
  attainable s -> is_entry (current s) = true.
Proof.
  induction 1 as [| command s Hc Hs IH]; [reflexivity |].
  pose proof (reachable_invariant s (attainable_reachable s Hs)) as Hinv.
  destruct (recognized command) eqn:Er.
  - destruct (after_recognized command s Hinv Er) as (r & _ & Ho).
    apply (outcome_entry command (_reset_on_error s) r); auto.
    now rewrite reset_current.
  - now rewrite after_unrecognized.
Qed.

(** ** [normalize] and the text of a decimal *)

Ltac order_facts :=
  repeat match goal with
  | H : (_ >? _) = true |- _ => apply Z.gtb_lt in H
  | H : (_ >? _) = false |- _ => rewrite Z.gtb_ltb in H; apply Z.ltb_ge in H
  | H : (_ <? _) = true |- _ => apply Z.ltb_lt in H
  | H : (_ <? _) = false |- _ => apply Z.ltb_ge in H
  end.

(** The exponent of a rounded non-zero decimal is within the range of the
    context. *)
Lemma fix_bounds (d r : Decimal) :
  wf d -> Dec._fix d = Ret r -> Dec.coeff r <> 0 ->
  Dec.Etiny <= Dec.exp r /\ ndigits (Dec.coeff r) + Dec.exp r <= Dec.Emax + 1.
Proof.
  intros Hw H. destruct (fix_wf d r Hw H) as [_ H28]. revert H.
  destruct d as [sg c e]. unfold Dec._fix, Dec.is_zero.
  cbn [Dec.sign Dec.coeff Dec.exp].
  unfold Dec.Etop, Dec.Etiny, Dec.Emax, Dec.Emin, Dec.prec in *.
  destruct (Z.eqb_spec c 0) as [Hz | Hz].
  { intros [= <-]. cbn [Dec.coeff]. congruence. }
  set (n := ndigits c) in *.
  destruct (Z.gtb_spec (n + e - 28) (999999 - 28 + 1)) as [| Hov];
    [discriminate |].
  set (em := if n + e - 28 <? -999999 - 28 + 1
             then -999999 - 28 + 1 else n + e - 28).
  assert (Hem : em = Z.max (n + e - 28) (-1000026)).
  { unfold em. destruct (Z.ltb_spec (n + e - 28) (-999999 - 28 + 1)); lia. }
  clearbody em.
  destruct (Z.ltb_spec e em) as [Hlt | Hge].
  - match goal with
    | |- context [if ?g then em + 1 else em] =>
        set (ex := if g then em + 1 else em);
        assert (Hex : em <= ex <= em + 1) by (unfold ex; destruct g; lia);
        clearbody ex
    end.
    destruct (Z.gtb_spec ex (999999 - 28 + 1)); [discriminate |].
    intros [= <-] _. cbn [Dec.coeff Dec.exp] in *. lia.
  - intros [= <-] _. cbn [Dec.coeff Dec.exp] in *. fold n. lia.
Qed.

Lemma strip_zeros_spec (fuel : nat) :
  forall c e c' e',
    Dec.strip_zeros fuel c e = (c', e') ->
    exists j, 0 <= j <= Z.of_nat fuel /\ e' = e + j /\ c = c' * 10 ^ j /\
              (c' mod 10 <> 0 \/ Dec.Emax <= e' \/ j = Z.of_nat fuel).
Proof.
  induction fuel as [| f IH]; intros c e c' e'.
  - intros [= <- <-]. exists 0. simpl. repeat split; lia.
  - cbn [Dec.strip_zeros].
    destruct (Z.eqb_spec (c mod 10) 0) as [Hm | Hm]; cbn [andb].
    + destruct (Z.ltb_spec e Dec.Emax) as [He | He].
      * intros H. destruct (IH _ _ _ _ H) as (j & Hj & -> & Hc & Hs).
        exists (j + 1). rewrite Nat2Z.inj_succ.
        repeat split; try lia.
        rewrite Z.pow_add_r, Z.pow_1_r by lia.
        pose proof (Z.div_mod c 10 ltac:(lia)). lia.
      * intros [= <- <-]. exists 0. simpl. repeat split; try lia.
    + intros [= <- <-]. exists 0. simpl. repeat split; try lia.
Qed.

Lemma normalize_normal (value n : Decimal) :
  wf value -> Dec.normalize value = Ret n ->
  normal n /\ wf n /\ Dec.sign n = Dec.sign value.
Proof.
  intros Hw. unfold Dec.normalize.
  destruct (Dec._fix value) as [dup | e] eqn:Ef; cbn [bind]; [| discriminate].
  destruct (fix_rounds value dup Hw Ef) as (Hs & Hc & H28 & _).
  unfold Dec.is_zero. destruct (Z.eqb_spec (Dec.coeff dup) 0) as [Hz | Hz].
  { intros [= <-]. cbn [Dec.sign Dec.coeff Dec.exp]. unfold normal, wf.
    cbn [Dec.coeff Dec.exp]. repeat split; auto; lia. }
  destruct (fix_bounds value dup Hw Ef Hz) as [Ht Hm].
  destruct (Dec.strip_zeros _ _ _) as [c e] eqn:Es. intros [= <-].
  destruct (strip_zeros_spec _ _ _ _ _ Es) as (j & Hj & -> & Hcj & Hstop).
  rewrite Z2Nat.id in * by (pose proof (ndigits_pos (Dec.coeff dup)); lia).
  assert (Hp : 0 < 10 ^ j) by (apply Z.pow_pos_nonneg; lia).
  assert (Hc0 : 0 < c) by nia.
  pose proof (ndigits_scaled c j Hc0 ltac:(lia)) as Hn.
  rewrite <- Hcj in Hn.
  pose proof (ndigits_pos c) as Hn1.
  unfold normal, wf. cbn [Dec.sign Dec.coeff Dec.exp].
  unfold Dec.prec, Dec.Etiny, Dec.Emax, Dec.Emin in *.
  repeat split; auto; try lia.
  right. repeat split; try lia.
  intros Hm0. destruct Hstop as [Hstop | [Hstop | Hstop]]; [lia | | lia].
  (* a coefficient that ends in 0 has two digits or more *)
  assert (10 <= c).
  { pose proof (Z.div_mod c 10 ltac:(lia)). lia. }
  assert (2 <= ndigits c); [| lia].
  destruct (Z.lt_ge_cases (ndigits c) 2); [| lia].
  destruct (ndigits_spec c ltac:(lia)) as (_ & Hlt & _).
  assert (ndigits c = 1) as E by lia. rewrite E in Hlt.
  change (10 ^ 1) with 10 in Hlt. lia.
Qed.

(** ** The text of a normal decimal *)

Lemma take_all (s : string) : take (String.length s) s = s.
Proof. induction s as [| c s IH]; [reflexivity |]. cbn. now rewrite IH. Qed.

Lemma drop_all (s : string) : drop (String.length s) s = "".
Proof. induction s as [| c s IH]; [reflexivity |]. exact IH. Qed.

Lemma length_drop (k : nat) (s : string) :
  String.length (drop k s) = (String.length s - k)%nat.
Proof.
  revert s. induction k as [| k IH]; intros s.
  - cbn [drop]. destruct s; cbn [String.length]; lia.
  - destruct s as [| c s]; [reflexivity |]. cbn [drop String.length]. apply IH.
Qed.

Lemma drop_app (k : nat) (a b : string) :
  (k <= String.length a)%nat -> drop k (a ++ b) = drop k a ++ b.
Proof.
  revert a. induction k as [| k IH]; intros a Hk.
  - now destruct a; destruct b.
  - destruct a as [| c a]; [simpl in Hk; lia |].
    cbn [append drop]. apply IH. simpl in Hk. lia.
Qed.

Lemma take_prefix (k : nat) (s : string) : exists r, s = take k s ++ r.
Proof. exists (drop k s). symmetry. apply take_drop. Qed.

Lemma sign_body (sg : bool) (body : string) :
  (if sg then "-" ++ body else body) = sign_text sg ++ body.
Proof. now destruct sg. Qed.

Lemma format_f_zero (sg : bool) : Dec.format_f (mkDec sg 0 0) = sign_text sg ++ "0".
Proof. now destruct sg. Qed.

Lemma format_f_integer (sg : bool) (c e : Z) :
  0 < c -> 0 <= e ->
  Dec.format_f (mkDec sg c e) = sign_text sg ++ str_of_nat c ++ zeros e.
Proof.
  intros Hc He. unfold Dec.format_f, Dec.is_zero.
  cbn [Dec.sign Dec.coeff Dec.exp].
  destruct (Z.eqb_spec c 0) as [| _]; [lia |].
  cbn [andb Dec.sign Dec.coeff Dec.exp].
  rewrite sign_body. f_equal.
  pose proof (len_str c ltac:(lia)) as Hl.
  pose proof (ndigits_pos c) as Hn.
  set (digits := str_of_nat c) in *. clearbody digits.
  destruct (Z.ltb_spec (e + len digits) 0); [lia |].
  destruct (Z.ltb_spec (len digits) (e + len digits)).
  - now replace (e + len digits - len digits) with e by lia.
  - assert (e = 0) as -> by lia.
    replace (Z.to_nat (0 + len digits)) with (String.length digits)
      by (unfold len; lia).
    rewrite take_all, drop_all.
    destruct digits; [exfalso; unfold len in Hl; simpl in Hl; lia |].
    cbn [zeros repeat Z.to_nat]. now rewrite append_nil_r.
Qed.

Lemma int_of_zero_app (s : string) :
  int_of_digits ("0" ++ s) = int_of_digits s.
Proof. rewrite int_of_digits_app. change (int_of_digits "0") with 0. lia. Qed.

Lemma int_of_repeat_app (k : nat) (s : string) :
  int_of_digits (repeat "0"%char k ++ s) = int_of_digits s.
Proof. rewrite int_of_digits_app, int_of_repeat. lia. Qed.

Lemma format_f_fraction (sg : bool) (c e : Z) :
  0 < c -> e < 0 ->
  exists ip q,
    Dec.format_f (mkDec sg c e) =
      sign_text sg ++ ip ++ "." ++ q ++ String (digit_char (c mod 10)) "" /\
    all_digits ip = true /\ ip <> "" /\ all_digits q = true /\
    int_of_digits (ip ++ q ++ String (digit_char (c mod 10)) "") = c /\
    len q + 1 = - e.
Proof.
  intros Hc He. unfold Dec.format_f, Dec.is_zero.
  cbn [Dec.sign Dec.coeff Dec.exp].
  destruct (Z.eqb_spec c 0) as [| _]; [lia |].
  cbn [andb Dec.sign Dec.coeff Dec.exp].
  pose proof (len_str c ltac:(lia)) as Hl.
  pose proof (ndigits_pos c) as Hn.
  pose proof (int_of_str c ltac:(lia)) as Hi.
  pose proof (all_digits_str_of_nat c) as Hd.
  destruct (str_of_nat_last c ltac:(lia)) as [p Hp].
  set (x := digit_char (c mod 10)) in *.
  rewrite Hp in Hl, Hi, Hd |- *. clear Hp.
  assert (Hdp : all_digits p = true).
  { rewrite all_digits_app in Hd. now apply andb_true_iff in Hd. }
  rewrite len_app in *. change (len (String x "")) with 1 in *.
  rewrite sign_body.
  destruct (Z.ltb_spec (e + (len p + 1)) 0) as [Hneg | Hpos].
  - set (z := zeros (- (e + (len p + 1)))).
    exists "0", (z ++ p).
    rewrite <- (append_assoc z p).
    destruct ((z ++ p) ++ String x "") eqn:E.
    { destruct (z ++ p); discriminate. }
    rewrite <- E. repeat split; try discriminate.
    + unfold z, zeros. now rewrite all_digits_app, all_digits_repeat.
    + rewrite int_of_zero_app, append_assoc. unfold z, zeros.
      now rewrite int_of_repeat_app.
    + unfold z, zeros. rewrite len_app, len_repeat. lia.
  - destruct (Z.ltb_spec (len p + 1) (e + (len p + 1))); [lia |].
    set (k := Z.to_nat (e + (len p + 1))).
    assert (Hk : (k <= String.length p)%nat) by (unfold k, len in *; lia).
    exists (match take k (p ++ String x "") with EmptyString => "0" | s => s end),
           (drop k p).
    rewrite (drop_app k p) by exact Hk.
    destruct (drop k p ++ String x "") eqn:E.
    { destruct (drop k p); discriminate. }
    rewrite <- E. repeat split.
    + destruct (take k (p ++ String x "")) eqn:Et; [reflexivity |].
      rewrite <- Et. now apply all_digits_take.
    + destruct (take k (p ++ String x "")); discriminate.
    + now apply all_digits_drop.
    + rewrite <- (drop_app k p) by exact Hk.
      destruct (take k (p ++ String x "")) eqn:Et.
      * rewrite <- (take_drop k (p ++ String x "")), Et in Hi.
        cbn [append] in Hi. now rewrite int_of_zero_app.
      * rewrite <- Et, take_drop. exact Hi.
    + unfold len. rewrite length_drop. unfold k, len in *. lia.
Qed.

Lemma trimmed_zero (sg : bool) : trimmed (sign_text sg ++ "0") = "0".
Proof. now destruct sg. Qed.

Lemma trimmed_integer (sg : bool) (ip : string) :
  all_digits ip = true -> ip <> "" -> ip <> "0" ->
  trimmed (sign_text sg ++ ip) = sign_text sg ++ ip.
Proof.
  intros Hd Hn Hz. unfold trimmed.
  assert (Hc : contains_char "."%char (sign_text sg ++ ip) = false).
  { rewrite contains_char_app, (contains_char_digits _ ip) by auto.
    now destruct sg. }
  rewrite Hc.
  destruct (String.eqb_spec (sign_text sg ++ ip) "") as [E | _].
  { destruct sg; [discriminate | now elim Hn]. }
  destruct (String.eqb_spec (sign_text sg ++ ip) "-") as [E | _].
  { destruct sg; [injection E as E; now elim Hn |].
    cbn [sign_text append] in E. now rewrite E in Hd. }
  destruct (String.eqb_spec (sign_text sg ++ ip) "-0") as [E | _];
    [| reflexivity].
  destruct sg; [injection E as E; now elim Hz |].
  cbn [sign_text append] in E. now rewrite E in Hd.
Qed.

Lemma rstrip_last (ch x : ascii) (q : string) :
  x <> ch -> rstrip ch (q ++ String x "") = q ++ String x "".
Proof.
  intros Hx. rewrite rstrip_app. cbn [rstrip].
  destruct (Ascii.eqb_spec x ch); [congruence | reflexivity].
Qed.

Lemma trimmed_fraction (sg : bool) (ip q : string) (x : ascii) :
  all_digits ip = true -> ip <> "" -> all_digits q = true ->
  is_digit x = true -> x <> "0"%char ->
  trimmed (sign_text sg ++ ip ++ "." ++ q ++ String x "") =
  sign_text sg ++ ip ++ "." ++ q ++ String x "".
Proof.
  intros Hd Hn Hq Hx Hx0. unfold trimmed.
  set (fp := q ++ String x "").
  assert (Hfp : all_digits fp = true).
  { unfold fp. rewrite all_digits_app, Hq. cbn [all_digits]. now rewrite Hx. }
  assert (Hfn : fp <> "") by (unfold fp; destruct q; discriminate).
  assert (Hc : contains_char "."%char (sign_text sg ++ ip ++ "." ++ fp) = true).
  { rewrite <- append_assoc. apply contains_point_fraction. }
  assert (Hr : rstrip "."%char
                 (rstrip "0"%char (sign_text sg ++ ip ++ "." ++ fp)) =
               sign_text sg ++ ip ++ "." ++ fp).
  { rewrite <- (append_assoc (sign_text sg) ip), rstrip_zero_point.
    unfold fp at 1. rewrite rstrip_last by exact Hx0. fold fp.
    now apply rstrip_point_frac. }
  rewrite Hc, Hr. cbv zeta.
  set (text := sign_text sg ++ ip ++ "." ++ fp) in *.
  destruct (String.eqb_spec text "") as [E | _];
    [rewrite E in Hc; discriminate |].
  destruct (String.eqb_spec text "-") as [E | _];
    [rewrite E in Hc; discriminate |].
  destruct (String.eqb_spec text "-0") as [E | _];
    [rewrite E in Hc; discriminate | reflexivity].
Qed.

Lemma str_positive (c : Z) :
  0 < c -> str_of_nat c <> "0" /\
           forall r, str_of_nat c ++ r <> "0".
Proof.
  intros Hc. destruct (str_of_nat_head c ltac:(lia)) as (ch & r & E & _ & Hz).
  rewrite E. split.
  - intros [= -> ->]. destruct (Hz eq_refl). lia.
  - intros r'. cbn [append]. intros [= -> _]. destruct (Hz eq_refl). lia.
Qed.

Lemma text_of_trimmed (n : Decimal) :
  wf n -> normal n -> text_of n (trimmed (Dec.format_f n)).
Proof.
  destruct n as [sg c e]. unfold wf, normal. cbn [Dec.coeff Dec.exp].
  intros Hw [[-> ->] | (Hc & H28 & Hm & Ht & He)].
  - rewrite format_f_zero, trimmed_zero. now apply text_zero.
  - destruct (Z.lt_ge_cases e 0) as [Hneg | Hpos].
    + destruct (format_f_fraction sg c e Hc Hneg)
        as (ip & q & -> & Hip & Hn & Hq & Hi & Hl).
      assert (Hx : digit_char (c mod 10) <> "0"%char).
      { apply digit_char_nonzero.
        pose proof (Z.mod_pos_bound c 10 ltac:(lia)). lia. }
      rewrite trimmed_fraction; auto using digit_char_is_digit.
      apply (text_fraction (mkDec sg c e) ip (q ++ String (digit_char (c mod 10)) ""));
        cbn [Dec.sign Dec.coeff Dec.exp]; auto.
      * rewrite all_digits_app, Hq. cbn [all_digits].
        now rewrite digit_char_is_digit.
      * destruct q; discriminate.
      * rewrite len_app. change (len (String (digit_char (c mod 10)) "")) with 1.
        lia.
    + rewrite format_f_integer by assumption.
      rewrite <- (append_assoc (sign_text sg)), append_assoc.
      rewrite trimmed_integer.
      * now apply (text_integer (mkDec sg c e)).
      * unfold zeros. now rewrite all_digits_app, all_digits_str_of_nat,
          all_digits_repeat.
      * pose proof (str_of_nat_nonempty c).
        destruct (str_of_nat c); [congruence | discriminate].
      * now apply str_positive.
Qed.

(** The text [_format_decimal] returns is the text of the normal form. *)
Lemma format_decimal_text (value : Decimal) (t : string) :
  wf value -> _format_decimal value = Ret t ->
  exists n, Dec.normalize value = Ret n /\ normal n /\ wf n /\
            Dec.sign n = Dec.sign value /\
            t = trimmed (Dec.format_f n) /\ text_of n t.
Proof.
  intros Hw. rewrite format_decimal_trimmed.
  destruct (Dec.normalize value) as [n | e] eqn:En; cbn [bind]; [| discriminate].
  intros [= <-]. destruct (normalize_normal value n Hw En) as (Hn & Hwn & Hs).
  exists n. repeat split; auto. now apply text_of_trimmed.
Qed.

(** ** Reading a formatted text back *)

Lemma strip_zeros_exact (j : nat) :
  forall (fuel : nat) (c e : Z),
    c mod 10 <> 0 -> (j <= fuel)%nat -> e + Z.of_nat j <= Dec.Emax ->
    Dec.strip_zeros fuel (c * 10 ^ Z.of_nat j) e = (c, e + Z.of_nat j).
Proof.
  induction j as [| j IH]; intros fuel c e Hm Hj He.
  - change (10 ^ Z.of_nat 0) with 1. rewrite Z.mul_1_r, Z.add_0_r.
    destruct fuel as [| f]; [reflexivity |]. cbn [Dec.strip_zeros].
    destruct (Z.eqb_spec (c mod 10) 0); [contradiction | reflexivity].
  - destruct fuel as [| f]; [lia |]. cbn [Dec.strip_zeros].
    rewrite Nat2Z.inj_succ in *. rewrite Z.pow_succ_r by apply Nat2Z.is_nonneg.
    replace (c * (10 * 10 ^ Z.of_nat j)) with (c * 10 ^ Z.of_nat j * 10) by lia.
    rewrite Z_mod_mult, Z.div_mul by lia. cbn [Z.eqb andb].
    destruct (Z.ltb_spec e Dec.Emax); [| lia].
    rewrite IH by lia. f_equal. lia.
Qed.

(** Rounding a coefficient that only carries trailing zeros drops zeros
    and nothing else. *)
Lemma fix_scaled (sg : bool) (c e j : Z) :
  0 < c -> ndigits c <= Dec.prec -> 0 <= j -> Dec.Etiny <= e - j ->
  ndigits c + e <= Dec.Emax + 1 ->
  Dec._fix (mkDec sg (c * 10 ^ j) (e - j)) =
  Ret (mkDec sg (c * 10 ^ Z.min j (Dec.prec - ndigits c))
             (e - Z.min j (Dec.prec - ndigits c))).
Proof.
  intros Hc H28 Hj Ht He.
  assert (Hp : 0 < 10 ^ j) by (apply Z.pow_pos_nonneg; lia).
  unfold Dec._fix, Dec.is_zero. cbn [Dec.sign Dec.coeff Dec.exp].
  destruct (Z.eqb_spec (c * 10 ^ j) 0) as [E | _]; [nia |].
  rewrite ndigits_scaled by lia.
  unfold Dec.Etop, Dec.Etiny, Dec.Emax, Dec.Emin, Dec.prec in *.
  pose proof (ndigits_pos c) as Hn1.
  set (n := ndigits c) in *.
  destruct (Z.gtb_spec (n + j + (e - j) - 28) (999999 - 28 + 1)); [lia |].
  destruct (Z.ltb_spec (n + j + (e - j) - 28) (-999999 - 28 + 1)) as [Hlow | Hlow].
  - destruct (Z.ltb_spec (e - j) (-999999 - 28 + 1)); [lia |].
    rewrite Z.min_l by lia. reflexivity.
  - destruct (Z.ltb_spec (e - j) (n + j + (e - j) - 28)) as [Hr | Hr].
    + destruct (Z.ltb_spec (n + j + (e - j) - (n + j + (e - j) - 28)) 0);
        [lia |].
      set (k := n + j + (e - j) - 28 - (e - j)).
      assert (Hk : k = j - (28 - n)) by (unfold k; lia).
      assert (Hpk : 0 < 10 ^ k) by (apply Z.pow_pos_nonneg; lia).
      assert (Hmul : c * 10 ^ j = c * 10 ^ (28 - n) * 10 ^ k).
      { rewrite <- Z.mul_assoc, <- Z.pow_add_r by lia. f_equal. f_equal. lia. }
      assert (Hup : Dec.round_up (c * 10 ^ j) k = false).
      { unfold Dec.round_up. cbv zeta. rewrite Hmul, Z_mod_mult.
        destruct (Z.gtb_spec (2 * 0) (10 ^ k)); [lia |].
        destruct (Z.eqb_spec (2 * 0) (10 ^ k)); [lia | reflexivity]. }
      rewrite Hup. cbn [andb].
      destruct (Z.gtb_spec (n + j + (e - j) - 28) (999999 - 28 + 1)); [lia |].
      rewrite Hmul, Z.div_mul by lia.
      rewrite Z.min_r by lia. f_equal. f_equal. lia.
    + rewrite Z.min_l by lia. reflexivity.
Qed.

Lemma normalize_scaled (sg : bool) (c e j : Z) :
  normal (mkDec sg c e) -> 0 < c -> 0 <= j -> Dec.Etiny <= e - j ->
  Dec.normalize (mkDec sg (c * 10 ^ j) (e - j)) = Ret (mkDec sg c e).
Proof.
  unfold normal. cbn [Dec.coeff Dec.exp].
  intros [[-> _] | (_ & H28 & Hm & Ht & He)] Hc Hj Hjt; [lia |].
  unfold Dec.normalize. rewrite fix_scaled by assumption. cbn [bind].
  pose proof (ndigits_pos c) as Hn1.
  set (j' := Z.min j (Dec.prec - ndigits c)).
  assert (Hj' : 0 <= j') by (unfold j', Dec.prec in *; lia).
  assert (Hp : 0 < 10 ^ j') by (apply Z.pow_pos_nonneg; lia).
  unfold Dec.is_zero. cbn [Dec.sign Dec.coeff Dec.exp].
  destruct (Z.eqb_spec (c * 10 ^ j') 0) as [E | _]; [nia |].
  rewrite ndigits_scaled by lia.
  rewrite <- (Z2Nat.id j') at 2 by exact Hj'.
  rewrite strip_zeros_exact; [f_equal; f_equal; lia | exact Hm | lia |].
  unfold Dec.Emax in *. lia.
Qed.

Lemma normalize_normal_id (n : Decimal) :
  normal n -> 0 < Dec.coeff n -> Dec.normalize n = Ret n.
Proof.
  destruct n as [sg c e]. cbn [Dec.coeff]. intros Hn Hc.
  pose proof (normalize_scaled sg c e 0 Hn Hc ltac:(lia)) as H.
  change (10 ^ 0) with 1 in H. rewrite Z.mul_1_r, Z.sub_0_r in H.
  apply H. destruct Hn as [[E _] | (_ & _ & _ & Ht & _)]; [simpl in E; lia |].
  exact Ht.
Qed.

Lemma of_string_text (n : Decimal) (t : string) :
  normal n -> text_of n t ->
  exists d, Dec.of_string t = Ret d /\
            Dec.normalize d = Ret (if Dec.coeff n =? 0 then zero else n).
Proof.
  intros Hn [Hz | Hc He | ip fp Hc He Hip Hin Hfp Hfn Hi Hl].
  - exists zero. rewrite Hz. split; reflexivity.
  - destruct n as [sg c e]. cbn [Dec.sign Dec.coeff Dec.exp] in *.
    destruct (Z.eqb_spec c 0); [lia |].
    rewrite of_string_integer.
    + eexists. split; [reflexivity |].
      unfold zeros.
      rewrite int_of_digits_app, int_of_str, int_of_repeat, len_repeat by lia.
      rewrite Z2Nat.id, Z.add_0_r by lia.
      replace 0 with (e - e) at 1 by lia.
      apply normalize_scaled; auto.
      destruct Hn as [[E _] | (_ & _ & _ & Ht & _)]; simpl in *; [lia |].
      unfold Dec.Etiny, Dec.Emin, Dec.prec in *. lia.
    + unfold zeros. now rewrite all_digits_app, all_digits_str_of_nat,
        all_digits_repeat.
    + pose proof (str_of_nat_nonempty c).
      destruct (str_of_nat c); [congruence | discriminate].
  - destruct n as [sg c e]. cbn [Dec.sign Dec.coeff Dec.exp] in *.
    destruct (Z.eqb_spec c 0); [lia |].
    rewrite of_string_fraction by assumption.
    eexists. split; [reflexivity |].
    rewrite Hi, Hl, Z.opp_involutive. now apply normalize_normal_id.
Qed.

(** A formatted text is read back as itself. *)
Lemma formatted_fixpoint (value : Decimal) (t : string) :
  wf value -> _format_decimal value = Ret t -> _sanitize_number t = Ret t.
Proof.
  intros Hw Hf.
  destruct (format_decimal_text value t Hw Hf) as (n & _ & Hn & Hwn & _ & Et & Ht).
  destruct (of_string_text n t Hn Ht) as (d & Hd & Hnd).
  unfold _sanitize_number. rewrite Hd, format_decimal_trimmed, Hnd. cbn [bind].
  f_equal. destruct (Z.eqb_spec (Dec.coeff n) 0) as [Hz | Hz]; [| now symmetry].
  destruct n as [sg c e]. cbn [Dec.coeff] in Hz. subst c.
  destruct Hn as [[_ E] | (Hc & _)]; cbn [Dec.coeff Dec.exp] in *; [| lia].
  subst e. rewrite Et, format_f_zero, trimmed_zero. reflexivity.
Qed.

(** ** Formatted texts as Python literals *)

Lemma tokenize_integer_digits (ds ip r : string) :
  all_digits ds = true ->
  Ast.tokenize (Some (ip, None)) (ds ++ r) = Ast.tokenize (Some (ip ++ ds, None)) r.
Proof.
  revert ip. induction ds as [| c ds IH]; intros ip Hd.
  - now rewrite append_nil_r.
  - simpl in Hd. apply andb_true_iff in Hd as [Hc Hd].
    cbn [append Ast.tokenize]. rewrite Hc, (IH _ Hd). unfold Ast.snoc.
    now rewrite append_assoc.
Qed.

Lemma tokenize_fraction_digits (ds ip fp : string) :
  all_digits ds = true ->
  Ast.tokenize (Some (ip, Some fp)) ds = Ast.flush (Some (ip, Some (fp ++ ds))).
Proof.
  revert fp. induction ds as [| c ds IH]; intros fp Hd.
  - now rewrite append_nil_r.
  - simpl in Hd. apply andb_true_iff in Hd as [Hc Hd].
    cbn [Ast.tokenize]. rewrite Hc, (IH _ Hd). unfold Ast.snoc.
    now rewrite append_assoc.
Qed.

Lemma tokenize_minus (s : string) :
  Ast.tokenize None ("-" ++ s) = Ast.emit None [Ast.MINUS] (Ast.tokenize None s).
Proof. reflexivity. Qed.

Lemma reads_signed (sg : bool) (w : string) (v : Ast.constant) :
  reads_as w (false, v) -> reads_as (sign_text sg ++ w) (sg, v).
Proof.
  unfold reads_as. destruct sg; [| trivial].
  cbn [sign_text]. rewrite tokenize_minus. intros ->. reflexivity.
Qed.

Lemma reads_fraction (sg : bool) (ip fp : string) :
  all_digits ip = true -> ip <> "" -> all_digits fp = true ->
  reads_as (sign_text sg ++ ip ++ "." ++ fp)
           (sg, Ast.CFloat (Float.to_double (int_of_digits (ip ++ fp)) (- len fp))).
Proof.
  intros Hi Hn Hf. apply reads_signed. unfold reads_as.
  destruct ip as [| c ip]; [congruence |].
  simpl in Hi. apply andb_true_iff in Hi as [Hc Hi].
  cbn [append Ast.tokenize]. rewrite Hc.
  rewrite tokenize_integer_digits by exact Hi.
  change (String c "" ++ ip) with (String c ip).
  change ("." ++ fp) with (String "."%char fp).
  cbn [Ast.tokenize is_digit Ascii.eqb Bool.eqb]. cbv beta iota.
  rewrite tokenize_fraction_digits by exact Hf.
  reflexivity.
Qed.

Lemma reads_integer (sg : bool) (n : Z) :
  0 <= n -> reads_as (sign_text sg ++ str_of_nat n) (sg, Ast.CInt n).
Proof. intros Hn. apply reads_signed. now apply reads_as_integer. Qed.

Lemma text_reads (n : Decimal) (t : string) :
  wf n -> text_of n t -> exists x, reads_as t x.
Proof.
  intros Hw [Hz | Hc He | ip fp Hc He Hip Hin Hfp Hfn Hi Hl].
  - exists (int_operand 0). reflexivity.
  - exists (Dec.sign n, Ast.CInt (Dec.coeff n * 10 ^ Dec.exp n)).
    unfold zeros. rewrite <- (Z2Nat.id (Dec.exp n)) at 2 by exact He.
    rewrite <- str_times_ten by exact Hc.
    apply reads_integer.
    assert (0 < 10 ^ Z.of_nat (Z.to_nat (Dec.exp n)))
      by (apply Z.pow_pos_nonneg; lia).
    nia.
  - eexists. now apply reads_fraction.
Qed.

Lemma formatted_reads (t : string) : formatted t -> exists x, reads_as t x.
Proof.
  intros (value & Hw & Hf).
  destruct (format_decimal_text value t Hw Hf) as (n & _ & _ & Hwn & _ & _ & Ht).
  now apply (text_reads n).
Qed.

Lemma formatted_plain (t : string) : formatted t -> is_plain_number t = true.
Proof. intros (value & _ & Hf). now apply format_decimal_plain in Hf. Qed.

Lemma sanitize_formatted (text value : string) :
  _sanitize_number text = Ret value -> formatted value.
Proof.
  intros H. destruct (sanitize_returns _ _ H) as (d & Hd & Hf).
  exists d. split; [now apply of_string_wf in Hd | exact Hf].
Qed.

(** ** The expression handed to the evaluator *)

Lemma operator_symbol (o : string) :
  in_OPERATORS o = true -> exists sym, o = symbol_text sym.
Proof.
  unfold in_OPERATORS. intros H.
  repeat (apply orb_true_iff in H as [H | H]);
    apply String.eqb_eq in H as ->;
    [exists plus | exists minus | exists times | exists over]; reflexivity.
Qed.

Lemma committed_chain (ts : list string) :
  committed ts ->
  forall v, formatted v ->
  exists first x0 rest,
    (ts ++ [v])%list = chain_words first (List.map fst rest) /\
    reads_as first x0 /\
    Forall (fun owx => reads_as (snd (fst owx)) (snd owx)) rest.
Proof.
  induction 1 as [| ts n o Hc IH Hn Ho]; intros v Hv.
  - destruct (formatted_reads v Hv) as [x Hx].
    exists v, x, []. repeat split; auto.
  - destruct (IH n Hn) as (first & x0 & rest & E & H0 & Hr).
    destruct (formatted_reads v Hv) as [x Hx].
    destruct (operator_symbol o Ho) as [sym ->].
    exists first, x0, (rest ++ [(sym, v, x)])%list. repeat split; auto.
    + rewrite <- app_assoc. cbn [app].
      change (ts ++ n :: symbol_text sym :: [v])%list
        with (ts ++ [n] ++ [symbol_text sym; v])%list.
      rewrite app_assoc, E. unfold chain_words.
      rewrite map_app, flat_map_app. reflexivity.
    + apply Forall_app. split; [exact Hr |]. now constructor.
Qed.

Lemma committed_pairs (ts : list string) : committed ts -> pairs ts = true.
Proof.
  induction 1 as [| ts n o Hc IH Hn Ho]; [reflexivity |].
  apply pairs_snoc; auto. now apply formatted_plain.
Qed.

(** ** Canonical texts *)

(** X1: on a text written with the characters the engine writes into
    [current] (digits, the point and the minus sign), [_sanitize_number]
    returns the positional text of the normalized value of its argument:
    [0] for zero, and otherwise the sign, the digits of a coefficient of
    at most 28 digits that does not end in 0, followed by the zeros of a
    non-negative exponent or cut by a decimal point that leaves as many
    fractional digits as a negative exponent asks for.  The text is a
    plain numeral, never in exponent notation, and never one of the
    operator symbols. *)
Theorem sanitize_number_canonical (text value : string) :
  over_alphabet text = true ->
  _sanitize_number text = Ret value ->
  exists d n,
    Dec.of_string text = Ret d /\ Dec.normalize d = Ret n /\
    normal n /\ text_of n value /\
    is_plain_number value = true /\ in_OPERATORS value = false.
Proof.
  intros _ H. destruct (sanitize_returns _ _ H) as (d & Hd & Hf).
  pose proof (of_string_wf _ _ Hd) as Hw.
  destruct (format_decimal_text d value Hw Hf) as (n & Hn & Hnn & _ & _ & _ & Ht).
  exists d, n. repeat split; auto.
  - now apply format_decimal_plain in Hf.
  - apply plain_not_operator. now apply format_decimal_plain in Hf.
Qed.

Lemma sanitize_number_canonical_witness :
  over_alphabet "-0012.500" = true /\
  _sanitize_number "-0012.500" = Ret "-12.5" /\
  exists d n,
    Dec.of_string "-0012.500" = Ret d /\ Dec.normalize d = Ret n /\
    normal n /\ text_of n "-12.5" /\
    is_plain_number "-12.5" = true /\ in_OPERATORS "-12.5" = false.
Proof.
  assert (H : _sanitize_number "-0012.500" = Ret "-12.5")
    by (vm_compute; reflexivity).
  split; [reflexivity | split; [exact H |]].
  exact (sanitize_number_canonical "-0012.500" "-12.5" eq_refl H).
Defined.

(** X2: canonicalization is idempotent: a text [_sanitize_number] returns
    is returned unchanged when it is sanitized again. *)
Theorem sanitize_number_idempotent (text value : string) :
  _sanitize_number text = Ret value -> _sanitize_number value = Ret value.
Proof.
  intros H. destruct (sanitize_returns _ _ H) as (d & Hd & Hf).
  apply (formatted_fixpoint d); [now apply of_string_wf in Hd | exact Hf].
Qed.

Lemma sanitize_number_idempotent_witness :
  _sanitize_number "007.50" = Ret "7.5" /\ _sanitize_number "7.5" = Ret "7.5".
Proof.
  assert (H : _sanitize_number "007.50" = Ret "7.5") by (vm_compute; reflexivity).
  split; [exact H |]. exact (sanitize_number_idempotent _ _ H).
Defined.

(** ** What a session keeps *)

Lemma reset_error_none (s : CalculatorState) :
  error s = None \/
    (exists m, In m [msg_number; msg_zero_division; msg_expression] /\
               s = _set_error m s) ->
  error (_reset_on_error s) = None.
Proof.
  unfold _reset_on_error. intros [E | (m & Hm & E)].
  - now rewrite E.
  - rewrite E. cbn [error _set_error]. now rewrite (truthy_messages m Hm).
Qed.

Lemma reachable_error (s : CalculatorState) :
  reachable s ->
  error s = None \/
  exists m, In m [msg_number; msg_zero_division; msg_expression] /\
            s = mkState [] "0" true (Some m).
Proof.
  induction 1 as [| command s Hs IH]; [now left |].
  pose proof (reachable_invariant s Hs) as Hinv.
  assert (He : error (_reset_on_error s) = None).
  { apply reset_error_none. destruct IH as [E | (m & Hm & E)]; [now left |].
    right. exists m. split; [exact Hm |]. rewrite E at 1. reflexivity. }
  destruct (recognized command) eqn:Er;
    [| now rewrite after_unrecognized].
  destruct (after_recognized command s Hinv Er) as (r & _ & Ho).
  inversion Ho; subst; cbn [error fresh]; auto; right.
  - exists msg_number. cbn. auto.
  - exists msg_zero_division. cbn. auto.
  - exists msg_expression. cbn. auto.
Qed.

Lemma reachable_reset_error (s : CalculatorState) :
  reachable s -> error (_reset_on_error s) = None.
Proof.
  intros Hr. apply reset_error_none.
  destruct (reachable_error s Hr) as [E | (m & Hm & E)]; [now left |].
  right. exists m. split; [exact Hm |]. rewrite E at 1. reflexivity.
Qed.

(** X3: a reachable state carries no error, or it is exactly the state
    [_set_error] leaves: no tokens, [current] "0", [overwrite] set, and one
    of the three messages of the engine. *)
Theorem error_state_shape (s : CalculatorState) :
  reachable s ->
  error s = None \/
  exists m, In m [msg_number; msg_zero_division; msg_expression] /\
            s = mkState [] "0" true (Some m).
Proof. apply reachable_error. Qed.

Lemma error_state_shape_witness :
  reachable divided_by_zero /\
  divided_by_zero = mkState [] "0" true (Some msg_zero_division) /\
  (error divided_by_zero = None \/
   exists m, In m [msg_number; msg_zero_division; msg_expression] /\
             divided_by_zero = mkState [] "0" true (Some m)).
Proof.
  assert (Hr : reachable divided_by_zero) by (apply reachable_press; constructor).
  split; [exact Hr | split; [vm_compute; reflexivity |]].
  exact (error_state_shape divided_by_zero Hr).
Defined.

(** X4: no call of [process] edits or removes a single committed token.
    After any command, [tokens] is what it was, or empty, or what it was
    followed by the canonical form of [current] and the operator that was
    sent: an operator is never put in the place of the pending one. *)
Theorem tokens_grow_or_clear (command : string) (s : CalculatorState) :
  reachable s ->
  tokens (after command s) = tokens s \/
  tokens (after command s) = [] \/
  (in_OPERATORS command = true /\
   exists v, _sanitize_number (current s) = Ret v /\
             tokens (after command s) = (tokens s ++ [v; command])%list).
Proof.
  intros Hs. pose proof (reachable_invariant s Hs) as Hinv.
  destruct (recognized command) eqn:Er;
    [| left; now rewrite after_unrecognized].
  destruct (after_recognized command s Hinv Er) as (r & _ & Ho).
  pose proof (reset_tokens s Hinv) as Et.
  pose proof (reset_current s Hinv) as Ec.
  inversion Ho; subst; cbn [tokens fresh _set_error]; auto.
  right. right. split; [assumption |]. exists v. split; congruence.
Qed.

Lemma tokens_grow_or_clear_witness :
  reachable pending_operator /\
  (tokens (after "*" pending_operator) = tokens pending_operator \/
   tokens (after "*" pending_operator) = [] \/
   (in_OPERATORS "*" = true /\
    exists v, _sanitize_number (current pending_operator) = Ret v /\
              tokens (after "*" pending_operator) =
                (tokens pending_operator ++ [v; "*"])%list)).
Proof.
  assert (Hr : reachable pending_operator) by (apply reachable_press; constructor).
  split; [exact Hr |]. exact (tokens_grow_or_clear "*" pending_operator Hr).
Defined.

Lemma outcome_committed (command : string) (s : CalculatorState) (r : res unit)
      (s' : CalculatorState) :
  committed (tokens s) -> outcome command s (r, s') -> committed (tokens s').
Proof.
  intros Hc Ho. inversion Ho; subst; cbn [tokens fresh _set_error];
    auto using committed_nil.
  apply committed_snoc; auto. eapply sanitize_formatted; eauto.
Qed.

Lemma reachable_committed (s : CalculatorState) :
  reachable s -> committed (tokens s).
Proof.
  induction 1 as [| command s Hs IH]; [apply committed_nil |].
  pose proof (reachable_invariant s Hs) as Hinv.
  destruct (recognized command) eqn:Er;
    [| now rewrite after_unrecognized].
  destruct (after_recognized command s Hinv Er) as (r & _ & Ho).
  apply (outcome_committed command (_reset_on_error s) r); auto.
  now rewrite reset_tokens.
Qed.

(** The list Equals evaluates in a reachable state is a chain of words
    the tokenizer reads one by one. *)
Lemma reachable_chain (s : CalculatorState) (v : string) :
  reachable s -> _sanitize_number (current s) = Ret v ->
  exists first x0 rest,
    (tokens s ++ [v])%list = chain_words first (List.map fst rest) /\
    reads_as first x0 /\
    Forall (fun owx => reads_as (snd (fst owx)) (snd owx)) rest.
Proof.
  intros Hr Hv. apply committed_chain; [now apply reachable_committed |].
  now apply (sanitize_formatted (current s)).
Qed.

(** X5: every token of a reachable state is an operator symbol or a number
    in canonical form: a text [_format_decimal] returned, which
    [_sanitize_number] returns unchanged and the Python tokenizer reads as
    one number, behind a minus sign or not. *)
Theorem tokens_are_canonical (s : CalculatorState) (t : string) :
  reachable s -> In t (tokens s) ->
  in_OPERATORS t = true \/
  (formatted t /\ _sanitize_number t = Ret t /\ exists x, reads_as t x).
Proof.
  intros Hs. apply reachable_committed in Hs.
  induction Hs as [| ts n o Hc IH Hn Ho]; [intros [] |].
  intros Hin. apply in_app_or in Hin as [Hin | [<- | [<- | []]]]; auto.
  right. split; [exact Hn | split].
  - destruct Hn as (value & Hw & Hv). now apply (formatted_fixpoint value).
  - now apply formatted_reads.
Qed.

Lemma tokens_are_canonical_witness :
  reachable two_pending /\ In "12" (tokens two_pending) /\
  _sanitize_number "12" = Ret "12".
Proof.
  assert (Hr : reachable two_pending) by (apply reachable_press; constructor).
  assert (Hi : In "12" (tokens two_pending)) by (vm_compute; auto).
  split; [exact Hr | split; [exact Hi |]].
  destruct (tokens_are_canonical two_pending "12" Hr Hi) as [H | (_ & H & _)];
    [discriminate H | exact H].
Defined.

(** X6: a second operator does not replace the pending one.  Sent right
    after an operator, an operator commits the canonical form of [current]
    once more and is appended behind it. *)
Theorem second_operator_commits_again (o1 o2 v : string) (s : CalculatorState) :
  reachable s -> truthy (error s) = false ->
  in_OPERATORS o1 = true -> in_OPERATORS o2 = true ->
  _sanitize_number (current s) = Ret v ->
  press [o1; o2] s =
  mkState (tokens s ++ [v; o1; v; o2]) (current s) true (error s).
Proof.
  intros Hs He H1 H2 Hv.
  pose proof (reachable_invariant s Hs) as (Hp & _).
  assert (E : forall o st, in_OPERATORS o = true ->
                after o st = snd (_apply_operator o st)).
  { intros o st Ho. rewrite after_dispatch. unfold dispatch. rewrite Ho.
    destruct (is_substring o "0123456789") eqn:Ed.
    - apply digit_command_digits in Ed.
      unfold in_OPERATORS in Ho.
      repeat (apply orb_true_iff in Ho as [Ho | Ho]);
        apply String.eqb_eq in Ho as ->; discriminate.
    - destruct (String.eqb_spec o ".") as [-> | _]; [discriminate | reflexivity]. }
  cbn [press List.fold_left]. rewrite !E by assumption.
  rewrite (apply_operator_pairs o1 s Hp He), Hv. cbn [snd].
  rewrite apply_operator_pairs; cbn [tokens current error];
    [| apply pairs_snoc; auto; now apply sanitize_plain in Hv | exact He].
  rewrite Hv. cbn [snd]. now rewrite <- app_assoc.
Qed.

Lemma second_operator_commits_again_witness :
  reachable (press ["5"] fresh) /\
  press ["5"; "+"; "*"] fresh = mkState ["5"; "+"; "5"; "*"] "5" true None.
Proof.
  assert (Hr : reachable (press ["5"] fresh)) by (apply reachable_press; constructor).
  split; [exact Hr |].
  exact (second_operator_commits_again "+" "*" "5" (press ["5"] fresh) Hr
           eq_refl eq_refl eq_refl eq_refl).
Defined.

(** ** Sessions without the empty command *)

Lemma attainable_entry_error (s : CalculatorState) :
  attainable s -> is_entry (current s) = true /\ error s <> Some msg_number.
Proof.
  induction 1 as [| command s Hc Hs [IHe IHm]]; [split; [reflexivity | discriminate] |].
  pose proof (attainable_reachable s Hs) as Hr.
  pose proof (reachable_invariant s Hr) as Hinv.
  destruct (recognized command) eqn:Er;
    [| now rewrite after_unrecognized].
  destruct (after_recognized command s Hinv Er) as (r & _ & Ho).
  assert (Hent : is_entry (current (_reset_on_error s)) = true)
    by now rewrite reset_current.
  split; [now apply (outcome_entry command (_reset_on_error s) r) |].
  pose proof (reachable_reset_error s Hr) as He.
  inversion Ho; subst; cbn [error fresh _set_error];
    try congruence; try discriminate.
  destruct (entry_parses _ Hent) as [d Hd]. congruence.
Qed.

(** X7: in a session in which no command is the empty string, [current]
    is at every moment a text [Decimal] accepts (an optional minus sign,
    digits, and possibly a point with digits after it), and the message of
    a number that cannot be parsed is never set. *)
Theorem current_always_parses (s : CalculatorState) :
  attainable s ->
  is_entry (current s) = true /\
  (exists d, Dec.of_string (current s) = Ret d) /\
  error s <> Some msg_number.
Proof.
  intros H. destruct (attainable_entry_error s H) as [He Hm].
  split; [exact He | split; [now apply entry_parses | exact Hm]].
Qed.

Lemma current_always_parses_witness :
  attainable (after "." (after "7" fresh)) /\
  current (after "." (after "7" fresh)) = "7." /\
  exists d, Dec.of_string (current (after "." (after "7" fresh))) = Ret d.
Proof.
  assert (Ha : attainable (after "." (after "7" fresh))).
  { apply attain_step; [discriminate |].
    apply attain_step; [discriminate | apply attain_init]. }
  split; [exact Ha | split; [reflexivity |]].
  exact (proj1 (proj2 (current_always_parses _ Ha))).
Defined.

Lemma attainable_press (commands : list string) (s : CalculatorState) :
  Forall (fun c => c <> "") commands -> attainable s ->
  attainable (press commands s).
Proof.
  revert s. induction commands as [| c cs IH]; intros s Hf Hs; [exact Hs |].
  inversion Hf; subst. cbn [press List.fold_left]. apply IH; [assumption |].
  now apply attain_step.
Qed.

Lemma dispatch_fresh_returns (command : string) :
  fst (dispatch command fresh) = Ret tt.
Proof.
  unfold dispatch.
  destruct (is_substring command "0123456789"); [reflexivity |].
  destruct (command =? ".")%string; [reflexivity |].
  destruct (in_OPERATORS command).
  { now rewrite apply_operator_pairs. }
  destruct (dispatcher command) as [[] |]; reflexivity.
Qed.

(** A call that raises leaves the engine as it found it. *)
Lemma raise_keeps_state (command : string) (s s' : CalculatorState) (e : exn) :
  reachable s -> dispatch command s = (Raise e, s') -> s' = s.
Proof.
  intros Hr Hd. pose proof (reachable_invariant s Hr) as Hinv.
  destruct (recognized command) eqn:Er;
    [| rewrite dispatch_unrecognized in Hd by exact Er; discriminate].
  destruct (truthy (error s)) eqn:Et.
  - exfalso. rewrite dispatch_reset in Hd by exact Er.
    unfold _reset_on_error in Hd. rewrite Et in Hd.
    pose proof (dispatch_fresh_returns command) as H. rewrite Hd in H.
    discriminate.
  - pose proof (process_outcome command s Hinv Er) as Ho.
    rewrite Hd, (reset_clean s Et) in Ho.
    inversion Ho; subst; reflexivity.
Qed.

Lemma attainable_escape (command : string) (s : CalculatorState) (e : exn) :
  attainable s -> fst (dispatch command s) = Raise e ->
  e = Overflow \/ e = SyntaxError.
Proof.
  intros Ha. pose proof (attainable_reachable s Ha) as Hr.
  pose proof (reachable_invariant s Hr) as Hinv.
  destruct (recognized command) eqn:Er;
    [| rewrite dispatch_unrecognized by exact Er; discriminate].
  destruct (after_recognized command s Hinv Er) as (r & -> & Ho).
  cbn [fst]. intros ->.
  destruct (attainable_entry_error s Ha) as [Hent _].
  rewrite <- (reset_current s Hinv) in Hent.
  set (s1 := _reset_on_error s) in *. clearbody s1.
  inversion Ho; subst; try (now left); try (now right).
  match goal with
  | H : _sanitize_number _ = Raise _ |- _ =>
      destruct (sanitize_raises _ _ H) as [[_ Hd] | [-> _]]; [| now left]
  end.
  destruct (entry_parses _ Hent) as [d Hd']. congruence.
Qed.

(** X8: in a session in which no command is the empty string, a call of
    [process] returns the display of the state it leaves, or it raises
    and leaves the state as it found it; the exception that escapes is
    never one of those the engine handles itself ([ValueError],
    [InvalidOperation], [ZeroDivisionError]). *)
Theorem handled_errors_never_escape (command : string) (s : CalculatorState) :
  attainable s ->
  process command s = (Ret (get_display (after command s)), after command s) \/
  exists e, process command s = (Raise e, s) /\
            e <> ValueError /\ e <> InvalidOperation /\ e <> ZeroDivisionError.
Proof.
  intros Ha. pose proof (attainable_escape command s) as H.
  pose proof (raise_keeps_state command s) as Hk.
  unfold after, process in *.
  destruct (dispatch command s) as [[[] | e] s'] eqn:Ed; cbn [fst snd] in *;
    [now left | right].
  exists e. rewrite (Hk s' e (attainable_reachable s Ha) eq_refl).
  split; [reflexivity |].
  destruct (H e Ha eq_refl) as [-> | ->]; repeat split; discriminate.
Qed.

Lemma handled_errors_never_escape_witness :
  attainable (press ["8"; "/"; "0"] fresh) /\
  process "=" (press ["8"; "/"; "0"] fresh) =
    (Ret ("", "0", Some msg_zero_division),
     mkState [] "0" true (Some msg_zero_division)).
Proof.
  assert (Ha : attainable (press ["8"; "/"; "0"] fresh)).
  { apply attainable_press; [| apply attain_init].
    repeat constructor; discriminate. }
  split; [exact Ha |].
  destruct (handled_errors_never_escape "=" _ Ha) as [H | (e & H & _)].
  - rewrite H. reflexivity.
  - exfalso. apply (f_equal fst) in H. vm_compute in H. discriminate.
Defined.

(** ** Editing the entry *)

Lemma count_char_app (ch : ascii) (a b : string) :
  count_char ch (a ++ b) = (count_char ch a + count_char ch b)%nat.
Proof.
  induction a as [| c a IH]; [reflexivity |].
  cbn [append count_char]. rewrite IH. lia.
Qed.

Lemma count_char_absent (ch : ascii) (s : string) :
  contains_char ch s = false -> count_char ch s = 0%nat.
Proof.
  induction s as [| c s IH]; [reflexivity |].
  cbn [contains_char count_char]. intros H.
  apply orb_false_iff in H as [-> H]. now rewrite IH.
Qed.

Lemma count_char_digits (s : string) :
  all_digits s = true -> count_char "."%char s = 0%nat.
Proof.
  intros H. apply count_char_absent. now apply contains_char_digits.
Qed.

Lemma count_char_drop_last (ch : ascii) (s : string) :
  (count_char ch (drop_last s) <= count_char ch s)%nat.
Proof.
  induction s as [| c s IH]; [reflexivity |].
  destruct s as [| c' s']; [cbn; lia |].
  change (drop_last (String c (String c' s')))
    with (String c (drop_last (String c' s'))).
  cbn [count_char] in *. lia.
Qed.

Lemma count_char_entry (t : string) :
  is_entry t = true -> (count_char "."%char t <= 1)%nat.
Proof.
  intros H.
  destruct (entry_cases t H) as (sg & ip & Hi & Hn & [-> | (fp & Hf & ->)]);
    rewrite !count_char_app, (count_char_digits ip Hi).
  - destruct sg; cbn; lia.
  - rewrite (count_char_digits fp Hf). destruct sg; cbn; lia.
Qed.

Lemma edits_one_point (command old : string) (ow : bool) (cur : string)
      (ow' : bool) :
  (count_char "."%char old <= 1)%nat ->
  edits command old ow cur ow' -> (count_char "."%char cur <= 1)%nat.
Proof.
  intros Ho [Hd _ | Hd _ _ | _ | _ Hp | _ _ | | _ Hl _ _ | value text o Hw Hf].
  - rewrite count_char_digits by assumption. lia.
  - rewrite count_char_app, (count_char_digits command) by assumption. lia.
  - cbn. lia.
  - rewrite count_char_app, count_char_absent by assumption. cbn. lia.
  - exact Ho.
  - cbn. lia.
  - pose proof (count_char_drop_last "."%char old). lia.
  - apply count_char_entry, plain_entry. now apply format_decimal_plain in Hf.
Qed.

(** X9: [current] never holds more than one decimal point, in any
    session. *)
Theorem one_decimal_point (s : CalculatorState) :
  reachable s -> (count_char "."%char (current s) <= 1)%nat.
Proof.
  induction 1 as [| command s Hs IH]; [cbn; lia |].
  pose proof (reachable_invariant s Hs) as Hinv.
  destruct (recognized command) eqn:Er;
    [| now rewrite after_unrecognized].
  destruct (after_recognized command s Hinv Er) as (r & _ & Ho).
  rewrite <- (reset_current s Hinv) in IH.
  inversion Ho; subst; cbn [current fresh _set_error];
    try exact IH; try (cbn; lia).
  - eapply edits_one_point; eauto.
  - apply count_char_entry, plain_entry. eapply format_decimal_plain; eauto.
Qed.

Lemma one_decimal_point_witness :
  reachable (press ["1"; "."; "5"; "."; "."; "2"] fresh) /\
  current (press ["1"; "."; "5"; "."; "."; "2"] fresh) = "1.52" /\
  (count_char "."%char (current (press ["1"; "."; "5"; "."; "."; "2"] fresh)) <= 1)%nat.
Proof.
  assert (Hr : reachable (press ["1"; "."; "5"; "."; "."; "2"] fresh))
    by (apply reachable_press; constructor).
  split; [exact Hr | split; [vm_compute; reflexivity |]].
  exact (one_decimal_point _ Hr).
Defined.

Lemma drop_last_nonempty (s : string) :
  1 < len s -> drop_last s <> "".
Proof.
  destruct s as [| c [| c' s]]; unfold len; cbn [String.length]; try lia.
  intros _. change (drop_last (String c (String c' s)))
    with (String c (drop_last (String c' s))). discriminate.
Qed.

(** X10: Backspace never leaves the entry empty: whatever the state,
    after [_backspace] the text of [current] is not the empty string, not
    a lone minus sign and not "-0". *)
Theorem backspace_leaves_a_number (s : CalculatorState) :
  current (_backspace s) <> "" /\ current (_backspace s) <> "-" /\
  current (_backspace s) <> "-0".
Proof.
  unfold _backspace. set (s1 := _reset_on_error s).
  destruct (overwrite s1); cbn [current]; [repeat split; discriminate |].
  destruct (Z.ltb_spec 1 (len (current s1))) as [Hl | _];
    cbn [current]; [| repeat split; discriminate].
  destruct (String.eqb_spec (drop_last (current s1)) "-") as [| Hm];
    cbn [orb current]; [repeat split; discriminate |].
  destruct (String.eqb_spec (drop_last (current s1)) "-0") as [| Hz];
    cbn [current]; [repeat split; discriminate |].
  repeat split; auto. now apply drop_last_nonempty.
Qed.

Lemma digit_key (c : ascii) :
  is_digit c = true -> is_substring (String c "") "0123456789" = true.
Proof.
  intros H. apply is_digit_cases in H.
  repeat (destruct H as [<- | H]; [reflexivity |]). destruct H.
Qed.

Lemma after_digit (c : ascii) (s : CalculatorState) :
  is_digit c = true -> after (String c "") s = _input_digit (String c "") s.
Proof.
  intros H. rewrite after_dispatch. unfold dispatch. now rewrite digit_key.
Qed.

Lemma drop_last_snoc (s : string) (c : ascii) : drop_last (s ++ String c "") = s.
Proof.
  rewrite drop_last_app by discriminate. cbn [drop_last]. apply append_nil_r.
Qed.

(** X11: a digit key followed by Backspace is a round trip.  In a state
    without error where a number is being typed ([overwrite] not set) and
    [current] is not "0" (which a digit would replace), nor empty, "-" or
    "-0", typing a digit and pressing Backspace gives the state back. *)
Theorem digit_then_backspace (c : ascii) (s : CalculatorState) :
  is_digit c = true -> truthy (error s) = false -> overwrite s = false ->
  current s <> "" -> current s <> "0" ->
  current s <> "-" -> current s <> "-0" ->
  press [String c ""; "⌫"] s = s.
Proof.
  intros Hc He Ho Hn Hz Hm Hmz. cbn [press List.fold_left].
  rewrite (after_digit c s Hc).
  change (after "⌫" ?st) with (_backspace st).
  unfold _input_digit. rewrite (reset_clean s He). cbv zeta. rewrite Ho.
  destruct (String.eqb_spec (current s) "0"); [contradiction |].
  unfold _backspace. rewrite reset_clean by exact He.
  cbv zeta. cbn [overwrite current tokens error]. rewrite drop_last_snoc.
  destruct (Z.ltb_spec 1 (len (current s ++ String c ""))) as [_ | Hl].
  - destruct (String.eqb_spec (current s) "-"); [contradiction |].
    destruct (String.eqb_spec (current s) "-0"); [contradiction |].
    cbn [orb]. destruct s; cbn in *; congruence.
  - exfalso. rewrite len_app in Hl. change (len (String c "")) with 1 in Hl.
    assert (0 < len (current s)); [| lia].
    unfold len. destruct (current s); [congruence | cbn; lia].
Qed.

Lemma digit_then_backspace_witness :
  is_digit "4"%char = true /\
  press ["4"; "⌫"] (press ["1"; "2"; "."] fresh) = press ["1"; "2"; "."] fresh.
Proof.
  split; [reflexivity |].
  apply (digit_then_backspace "4"%char (press ["1"; "2"; "."] fresh));
    vm_compute; congruence.
Defined.

Lemma digit_char_val (c : ascii) :
  is_digit c = true -> digit_char (digit_val c) = c /\ 0 <= digit_val c < 10.
Proof.
  intros H. apply is_digit_cases in H.
  repeat (destruct H as [<- | H]; [cbn; split; [reflexivity | lia] |]).
  destruct H.
Qed.

Lemma keys_cons (c : ascii) (r : string) :
  keys (String c r) = String c "" :: keys r.
Proof. reflexivity. Qed.

Lemma press_cons (c : string) (cs : list string) (s : CalculatorState) :
  press (c :: cs) s = press cs (after c s).
Proof. reflexivity. Qed.

Lemma press_app (a b : list string) (s : CalculatorState) :
  press (a ++ b) s = press b (press a s).
Proof. unfold press. apply fold_left_app. Qed.

(** typing on: the digits are appended, a lone "0" is replaced *)
Lemma typing_more (r : string) :
  forall (m : Z) (ts : list string) (err : option string),
    all_digits r = true -> 0 <= m -> truthy err = false ->
    press (keys r) (mkState ts (str_of_nat m) false err) =
    mkState ts (str_of_nat (int_acc r m)) false err.
Proof.
  induction r as [| c r IH]; intros m ts err Hd Hm He; [reflexivity |].
  cbn [all_digits] in Hd. apply andb_true_iff in Hd as [Hc Hd].
  destruct (digit_char_val c Hc) as [Ec Hv].
  rewrite keys_cons, press_cons, (after_digit c _ Hc).
  unfold _input_digit. rewrite reset_clean by exact He.
  cbv zeta. cbn [overwrite current tokens error int_acc].
  destruct (String.eqb_spec (str_of_nat m) "0") as [E | E].
  - apply str_of_nat_zero in E; [| exact Hm]. subst m.
    rewrite <- Ec at 1. rewrite <- str_of_nat_digit by exact Hv.
    rewrite IH by (auto; lia). reflexivity.
  - assert (0 < m).
    { destruct (Z.eq_dec m 0) as [-> | ]; [now elim E | lia]. }
    rewrite <- Ec at 1. rewrite <- str_of_nat_snoc by (auto; lia).
    rewrite IH by (auto; lia). reflexivity.
Qed.

Lemma typing_first (ds : string) (s : CalculatorState) :
  all_digits ds = true -> ds <> "" ->
  truthy (error s) = false -> overwrite s = true ->
  press (keys ds) s =
  mkState (tokens s) (str_of_nat (int_of_digits ds)) false (error s).
Proof.
  intros Hd Hn He Ho. destruct ds as [| c r]; [congruence |].
  cbn [all_digits] in Hd. apply andb_true_iff in Hd as [Hc Hd].
  destruct (digit_char_val c Hc) as [Ec Hv].
  rewrite keys_cons, press_cons, (after_digit c _ Hc).
  unfold _input_digit. rewrite reset_clean by exact He. cbv zeta. rewrite Ho.
  rewrite <- Ec at 1. rewrite <- str_of_nat_digit by exact Hv.
  rewrite typing_more by (auto; lia). reflexivity.
Qed.

(** the first digit resets an error by itself *)
Lemma typing_reset (ds : string) (s : CalculatorState) :
  all_digits ds = true -> ds <> "" ->
  press (keys ds) s = press (keys ds) (_reset_on_error s).
Proof.
  intros Hd Hn. destruct ds as [| c r]; [congruence |].
  cbn [all_digits] in Hd. apply andb_true_iff in Hd as [Hc _].
  rewrite keys_cons, !press_cons, !(after_digit c _ Hc).
  unfold _input_digit. now rewrite reset_idempotent.
Qed.

(** X12: typing digits.  When the digits of a text [ds] are sent one by
    one to a state that is waiting for a new entry ([overwrite] set, after
    the reset of an error), [current] becomes [str(int(ds))]: the digits
    typed without their leading zeros, and "0" when all of them are 0.
    [tokens] is untouched and [overwrite] is cleared. *)
Theorem typing_digits (ds : string) (s : CalculatorState) :
  all_digits ds = true -> ds <> "" ->
  overwrite (_reset_on_error s) = true ->
  press (keys ds) s =
  mkState (tokens (_reset_on_error s)) (str_of_nat (int_of_digits ds)) false
          (error (_reset_on_error s)).
Proof.
  intros Hd Hn Ho. rewrite typing_reset by assumption.
  apply typing_first; auto using reset_no_error.
Qed.

Lemma typing_digits_witness :
  all_digits "007" = true /\ "007" <> "" /\
  press ["0"; "0"; "7"] sum_shown = mkState [] "7" false None.
Proof.
  split; [reflexivity | split; [discriminate |]].
  exact (typing_digits "007" sum_shown eq_refl ltac:(discriminate) eq_refl).
Defined.

(** ** Equals and ToggleSign, twice *)

Lemma after_equals (s : CalculatorState) :
  after "=" s = snd (_calculate_result s).
Proof. rewrite after_dispatch. reflexivity. Qed.

Lemma calculate_result_reset (s : CalculatorState) :
  _calculate_result s = _calculate_result (_reset_on_error s).
Proof. unfold _calculate_result. now rewrite reset_idempotent. Qed.

Lemma calculate_result_shown (text : string) (err : option string) :
  truthy err = false -> formatted text ->
  _calculate_result (mkState [] text true err) =
  (Ret tt, mkState [] text true err).
Proof.
  intros He (value & Hw & Hf). unfold _calculate_result.
  rewrite reset_clean by exact He. cbn [tokens current error].
  now rewrite (formatted_fixpoint value text Hw Hf).
Qed.

(** Equals on a state without error: a second Equals changes nothing, as
    long as the first one did not end in an error state. *)
Lemma calculate_result_twice (s : CalculatorState) :
  pairs (tokens s) = true -> truthy (error s) = false ->
  truthy (error (snd (_calculate_result s))) = false ->
  snd (_calculate_result (snd (_calculate_result s))) = snd (_calculate_result s).
Proof.
  intros Hp He. unfold _calculate_result at 1 3 4.
  rewrite (reset_clean s He).
  destruct (tokens s) as [| t ts] eqn:Et.
  - destruct (_sanitize_number (current s)) as [v | e] eqn:Es.
    + intros _. cbn [snd]. rewrite calculate_result_shown; auto.
      now apply sanitize_formatted in Es.
    + destruct e; cbn [snd]; try discriminate; intros _;
        unfold _calculate_result; rewrite (reset_clean s He), Et, Es;
        reflexivity.
  - assert (Hne : tokens s <> []) by (rewrite Et; discriminate).
    rewrite <- Et in Hp.
    assert (Hl : evaluation_list s =
                 (value <- _sanitize_number (current s) ;;
                  Ret (tokens s ++ [value])%list))
      by (apply evaluation_list_appends, pairs_ends; auto).
    assert (Hsame : forall e,
               _calculate_result s = (Raise e, s) ->
               snd (_calculate_result s) = s) by (intros e ->; reflexivity).
    destruct (evaluation_list s) as [l | e] eqn:El.
    + destruct (safe_calculate (String.concat " " l)) as [d | e] eqn:Ec.
      * destruct (_format_decimal d) as [text | e] eqn:Ef.
        -- intros _. cbn [snd]. rewrite calculate_result_shown; auto.
           exists d. split; [now apply safe_calculate_wf in Ec | exact Ef].
        -- intros _. cbn [snd]. apply (Hsame e).
           unfold _calculate_result.
           now rewrite (reset_clean s He), Et, El, Ec, Ef.
      * destruct e; cbn [snd]; try discriminate; intros _;
          [apply (Hsame Overflow) | apply (Hsame SyntaxError)];
          unfold _calculate_result;
          now rewrite (reset_clean s He), Et, El, Ec.
    + destruct e; cbn [snd]; try discriminate; intros _;
        match goal with
        | |- snd (_calculate_result s) = s => idtac
        end;
        match type of El with
        | _ = Raise ?x => apply (Hsame x)
        end;
        unfold _calculate_result;
        now rewrite (reset_clean s He), Et, El.
Qed.

(** X13: Equals is idempotent.  In a reachable state, when Equals does
    not end in an error state, sending Equals once more leaves the state
    as it is: the result shown is already in canonical form. *)
Theorem equals_twice (s : CalculatorState) :
  reachable s -> truthy (error (after "=" s)) = false ->
  after "=" (after "=" s) = after "=" s.
Proof.
  intros Hr. pose proof (reachable_invariant s Hr) as Hinv.
  destruct (reset_cases s Hinv) as (He & (Hp & _) & _).
  rewrite !after_equals, (calculate_result_reset s).
  now apply calculate_result_twice.
Qed.

Lemma equals_twice_witness :
  reachable (press ["1"; "2"; "+"; "3"] fresh) /\
  after "=" (press ["1"; "2"; "+"; "3"] fresh) = mkState [] "15" true None /\
  after "=" (after "=" (press ["1"; "2"; "+"; "3"] fresh)) =
    after "=" (press ["1"; "2"; "+"; "3"] fresh).
Proof.
  assert (Hr : reachable (press ["1"; "2"; "+"; "3"] fresh))
    by (apply reachable_press; constructor).
  split; [exact Hr | split; [vm_compute; reflexivity |]].
  apply (equals_twice _ Hr). vm_compute. reflexivity.
Defined.

(** [_fix] treats a decimal and its negation alike. *)
Lemma fix_sign (sg sg' : bool) (c e : Z) :
  Dec._fix (mkDec sg' c e) =
  match Dec._fix (mkDec sg c e) with
  | Ret r => Ret (mkDec sg' (Dec.coeff r) (Dec.exp r))
  | Raise x => Raise x
  end.
Proof.
  unfold Dec._fix, Dec.is_zero. cbn [Dec.sign Dec.coeff Dec.exp]. cbv zeta.
  repeat match goal with
  | |- context [if ?b then _ else _] => destruct b
  end; reflexivity.
Qed.

Lemma fix_idempotent (d r : Decimal) :
  wf d -> Dec._fix d = Ret r -> Dec._fix r = Ret r.
Proof.
  intros Hw H. destruct (fix_wf d r Hw H) as [Hr H28].
  destruct (Z.eq_dec (Dec.coeff r) 0) as [Hz | Hz].
  - (* a zero: the exponent is already within the range *)
    destruct d as [sg c e]. revert H.
    unfold Dec._fix at 1, Dec.is_zero. cbn [Dec.sign Dec.coeff Dec.exp].
    destruct (Z.eqb_spec c 0) as [-> | Hc].
    + intros [= <-]. unfold Dec._fix, Dec.is_zero.
      cbn [Dec.sign Dec.coeff Dec.exp Z.eqb]. f_equal. f_equal.
      unfold Dec.Etiny, Dec.Emax, Dec.Emin, Dec.prec. lia.
    + intros H. destruct r as [sr cr er]. cbn [Dec.coeff] in Hz. subst cr.
      unfold Dec._fix, Dec.is_zero. cbn [Dec.sign Dec.coeff Dec.exp Z.eqb].
      f_equal. f_equal.
      assert (Hb : Dec.Etiny <= er <= Dec.Etop); [| unfold Dec.Etop, Dec.Etiny,
        Dec.Emax, Dec.Emin, Dec.prec in *; lia].
      revert H. cbv zeta.
      unfold Dec.Etop, Dec.Etiny, Dec.Emax, Dec.Emin, Dec.prec.
      set (n := ndigits c).
      destruct (Z.gtb_spec (n + e - 28) (999999 - 28 + 1)); [discriminate |].
      set (em := if n + e - 28 <? -999999 - 28 + 1
                 then -999999 - 28 + 1 else n + e - 28).
      assert (Hem : em = Z.max (n + e - 28) (-1000026)).
      { unfold em. destruct (Z.ltb_spec (n + e - 28) (-999999 - 28 + 1)); lia. }
      clearbody em.
      destruct (Z.ltb_spec e em).
      * match goal with
        | |- context [if ?g then em + 1 else em] =>
            set (ex := if g then em + 1 else em);
            assert (Hex : em <= ex <= em + 1) by (unfold ex; destruct g; lia);
            clearbody ex
        end.
        destruct (Z.gtb_spec ex (999999 - 28 + 1)); [discriminate |].
        intros [= _ _ <-]. lia.
      * intros [= _ E _]. congruence.
  - destruct (fix_bounds d r Hw H Hz) as [Ht Hm].
    destruct r as [sr cr er]. cbn [Dec.coeff Dec.exp] in *.
    unfold wf in Hr. cbn [Dec.coeff] in Hr.
    pose proof (fix_scaled sr cr er 0 ltac:(lia) H28 ltac:(lia)) as G.
    rewrite Z.sub_0_r in G. specialize (G Ht Hm).
    pose proof (ndigits_pos cr).
    rewrite Z.min_l in G by lia.
    change (10 ^ 0) with 1 in G. now rewrite Z.mul_1_r, Z.sub_0_r in G.
Qed.

Lemma normalize_fix (d r : Decimal) :
  wf d -> Dec._fix d = Ret r -> Dec.normalize r = Dec.normalize d.
Proof.
  intros Hw H. unfold Dec.normalize.
  now rewrite (fix_idempotent d r Hw H), H.
Qed.

Lemma normalize_sign (sg sg' : bool) (c e : Z) :
  Dec.normalize (mkDec sg' c e) =
  match Dec.normalize (mkDec sg c e) with
  | Ret n => Ret (mkDec sg' (Dec.coeff n) (Dec.exp n))
  | Raise x => Raise x
  end.
Proof.
  unfold Dec.normalize. rewrite (fix_sign sg sg').
  destruct (Dec._fix (mkDec sg c e)) as [r | x]; cbn [bind]; [| reflexivity].
  unfold Dec.is_zero. cbn [Dec.sign Dec.coeff Dec.exp].
  destruct (Dec.coeff r =? 0); [reflexivity |].
  now destruct (Dec.strip_zeros _ _ _).
Qed.

Lemma normal_sign (sg sg' : bool) (c e : Z) :
  normal (mkDec sg c e) -> normal (mkDec sg' c e).
Proof. trivial. Qed.

Lemma trimmed_format_zero (sg sg' : bool) (e : Z) :
  normal (mkDec sg 0 e) ->
  trimmed (Dec.format_f (mkDec sg 0 e)) = trimmed (Dec.format_f (mkDec sg' 0 e)).
Proof.
  intros [[_ E] | (Hc & _)]; cbn [Dec.coeff Dec.exp] in *; [| lia].
  subst e. now rewrite !format_f_zero, !trimmed_zero.
Qed.

(** The text of the negation of a parsed number. *)
Lemma toggle_text (d : Decimal) (n : Decimal) :
  wf d -> Dec.normalize d = Ret n ->
  exists m,
    Dec.mul d minus_one = Ret m /\ wf m /\
    Dec.normalize m =
      Ret (mkDec (negb (Dec.sign d)) (Dec.coeff n) (Dec.exp n)).
Proof.
  intros Hw Hn. destruct d as [sg c e].
  unfold Dec.mul, minus_one. cbn [Dec.sign Dec.coeff Dec.exp].
  rewrite Z.mul_1_r, Z.add_0_r, xorb_true_r.
  pose proof (normalize_sign sg (negb sg) c e) as Hs. rewrite Hn in Hs.
  assert (Hw' : wf (mkDec (negb sg) c e)) by exact Hw.
  destruct (Dec._fix (mkDec (negb sg) c e)) as [m | x] eqn:Ef.
  - exists m. split; [reflexivity | split].
    + now apply (fix_wf _ m Hw' Ef).
    + now rewrite (normalize_fix _ m Hw' Ef).
  - unfold Dec.normalize in Hs. rewrite Ef in Hs. discriminate.
Qed.

Lemma toggle_sign_text (s : CalculatorState) (d n : Decimal) :
  truthy (error s) = false ->
  Dec.of_string (current s) = Ret d -> Dec.normalize d = Ret n ->
  _toggle_sign s =
  (Ret tt,
   mkState (tokens s)
     (trimmed (Dec.format_f (mkDec (negb (Dec.sign d)) (Dec.coeff n) (Dec.exp n))))
     false (error s)).
Proof.
  intros He Hd Hn. pose proof (of_string_wf _ _ Hd) as Hw.
  destruct (toggle_text d n Hw Hn) as (m & Hm & _ & Hnm).
  unfold _toggle_sign. rewrite (reset_clean s He), Hd. cbn [bind].
  rewrite Hm, format_decimal_trimmed, Hnm. reflexivity.
Qed.

Lemma after_toggle_sign (s : CalculatorState) :
  after "±" s = snd (_toggle_sign s).
Proof. rewrite after_dispatch. reflexivity. Qed.

(** X14: toggling the sign twice gives the canonical form of the entry.
    In a state without error whose [current] has the canonical form [v],
    ToggleSign sent twice leaves [v] in [current], clears [overwrite] and
    leaves the rest of the state as it was. *)
Theorem toggle_sign_twice (s : CalculatorState) (v : string) :
  truthy (error s) = false -> _sanitize_number (current s) = Ret v ->
  press ["±"; "±"] s = mkState (tokens s) v false (error s).
Proof.
  intros He Hv. destruct (sanitize_returns _ _ Hv) as (d & Hd & Hf).
  pose proof (of_string_wf _ _ Hd) as Hw.
  destruct (format_decimal_text d v Hw Hf) as (n & Hn & Hnn & Hwn & Hsn & Ev & _).
  cbn [press List.fold_left]. rewrite !after_toggle_sign.
  rewrite (toggle_sign_text s d n He Hd Hn). cbn [snd].
  destruct n as [sg c e]. cbn [Dec.sign Dec.coeff Dec.exp] in *.
  set (n1 := mkDec (negb (Dec.sign d)) c e).
  assert (Hn1 : normal n1) by exact Hnn.
  assert (Hw1 : wf n1) by exact Hwn.
  pose proof (text_of_trimmed n1 Hw1 Hn1) as Ht1.
  destruct (of_string_text n1 _ Hn1 Ht1) as (d' & Hd' & Hnd').
  set (s' := mkState (tokens s) (trimmed (Dec.format_f n1)) false (error s)).
  rewrite (toggle_sign_text s' d' _ He Hd' Hnd'). cbn [snd s' tokens error].
  f_equal. rewrite Ev.
  pose proof (of_string_wf _ _ Hd') as Hwd'.
  destruct (normalize_normal d' _ Hwd' Hnd') as (_ & _ & Hsd').
  unfold n1 in *. cbn [Dec.coeff] in *.
  destruct (Z.eqb_spec c 0) as [-> | Hc].
  - cbn [zero Dec.sign Dec.coeff Dec.exp] in *.
    destruct Hnn as [[_ E] | (Hlt & _)]; cbn [Dec.coeff Dec.exp] in *; [| lia].
    subst e. now rewrite !format_f_zero, !trimmed_zero.
  - cbn [Dec.sign Dec.coeff Dec.exp] in *. rewrite <- Hsd', negb_involutive.
    now rewrite Hsn.
Qed.

Lemma toggle_sign_twice_witness :
  _sanitize_number (current (press ["0"; "7"; "."; "5"; "0"] fresh)) = Ret "7.5" /\
  press ["±"; "±"] (press ["0"; "7"; "."; "5"; "0"] fresh) =
    mkState [] "7.5" false None.
Proof.
  assert (H : _sanitize_number (current (press ["0"; "7"; "."; "5"; "0"] fresh)) =
              Ret "7.5") by (vm_compute; reflexivity).
  split; [exact H |].
  exact (toggle_sign_twice (press ["0"; "7"; "."; "5"; "0"] fresh) "7.5" eq_refl H).
Defined.

(** ** Arithmetic on natural numbers, from the keys to the display *)

Lemma format_zero (sg : bool) : _format_decimal (mkDec sg 0 0) = Ret "0".
Proof. destruct sg; vm_compute; reflexivity. Qed.

Lemma normalize_integer (sg : bool) (a : Z) :
  0 < a -> ndigits a <= Dec.prec ->
  exists c j, 0 <= j /\ a = c * 10 ^ j /\ 0 < c /\
              Dec.normalize (mkDec sg a 0) = Ret (mkDec sg c j).
Proof.
  intros Ha H28.
  assert (Hw : wf (mkDec sg a 0)) by (unfold wf; simpl; lia).
  assert (Hf : Dec._fix (mkDec sg a 0) = Ret (mkDec sg a 0)).
  { apply fix_exact; cbn [Dec.coeff Dec.exp];
      unfold Dec.Etiny, Dec.Emax, Dec.Emin, Dec.prec in *; lia. }
  destruct (Dec.strip_zeros (Z.to_nat (ndigits a)) a 0) as [c j] eqn:Es.
  assert (Hn : Dec.normalize (mkDec sg a 0) = Ret (mkDec sg c j)).
  { unfold Dec.normalize. rewrite Hf. cbn [bind]. unfold Dec.is_zero.
    cbn [Dec.sign Dec.coeff Dec.exp].
    destruct (Z.eqb_spec a 0); [lia |]. now rewrite Es. }
  destruct (strip_zeros_spec _ _ _ _ _ Es) as (k & Hk & -> & Hc & _).
  assert (Hp : 0 < 10 ^ k) by (apply Z.pow_pos_nonneg; lia).
  rewrite Z.add_0_l in Hn.
  exists c, k. repeat split; auto; try lia; nia.
Qed.

(** The text of a non-zero integer of at most 28 digits is its numeral. *)
Lemma format_integer (sg : bool) (a : Z) :
  0 < a -> ndigits a <= Dec.prec ->
  _format_decimal (mkDec sg a 0) = Ret (sign_text sg ++ str_of_nat a).
Proof.
  intros Ha H28.
  destruct (normalize_integer sg a Ha H28) as (c & j & Hj & -> & Hc & Hn).
  assert (Hw : wf (mkDec sg (c * 10 ^ j) 0)) by (unfold wf; simpl; lia).
  destruct (normalize_normal _ _ Hw Hn) as (Hnn & _ & _).
  rewrite format_decimal_trimmed, Hn. cbn [bind]. f_equal.
  rewrite format_f_integer by assumption.
  rewrite <- (Z2Nat.id j) at 2 by exact Hj.
  rewrite str_times_ten by exact Hc.
  apply trimmed_integer.
  - unfold zeros. now rewrite all_digits_app, all_digits_str_of_nat,
      all_digits_repeat.
  - pose proof (str_of_nat_nonempty c).
    destruct (str_of_nat c); [congruence | discriminate].
  - now apply str_positive.
Qed.

Lemma format_natural (a : Z) :
  0 <= a -> ndigits a <= Dec.prec ->
  _format_decimal (mkDec false a 0) = Ret (str_of_nat a).
Proof.
  intros Ha H28. destruct (Z.eq_dec a 0) as [-> | Hz]; [apply format_zero |].
  now apply (format_integer false a ltac:(lia)).
Qed.

Lemma sanitize_natural (a : Z) :
  0 <= a -> ndigits a <= Dec.prec ->
  _sanitize_number (str_of_nat a) = Ret (str_of_nat a).
Proof.
  intros Ha H28. unfold _sanitize_number.
  rewrite of_string_str by exact Ha. now apply format_natural.
Qed.

Lemma plain_natural (a : Z) : is_plain_number (str_of_nat a) = true.
Proof.
  apply (plain_integer false);
    [apply all_digits_str_of_nat | apply str_of_nat_nonempty].
Qed.

Lemma operator_not_digits (o : string) :
  in_OPERATORS o = true ->
  is_substring o "0123456789" = false /\ (o =? ".")%string = false.
Proof.
  unfold in_OPERATORS. intros Ho.
  repeat (apply orb_true_iff in Ho as [Ho | Ho]);
    apply String.eqb_eq in Ho as ->; split; reflexivity.
Qed.

Lemma after_operator (o : string) (s : CalculatorState) :
  in_OPERATORS o = true -> after o s = snd (_apply_operator o s).
Proof.
  intros Ho. rewrite after_dispatch. unfold dispatch.
  destruct (operator_not_digits o Ho) as [-> ->]. now rewrite Ho.
Qed.

(** The first operand and the operator, typed on a fresh engine. *)
Lemma operand_entered (a : Z) (o : string) :
  0 <= a -> ndigits a <= Dec.prec -> in_OPERATORS o = true ->
  press (keys (str_of_nat a) ++ [o]) fresh =
  mkState [str_of_nat a; o] (str_of_nat a) true None.
Proof.
  intros Ha H28 Ho. rewrite press_app.
  rewrite typing_first;
    auto using all_digits_str_of_nat, str_of_nat_nonempty.
  rewrite int_of_str by exact Ha. cbn [press List.fold_left tokens error fresh].
  rewrite after_operator by exact Ho.
  rewrite apply_operator_pairs by reflexivity.
  cbn [current]. now rewrite sanitize_natural.
Qed.

(** Both operands typed: the state Equals finds. *)
Lemma operands_entered (a b : Z) (o : string) :
  0 <= a -> ndigits a <= Dec.prec -> 0 <= b -> in_OPERATORS o = true ->
  press (keys (str_of_nat a) ++ [o] ++ keys (str_of_nat b)) fresh =
  mkState [str_of_nat a; o] (str_of_nat b) false None.
Proof.
  intros Ha H28 Hb Ho. rewrite app_assoc, press_app, operand_entered by assumption.
  rewrite typing_first;
    auto using all_digits_str_of_nat, str_of_nat_nonempty.
  now rewrite int_of_str.
Qed.

Lemma symbol_operator_text (sym : symbol) : in_OPERATORS (symbol_text sym) = true.
Proof. now destruct sym. Qed.

(** The expression [a o b] is read as one binary operation. *)
Lemma calculate_binary (a b : Z) (sym : symbol) :
  0 <= a -> 0 <= b -> ndigits a <= Dec.prec -> ndigits b <= Dec.prec ->
  safe_calculate
    (String.concat " " ([str_of_nat a; symbol_text sym] ++ [str_of_nat b])) =
  visit (Ast.BinOp (Ast.Constant (Ast.CInt a)) (symbol_operator sym)
                   (Ast.Constant (Ast.CInt b))).
Proof.
  intros Ha Hb Hda Hdb. unfold safe_calculate.
  rewrite strip_expression;
    [| cbn [pairs]; now rewrite plain_natural, symbol_operator_text
     | apply plain_natural].
  destruct (String.concat " " _) eqn:E.
  { exfalso. cbn [app String.concat] in E.
    pose proof (str_of_nat_nonempty a).
    destruct (str_of_nat a); [congruence | discriminate]. }
  rewrite <- E. clear E.
  pose proof (parse_chain_words (str_of_nat a) (int_operand a)
                [(sym, str_of_nat b, int_operand b)]
                (reads_as_integer a Ha)) as P.
  unfold chain_words in P. cbn [List.map List.flat_map fst snd app] in P.
  cbn [app]. rewrite P.
  - now destruct sym.
  - repeat constructor. now apply reads_as_integer.
  - unfold chain_tokens, rest_tokens, int_operand, operand_tokens.
    cbn [fst snd List.flat_map app List.forallb Ast.within_limit].
    unfold Ast.max_str_digits, Dec.prec in *.
    destruct (Z.leb_spec (ndigits a) 4300); [| lia].
    destruct (Z.leb_spec (ndigits b) 4300); [| lia].
    now destruct sym.
Qed.

Lemma visit_naturals (a b : Z) (op : Ast.operator) :
  0 <= a -> 0 <= b ->
  visit (Ast.BinOp (Ast.Constant (Ast.CInt a)) op (Ast.Constant (Ast.CInt b))) =
  match op with
  | Ast.Add => Dec.add (mkDec false a 0) (mkDec false b 0)
  | Ast.Sub => Dec.sub (mkDec false a 0) (mkDec false b 0)
  | Ast.Mult => Dec.mul (mkDec false a 0) (mkDec false b 0)
  | Ast.Div =>
      if b =? 0 then Raise ZeroDivisionError
      else Dec.div (mkDec false a 0) (mkDec false b 0)
  | _ => Raise ValueError
  end.
Proof.
  intros Ha Hb. cbn [visit]. rewrite !of_string_str by assumption.
  cbn [bind]. reflexivity.
Qed.

(** Equals on two typed operands shows the text of the result. *)
Lemma equals_binary (a b : Z) (sym : symbol) (d : Decimal) (text : string) :
  0 <= a -> 0 <= b -> ndigits a <= Dec.prec -> ndigits b <= Dec.prec ->
  visit (Ast.BinOp (Ast.Constant (Ast.CInt a)) (symbol_operator sym)
                   (Ast.Constant (Ast.CInt b))) = Ret d ->
  _format_decimal d = Ret text ->
  after "=" (mkState [str_of_nat a; symbol_text sym] (str_of_nat b) false None) =
  mkState [] text true None.
Proof.
  intros Ha Hb Ha28 H28 Hv Hf. rewrite after_equals. unfold _calculate_result.
  rewrite reset_clean by reflexivity. cbn [tokens].
  rewrite evaluation_list_appends
    by (cbn [tokens];
        change [str_of_nat a; symbol_text sym]
          with ([str_of_nat a] ++ [symbol_text sym])%list;
        rewrite ends_with_operator_snoc; apply symbol_operator_text).
  cbn [tokens current]. rewrite sanitize_natural by assumption. cbn [bind].
  now rewrite calculate_binary, Hv, Hf by assumption.
Qed.

Lemma equals_binary_zero (a b : Z) (sym : symbol) :
  0 <= a -> 0 <= b -> ndigits a <= Dec.prec -> ndigits b <= Dec.prec ->
  visit (Ast.BinOp (Ast.Constant (Ast.CInt a)) (symbol_operator sym)
                   (Ast.Constant (Ast.CInt b))) = Raise ZeroDivisionError ->
  after "=" (mkState [str_of_nat a; symbol_text sym] (str_of_nat b) false None) =
  mkState [] "0" true (Some msg_zero_division).
Proof.
  intros Ha Hb Ha28 H28 Hv. rewrite after_equals. unfold _calculate_result.
  rewrite reset_clean by reflexivity. cbn [tokens].
  rewrite evaluation_list_appends
    by (cbn [tokens];
        change [str_of_nat a; symbol_text sym]
          with ([str_of_nat a] ++ [symbol_text sym])%list;
        rewrite ends_with_operator_snoc; apply symbol_operator_text).
  cbn [tokens current]. rewrite sanitize_natural by assumption. cbn [bind].
  now rewrite calculate_binary, Hv by assumption.
Qed.

Lemma entered_result (a b : Z) (sym : symbol) (d : Decimal) (text : string) :
  0 <= a -> 0 <= b -> ndigits a <= Dec.prec -> ndigits b <= Dec.prec ->
  visit (Ast.BinOp (Ast.Constant (Ast.CInt a)) (symbol_operator sym)
                   (Ast.Constant (Ast.CInt b))) = Ret d ->
  _format_decimal d = Ret text ->
  press (entered a (symbol_text sym) b) fresh = mkState [] text true None.
Proof.
  intros Ha Hb Ha28 Hb28 Hv Hf. unfold entered.
  rewrite 2 app_assoc, press_app, <- app_assoc.
  rewrite operands_entered by (auto using symbol_operator_text).
  cbn [press List.fold_left]. now apply (equals_binary a b sym d).
Qed.

Lemma fix_zero (sg : bool) : Dec._fix (mkDec sg 0 0) = Ret (mkDec sg 0 0).
Proof. now destruct sg. Qed.

Lemma fix_natural (sg : bool) (c : Z) :
  0 < c -> ndigits c <= Dec.prec -> Dec._fix (mkDec sg c 0) = Ret (mkDec sg c 0).
Proof.
  intros Hc H28. apply fix_exact; cbn [Dec.coeff Dec.exp];
    unfold Dec.Etiny, Dec.Emax, Dec.Emin, Dec.prec in *; lia.
Qed.

(** The text of a rounded integer of at most 28 digits. *)
Lemma fixed_integer_text (sg : bool) (c : Z) :
  0 <= c -> ndigits c <= Dec.prec ->
  exists d, Dec._fix (mkDec sg c 0) = Ret d /\
            _format_decimal d =
              Ret (if c =? 0 then "0" else sign_text sg ++ str_of_nat c).
Proof.
  intros Hc H28. destruct (Z.eqb_spec c 0) as [-> | Hz].
  - exists (mkDec sg 0 0). split; [apply fix_zero | apply format_zero].
  - exists (mkDec sg c 0). split; [apply fix_natural; lia |].
    apply format_integer; lia.
Qed.

Lemma add_naturals (a b : Z) :
  0 <= a -> 0 <= b ->
  Dec.add (mkDec false a 0) (mkDec false b 0) = Dec._fix (mkDec false (a + b) 0).
Proof.
  intros Ha Hb. unfold Dec.add, Dec.signed. cbn [Dec.sign Dec.coeff Dec.exp].
  change (Z.min 0 0) with 0. change (10 ^ (0 - 0)) with 1.
  rewrite !Z.mul_1_r.
  destruct (Z.eqb_spec (a + b) 0) as [-> | Hz]; [reflexivity |].
  destruct (Z.ltb_spec (a + b) 0); [lia |]. now rewrite Z.abs_eq by lia.
Qed.

Lemma sub_naturals (a b : Z) :
  0 <= a -> 0 <= b ->
  Dec.sub (mkDec false a 0) (mkDec false b 0) =
  Dec._fix (mkDec (a <? b) (Z.abs (a - b)) 0).
Proof.
  intros Ha Hb. unfold Dec.sub, Dec.add, Dec.signed.
  cbn [Dec.sign Dec.coeff Dec.exp negb andb].
  change (Z.min 0 0) with 0. change (10 ^ (0 - 0)) with 1.
  rewrite !Z.mul_1_r. replace (a + - b) with (a - b) by lia.
  destruct (Z.eqb_spec (a - b) 0) as [E | Hz].
  - rewrite E. destruct (Z.ltb_spec a b); [lia | reflexivity].
  - destruct (Z.ltb_spec (a - b) 0), (Z.ltb_spec a b); try lia; reflexivity.
Qed.

Lemma mul_naturals (a b : Z) :
  Dec.mul (mkDec false a 0) (mkDec false b 0) = Dec._fix (mkDec false (a * b) 0).
Proof. reflexivity. Qed.

Lemma to_ideal_exact (j : nat) :
  forall c e, Dec.to_ideal j (c * 10 ^ Z.of_nat j) e = (c, e + Z.of_nat j).
Proof.
  induction j as [| j IH]; intros c e.
  - change (10 ^ Z.of_nat 0) with 1. rewrite Z.mul_1_r, Z.add_0_r. reflexivity.
  - cbn [Dec.to_ideal].
    rewrite Nat2Z.inj_succ, Z.pow_succ_r by apply Nat2Z.is_nonneg.
    replace (c * (10 * 10 ^ Z.of_nat j)) with (c * 10 ^ Z.of_nat j * 10) by lia.
    rewrite Z_mod_mult, Z.div_mul by lia. cbn [Z.eqb].
    rewrite IH. f_equal. lia.
Qed.

(** An exact quotient of two natural numbers is an integer again. *)
Lemma div_naturals (a b : Z) :
  0 <= a -> 0 < b -> ndigits a <= Dec.prec -> a mod b = 0 ->
  Dec.div (mkDec false a 0) (mkDec false b 0) = Dec._fix (mkDec false (a / b) 0).
Proof.
  intros Ha Hb H28 Hm. unfold Dec.div, Dec.is_zero.
  cbn [Dec.sign Dec.coeff Dec.exp xorb].
  destruct (Z.eqb_spec b 0); [lia |].
  destruct (Z.eqb_spec a 0) as [-> | Hz]; [reflexivity |].
  pose proof (ndigits_pos b) as Hnb. pose proof (ndigits_pos a) as Hna.
  unfold Dec.prec in *.
  set (shift := ndigits b - ndigits a + 28 + 1).
  assert (Hs : 0 < shift) by (unfold shift; lia).
  destruct (Z.leb_spec 0 shift); [| lia].
  assert (Hp : 0 < 10 ^ shift) by (apply Z.pow_pos_nonneg; lia).
  assert (Eab : a = a / b * b).
  { pose proof (Z.div_mod a b ltac:(lia)). lia. }
  assert (Enum : a * 10 ^ shift = a / b * 10 ^ shift * b).
  { rewrite Eab at 1. lia. }
  rewrite Enum, Z_mod_mult, Z.div_mul by lia. cbn [Z.eqb].
  replace (Z.to_nat (0 - 0 - (0 - 0 - shift))) with (Z.to_nat shift)
    by (f_equal; lia).
  replace (10 ^ shift) with (10 ^ Z.of_nat (Z.to_nat shift))
    by (now rewrite Z2Nat.id by lia).
  rewrite to_ideal_exact. rewrite Z2Nat.id by lia.
  f_equal. f_equal. lia.
Qed.

(** X15: arithmetic on natural numbers, from the keys to the display.
    When the digits of [a], an operator, the digits of [b] and Equals are
    sent to a fresh engine, for natural numbers of at most 28 digits, the
    engine ends with no tokens, [overwrite] set, no error, and in
    [current]: the numeral of [a + b] (when the sum has at most 28
    digits); the numeral of [a - b], behind a minus sign when [a < b];
    the numeral of [a * b] (when the product has at most 28 digits); the
    numeral of [a / b] when [b] is not 0 and divides [a]. *)
Theorem natural_arithmetic (a b : Z) :
  0 <= a -> 0 <= b -> ndigits a <= Dec.prec -> ndigits b <= Dec.prec ->
  (ndigits (a + b) <= Dec.prec ->
   press (entered a "+" b) fresh = mkState [] (str_of_nat (a + b)) true None) /\
  press (entered a "-" b) fresh =
    mkState [] (if a <? b then "-" ++ str_of_nat (b - a) else str_of_nat (a - b))
            true None /\
  (ndigits (a * b) <= Dec.prec ->
   press (entered a "*" b) fresh = mkState [] (str_of_nat (a * b)) true None) /\
  (0 < b -> a mod b = 0 ->
   press (entered a "/" b) fresh = mkState [] (str_of_nat (a / b)) true None).
Proof.
  intros Ha Hb Ha28 Hb28.
  assert (R : forall sym sg c,
             0 <= c -> ndigits c <= Dec.prec ->
             visit (Ast.BinOp (Ast.Constant (Ast.CInt a)) (symbol_operator sym)
                              (Ast.Constant (Ast.CInt b))) =
               Dec._fix (mkDec sg c 0) ->
             press (entered a (symbol_text sym) b) fresh =
             mkState [] (if c =? 0 then "0" else sign_text sg ++ str_of_nat c)
                     true None).
  { intros sym sg c Hc Hc28 Hv.
    destruct (fixed_integer_text sg c Hc Hc28) as (d & Hd & Hf).
    apply (entered_result a b sym d); auto. now rewrite Hv. }
  repeat apply conj.
  - intros H28.
    etransitivity;
      [apply (R plus false (a + b));
       [lia | exact H28
        | rewrite visit_naturals by assumption; now apply add_naturals] |].
    destruct (Z.eqb_spec (a + b) 0) as [-> | _]; reflexivity.
  - assert (H28 : ndigits (Z.abs (a - b)) <= Dec.prec).
    { destruct (ndigits_spec a Ha) as (_ & Hlt & _).
      destruct (ndigits_spec b Hb) as (_ & Hlt' & _).
      assert (a < 10 ^ Dec.prec).
      { apply Z.lt_le_trans with (10 ^ ndigits a); [exact Hlt |].
        apply Z.pow_le_mono_r; lia. }
      assert (b < 10 ^ Dec.prec).
      { apply Z.lt_le_trans with (10 ^ ndigits b); [exact Hlt' |].
        apply Z.pow_le_mono_r; lia. }
      apply ndigits_le; unfold Dec.prec in *; lia. }
    etransitivity;
      [apply (R minus (a <? b) (Z.abs (a - b)));
       [lia | exact H28
        | rewrite visit_naturals by assumption; now apply sub_naturals] |].
    destruct (Z.ltb_spec a b).
    + destruct (Z.eqb_spec (Z.abs (a - b)) 0); [lia |].
      replace (Z.abs (a - b)) with (b - a) by lia. reflexivity.
    + replace (Z.abs (a - b)) with (a - b) by lia.
      destruct (Z.eqb_spec (a - b) 0) as [-> | _]; reflexivity.
  - intros H28.
    etransitivity;
      [apply (R times false (a * b));
       [nia | exact H28
        | rewrite visit_naturals by assumption; apply mul_naturals] |].
    destruct (Z.eqb_spec (a * b) 0) as [-> | _]; reflexivity.
  - intros Hpos Hm.
    assert (Hq : 0 <= a / b <= a).
    { split; [apply Z.div_pos; lia |].
      apply Z.div_le_upper_bound; [lia | nia]. }
    assert (H28 : ndigits (a / b) <= Dec.prec).
    { destruct (ndigits_spec a Ha) as (_ & Hlt & _).
      assert (a < 10 ^ Dec.prec).
      { apply Z.lt_le_trans with (10 ^ ndigits a); [exact Hlt |].
        apply Z.pow_le_mono_r; lia. }
      apply ndigits_le; unfold Dec.prec in *; lia. }
    etransitivity;
      [apply (R over false (a / b)); [lia | exact H28 |] |].
    + rewrite visit_naturals by assumption. cbn [symbol_operator].
      destruct (Z.eqb_spec b 0); [lia |]. now apply div_naturals.
    + destruct (Z.eqb_spec (a / b) 0) as [-> | _]; reflexivity.
Qed.

Lemma natural_arithmetic_witness :
  press ["1"; "2"; "+"; "3"; "="] fresh = mkState [] "15" true None /\
  press ["1"; "2"; "-"; "3"; "0"; "="] fresh = mkState [] "-18" true None /\
  press ["1"; "2"; "*"; "3"; "="] fresh = mkState [] "36" true None /\
  press ["1"; "2"; "/"; "3"; "="] fresh = mkState [] "4" true None.
Proof.
  destruct (natural_arithmetic 12 3 ltac:(lia) ltac:(lia)
              ltac:(vm_compute; discriminate) ltac:(vm_compute; discriminate))
    as (Hadd & _ & Hmul & Hdiv).
  destruct (natural_arithmetic 12 30 ltac:(lia) ltac:(lia)
              ltac:(vm_compute; discriminate) ltac:(vm_compute; discriminate))
    as (_ & Hsub & _).
  split; [exact (Hadd ltac:(vm_compute; discriminate)) |].
  split; [exact Hsub |].
  split; [exact (Hmul ltac:(vm_compute; discriminate)) |].
  exact (Hdiv ltac:(lia) eq_refl).
Defined.

(** X16: division by zero, from the keys to the display.  When the digits
    of a natural number [a] of at most 28 digits, the division sign, 0 and
    Equals are sent to a fresh engine, the engine ends in the error state
    of a division by zero: no tokens, [current] "0", [overwrite] set, and
    the message of the zero division; also for [a = 0]. *)
Theorem division_by_zero_shown (a : Z) :
  0 <= a -> ndigits a <= Dec.prec ->
  press (entered a "/" 0) fresh = mkState [] "0" true (Some msg_zero_division).
Proof.
  intros Ha H28. unfold entered.
  rewrite 2 app_assoc, press_app, <- app_assoc.
  rewrite (operands_entered a 0 "/") by (auto; lia).
  cbn [press List.fold_left].
  apply (equals_binary_zero a 0 over); auto; try lia.
  - vm_compute. discriminate.
  - rewrite visit_naturals by lia. reflexivity.
Qed.

Lemma division_by_zero_shown_witness :
  press ["8"; "/"; "0"; "="] fresh = mkState [] "0" true (Some msg_zero_division).
Proof.
  exact (division_by_zero_shown 8 ltac:(lia) ltac:(vm_compute; discriminate)).
Defined.

(** ** The window *)

Lemma mapped_cases (label : string) :
  (label = "÷" /\ mapped label = "/") \/
  (label = "×" /\ mapped label = "*") \/
  mapped label = label.
Proof.
  unfold mapped, COMMAND_MAP.
  destruct (String.eqb_spec label "÷") as [-> | _]; [now left |].
  destruct (String.eqb_spec label "×") as [-> | _]; [right; now left |].
  right. now right.
Qed.

Lemma mapped_nonempty (label : string) : label <> "" -> mapped label <> "".
Proof.
  intros H. destruct (mapped_cases label) as [[_ ->] | [[_ ->] | ->]];
    [discriminate | discriminate | exact H].
Qed.

Lemma clickable_label (label : string) :
  clickable label -> label <> "" /\ recognized (mapped label) = true.
Proof.
  intros [row Hr Hl | ->]; [| split; [discriminate | reflexivity]].
  unfold BUTTON_LAYOUT in Hr. cbn [In] in Hr.
  repeat (destruct Hr as [<- | Hr];
          [cbn [In] in Hl;
           repeat (destruct Hl as [<- | Hl];
                   [split; [discriminate | reflexivity] |]);
           destruct Hl |]).
  destruct Hr.
Qed.

Lemma key_command (keysym command : string) :
  KEY_COMMANDS keysym = Some command ->
  command <> "" /\ recognized (mapped command) = true.
Proof.
  unfold KEY_COMMANDS.
  repeat match goal with
  | |- (if ?b then _ else _) = _ -> _ =>
      destruct b; [intros [= <-]; split; [discriminate | reflexivity] |]
  end.
  discriminate.
Qed.

Lemma engine_update_display (shown : display) (ui : CalculatorUI) :
  engine (_update_display shown ui) = engine ui.
Proof.
  destruct shown as [[expression cur] err]. unfold _update_display.
  now destruct (truthy err).
Qed.

Lemma engine_handle_command (label : string) (ui : CalculatorUI) :
  engine (snd (_handle_command label ui)) = after (mapped label) (engine ui).
Proof.
  unfold _handle_command, after.
  destruct (process (mapped label) (engine ui)) as [[shown | e] s]; cbn [snd].
  - now rewrite engine_update_display.
  - reflexivity.
Qed.

Section Window.

Variable isdigit : string -> bool.

(** What a key does: nothing, or what a click on a label does, and the
    label is not the empty string. *)
Lemma key_press_cases (char keysym : string) (ui : CalculatorUI) :
  _on_key_press isdigit char keysym ui = (Ret tt, ui) \/
  exists label, label <> "" /\
                _on_key_press isdigit char keysym ui = _handle_command label ui.
Proof.
  unfold _on_key_press.
  destruct (String.eqb_spec char "") as [-> | Hc]; cbn [negb andb].
  - cbn [String.eqb]. destruct (KEY_COMMANDS keysym) as [command |] eqn:Ek;
      [| now left].
    destruct (String.eqb_spec command ""); [now left | right; eauto].
  - destruct (isdigit char); [right; eauto |].
    destruct (String.eqb_spec char "."); [right; exists "."; now split |].
    destruct (String.eqb_spec char "%"); [right; exists "%"; now split |].
    destruct (KEY_COMMANDS keysym) as [command |] eqn:Ek; [| now left].
    destruct (String.eqb_spec command ""); [now left | right; eauto].
Qed.

Lemma window_attainable (ui : CalculatorUI) :
  shown_window isdigit ui -> attainable (engine ui).
Proof.
  induction 1 as [| label ui Hl Hw IH | char keysym ui Hw IH].
  - apply attain_init.
  - rewrite engine_handle_command. apply attain_step; [| exact IH].
    apply mapped_nonempty. now destruct (clickable_label label Hl).
  - destruct (key_press_cases char keysym ui) as [-> | (label & Hn & ->)];
      [exact IH |].
    rewrite engine_handle_command. apply attain_step; [| exact IH].
    now apply mapped_nonempty.
Qed.

End Window.

Lemma update_display_in_step (s : CalculatorState) (a b c d : string) :
  in_step (_update_display (get_display s) (mkUI s a b c d)).
Proof.
  unfold _update_display, get_display, in_step.
  destruct (error s) as [[| ch m] |] eqn:E; cbn; rewrite E; auto.
Qed.

Lemma handle_command_in_step (label : string) (ui : CalculatorUI) :
  reachable (engine ui) -> in_step ui ->
  in_step (snd (_handle_command label ui)).
Proof.
  intros Hr Hs. unfold _handle_command, process.
  destruct (dispatch (mapped label) (engine ui)) as [[[] | e] s] eqn:Ed;
    cbn [snd].
  - apply update_display_in_step.
  - apply raise_keeps_state in Ed; [| exact Hr]. subst s.
    destruct ui; exact Hs.
Qed.

Section Shown.

Variable isdigit : string -> bool.

Lemma window_in_step (ui : CalculatorUI) :
  shown_window isdigit ui -> in_step ui.
Proof.
  induction 1 as [| label ui Hl Hw IH | char keysym ui Hw IH].
  - repeat split.
  - apply handle_command_in_step; [| exact IH].
    now apply attainable_reachable, (window_attainable isdigit).
  - destruct (key_press_cases isdigit char keysym ui) as [-> | (label & _ & ->)];
      [exact IH |].
    apply handle_command_in_step; [| exact IH].
    now apply attainable_reachable, (window_attainable isdigit).
Qed.

(** X17: the labels of the window always show the state of the engine.
    After any run of clicks and key presses, whatever [str.isdigit]
    accepts, the expression label holds the tokens joined by blanks, the
    display label holds [current] and the status label holds the error
    message, or the empty string when there is none; also after a call
    whose exception escaped the callback. *)
Theorem window_shows_engine (ui : CalculatorUI) :
  shown_window isdigit ui ->
  expression_var ui = expression_text (engine ui) /\
  display_var ui = current (engine ui) /\
  status_var ui = match error (engine ui) with
                  | Some message => message
                  | None => ""
                  end.
Proof. apply window_in_step. Qed.

(** X18: the window never sends the empty string to the engine.  After
    any run of clicks and key presses the engine is in a state of a
    session without the empty command; the display label then shows a
    number being typed, which [Decimal] accepts, and the status label
    never shows the message of a number that cannot be parsed. *)
Theorem window_commands (ui : CalculatorUI) :
  shown_window isdigit ui ->
  attainable (engine ui) /\
  is_entry (display_var ui) = true /\
  (exists d, Dec.of_string (display_var ui) = Ret d) /\
  status_var ui <> msg_number.
Proof.
  intros Hw. pose proof (window_attainable isdigit ui Hw) as Ha.
  destruct (window_in_step ui Hw) as (_ & Hd & Hs).
  destruct (attainable_entry_error (engine ui) Ha) as [He Hm].
  rewrite Hd, Hs. repeat split; try assumption.
  - now apply entry_parses.
  - destruct (error (engine ui)) as [m |]; [congruence | discriminate].
Qed.

End Shown.

Lemma window_shows_engine_witness :
  shown_window (fun _ => false) (snd (_handle_command "÷" (snd (_handle_command "8" new_window)))) /\
  expression_var (snd (_handle_command "÷" (snd (_handle_command "8" new_window)))) = "8 /" /\
  display_var (snd (_handle_command "÷" (snd (_handle_command "8" new_window)))) = "8".
Proof.
  assert (Hw : shown_window (fun _ => false)
                 (snd (_handle_command "÷" (snd (_handle_command "8" new_window))))).
  { apply window_click;
      [apply (click_pad "÷" ["7"; "8"; "9"; "÷"]); cbn; auto |].
    apply window_click;
      [apply (click_pad "8" ["7"; "8"; "9"; "÷"]); cbn; auto |].
    apply window_new. }
  split; [exact Hw |].
  destruct (window_shows_engine (fun _ => false) _ Hw) as (H1 & H2 & _).
  split; [rewrite H1 | rewrite H2]; vm_compute; reflexivity.
Defined.

Lemma window_commands_witness :
  shown_window (fun _ => false) (snd (_handle_command "8" new_window)) /\
  attainable (engine (snd (_handle_command "8" new_window))) /\
  display_var (snd (_handle_command "8" new_window)) = "8".
Proof.
  assert (Hw : shown_window (fun _ => false) (snd (_handle_command "8" new_window))).
  { apply window_click;
      [apply (click_pad "8" ["7"; "8"; "9"; "÷"]); cbn; auto |].
    apply window_new. }
  split; [exact Hw | split; [| reflexivity]].
  exact (proj1 (window_commands (fun _ => false) _ Hw)).
Defined.

(** X19: no button and no bound key is dead.  The label of every button
    of the pad and of the Equals button, and every command of the key
    table, reaches the engine (through [COMMAND_MAP]) as a command that
    [process] dispatches to a method; the division and multiplication
    signs of the pad arrive as "/" and "*". *)
Theorem buttons_and_keys_recognized (label keysym command : string) :
  (clickable label -> recognized (mapped label) = true) /\
  (KEY_COMMANDS keysym = Some command -> recognized (mapped command) = true) /\
  mapped "÷" = "/" /\ mapped "×" = "*".
Proof.
  repeat split.
  - intros H. now destruct (clickable_label label H).
  - intros H. now destruct (key_command keysym command H).
Qed.

Lemma buttons_and_keys_recognized_witness :
  clickable "⌫" /\ recognized (mapped "⌫") = true /\
  KEY_COMMANDS "F9" = Some "±" /\ recognized (mapped "±") = true.
Proof.
  assert (Hc : clickable "⌫")
    by (apply (click_pad "⌫" ["CE"; "C"; "⌫"; "%"]); cbn; auto).
  destruct (buttons_and_keys_recognized "⌫" "F9" "±") as (H1 & H2 & _).
  split; [exact Hc | split; [exact (H1 Hc) | split; [reflexivity |]]].
  exact (H2 eq_refl).
Defined.

(** ** More on typing *)

Lemma after_clear_entry (s : CalculatorState) : after "CE" s = _clear_entry s.
Proof. rewrite after_dispatch. reflexivity. Qed.

Lemma after_point (s : CalculatorState) : after "." s = _input_decimal_point s.
Proof. rewrite after_dispatch. reflexivity. Qed.

(** X20: ClearEntry leaves no trace of the entry it clears.  Whatever was
    in [current], after ClearEntry and the digits of a text [ds] the entry
    is [str(int(ds))], as on an engine that was waiting for a new entry;
    [tokens] is the one ClearEntry found (empty after an error). *)
Theorem clear_entry_then_digits (ds : string) (s : CalculatorState) :
  all_digits ds = true -> ds <> "" ->
  press ("CE" :: keys ds) s =
  mkState (tokens (_reset_on_error s)) (str_of_nat (int_of_digits ds)) false
          (error (_reset_on_error s)).
Proof.
  intros Hd Hn. rewrite press_cons, after_clear_entry. unfold _clear_entry.
  rewrite typing_first; auto. cbn [error]. apply reset_no_error.
Qed.

Lemma clear_entry_then_digits_witness :
  all_digits "7" = true /\ "7" <> "" /\
  press ["5"; "6"; "CE"; "7"; "="] fresh = mkState [] "7" true None.
Proof.
  split; [reflexivity | split; [discriminate |]].
  change (press ["5"; "6"; "CE"; "7"; "="] fresh)
    with (after "=" (press ("CE" :: keys "7") (press ["5"; "6"] fresh))).
  rewrite (clear_entry_then_digits "7" (press ["5"; "6"] fresh) eq_refl
             ltac:(discriminate)).
  vm_compute. reflexivity.
Defined.

(** typing on behind a decimal point: every digit is appended *)
Lemma typing_append (fp : string) :
  forall (cur : string) (ts : list string) (err : option string),
    all_digits fp = true -> contains_char "."%char cur = true ->
    truthy err = false ->
    press (keys fp) (mkState ts cur false err) = mkState ts (cur ++ fp) false err.
Proof.
  induction fp as [| c fp IH]; intros cur ts err Hd Hc He.
  - now rewrite append_nil_r.
  - cbn [all_digits] in Hd. apply andb_true_iff in Hd as [Hdc Hd].
    rewrite keys_cons, press_cons, (after_digit c _ Hdc).
    unfold _input_digit. rewrite reset_clean by exact He.
    cbv zeta. cbn [overwrite current tokens error].
    destruct (String.eqb_spec cur "0") as [-> | _]; [discriminate |].
    rewrite IH; auto.
    + now rewrite append_assoc.
    + rewrite contains_char_app, Hc. reflexivity.
Qed.

(** X21: typing a number with a decimal point.  On an engine that is
    waiting for a new entry, the digits of [ip], the point and the digits
    of [fp] leave [str(int(ip))], a point and [fp] in [current]: the
    fractional digits are kept as typed, trailing zeros included; with
    nothing typed before the point, the entry starts with "0.". *)
Theorem typing_fraction (ip fp : string) (s : CalculatorState) :
  all_digits ip = true -> all_digits fp = true ->
  overwrite (_reset_on_error s) = true ->
  press (keys ip ++ ["."] ++ keys fp) s =
  mkState (tokens (_reset_on_error s))
          (match ip with
           | EmptyString => "0"
           | _ => str_of_nat (int_of_digits ip)
           end ++ "." ++ fp)
          false (error (_reset_on_error s)).
Proof.
  intros Hi Hf Ho. pose proof (reset_no_error s) as He.
  rewrite press_app. destruct ip as [| c ip].
  - cbn [keys list_ascii_of_string List.map press List.fold_left app].
    rewrite after_point. unfold _input_decimal_point. cbv zeta. rewrite Ho.
    now rewrite typing_append.
  - rewrite typing_reset by (auto; discriminate).
    rewrite typing_first by (auto; discriminate).
    set (m := str_of_nat (int_of_digits (String c ip))).
    cbn [app]. rewrite press_cons, after_point.
    unfold _input_decimal_point. rewrite reset_clean by exact He.
    cbv zeta. cbn [overwrite current tokens error].
    rewrite contains_char_digits
      by (try reflexivity; apply all_digits_str_of_nat).
    cbn [negb]. rewrite typing_append; auto.
    + now rewrite append_assoc.
    + rewrite contains_char_app. cbn. apply orb_true_r.
Qed.

Lemma typing_fraction_witness :
  all_digits "07" = true /\ all_digits "50" = true /\
  press ["0"; "7"; "."; "5"; "0"] fresh = mkState [] "7.50" false None.
Proof.
  split; [reflexivity | split; [reflexivity |]].
  exact (typing_fraction "07" "50" fresh eq_refl eq_refl eq_refl).
Defined.

(** ** An expression of blanks *)

Lemma lstrip_blanks (k : nat) : lstrip " "%char (repeat " "%char k) = "".
Proof. induction k as [| k IH]; [reflexivity | exact IH]. Qed.

(** X22: an expression that is empty or made of blanks only evaluates to
    zero: [safe_calculate] does not hand it to the parser. *)
Theorem safe_calculate_blank (k : nat) :
  safe_calculate (repeat " "%char k) = Ret zero.
Proof.
  unfold safe_calculate, strip. now rewrite lstrip_blanks.
Qed.

